(** * Process locks of the BEAM emulator (erts/emulator/beam/erl_process_lock.c)

    A shallow embedding of the process-lock implementation: the lock bit
    field with its lock and wait flags, the circular doubly linked wait
    queues, [try_aquire], [transfer_locks], [in_order_locks],
    [proc_safelock] and [erts_pid2proc_opt], followed by the properties
    established about them. *)

From Stdlib Require Import ZArith Lia Bool List.
From stdpp Require Import base numbers list option functions sorting.

Local Open Scope Z_scope.

(* ===================================================================== *)
(** * Part I.  The embedding                                              *)
(* ===================================================================== *)

(** ** 32-bit words

    [ErtsProcLocks] and the lock bit field are 32-bit quantities.  They are
    represented by their unsigned value in [Z]; every operation that can
    leave the range wraps explicitly. *)

Definition ErtsProcLocks := Z.

Definition word_bits : Z := 32.

Definition is_word (z : Z) : Prop := 0 <= z < 2 ^ word_bits.

Definition wrap (z : Z) : Z := z mod 2 ^ word_bits.

(** [~x] *)
Definition wnot (x : Z) : Z := wrap (Z.lnot x).

(** [-x] *)
Definition wneg (x : Z) : Z := wrap (- x).

(** [a - b] *)
Definition wsub (a b : Z) : Z := wrap (a - b).

(** [a << n] *)
Definition wshl (a : Z) (n : Z) : Z := wrap (Z.shiftl a n).

(** A C truth value: [x] used as a condition. *)
Definition truthy (x : Z) : bool := negb (x =? 0).

(** ** Constants of erl_process_lock.h *)

(** Modelled from the spec: the header erl_process_lock.h is not part of
    the sources at hand.  The spec fixes five facets in production
    (MAIN=0, MSGQ=1, TIMERS=2, STATUS=3, TRACE=4), so the highest lock bit
    is 4. *)
Definition ERTS_PROC_LOCK_MAX_BIT : nat := 4.

(** Modelled from the spec: the waiter field starts at a fixed shift that
    is at least the number of facets; the waiter flag of lock bit [i] is
    bit [i + ERTS_PROC_LOCK_WAITER_SHIFT]. *)
Definition ERTS_PROC_LOCK_WAITER_SHIFT : Z := Z.of_nat ERTS_PROC_LOCK_MAX_BIT + 1.

(** Modelled from the spec: the mask of all lock (held) bits. *)
Definition ERTS_PROC_LOCKS_ALL : ErtsProcLocks :=
  wsub (wshl 1 (Z.of_nat ERTS_PROC_LOCK_MAX_BIT + 1)) 1.

(** [((ErtsProcLocks) 1) << lock_no] *)
Definition lock_bit (lock_no : nat) : ErtsProcLocks := wshl 1 (Z.of_nat lock_no).

(** ** in_order_locks *)

Definition in_order_locks (in_use need_locks : ErtsProcLocks) : ErtsProcLocks :=
  (* All locks we want that are already locked by someone else. *)
  let busy := Z.land in_use need_locks in
  (* Just the lowest numbered lock we want that's in use; 0 if none. *)
  let lowest_busy := Z.land busy (wneg busy) in
  (* All locks below the lowest one we want that's in use already. *)
  Z.land need_locks (wsub lowest_busy 1).

(** The spec's wording of the same function, for comparison:
    [in_order_free(old, M) = M ∩ ¬held(old) ∩ (below-lowest-busy)], where
    below-lowest-busy is the set of bits strictly below the lowest bit of
    [M ∩ held(old)] (every bit when that set is empty). *)

Fixpoint ctz (p : positive) : Z :=
  match p with
  | xO q => Z.succ (ctz q)
  | _ => 0
  end.

Definition lowest_set_bit (m : Z) : option Z :=
  match m with
  | Zpos p => Some (ctz p)
  | _ => None
  end.

Definition below_lowest (busy : Z) : Z :=
  match lowest_set_bit busy with
  | Some k => Z.ones k
  | None => Z.ones word_bits
  end.

Definition in_order_free (in_use need_locks : ErtsProcLocks) : ErtsProcLocks :=
  Z.land (Z.land need_locks (wnot in_use)) (below_lowest (Z.land need_locks in_use)).

(** ** Outcomes of fallible code *)

(** A call either returns, or is stopped by the lock checker
    ([erts_lc_fail], lock-check builds only), or runs into undefined
    behaviour (a NULL dereference), or exhausts the iteration budget that
    the embedding gives to a loop. *)
Inductive result (A : Type) : Type :=
| Ok (a : A)
| LcFail (pid : Z)
| Undefined
| OutOfFuel.

Arguments Ok {A} a.
Arguments LcFail {A} pid.
Arguments Undefined {A}.
Arguments OutOfFuel {A}.

#[global] Instance result_ret : MRet result := fun A a => Ok a.

#[global] Instance result_bind : MBind result := fun A B f m =>
  match m with
  | Ok a => f a
  | LcFail pid => LcFail pid
  | Undefined => Undefined
  | OutOfFuel => OutOfFuel
  end.

(** Dereferencing a possibly NULL pointer. *)
Definition deref {A : Type} (p : option A) : result A :=
  match p with
  | Some a => Ok a
  | None => Undefined
  end.

(** ** Processes *)

Definition proc_ptr := nat.
Definition tse_ptr := nat.

(** The lock of a process: the flag word and one wait queue head per lock
    ([queue[ERTS_PROC_LOCK_MAX_BIT+1]], indexed by lock number). *)
Record erts_proc_lock_t : Type := mk_lock {
  flags : Z;
  queue : nat -> option tse_ptr
}.

(** The fields of [Process] that this file reads: [common.id], the
    exiting state ([ERTS_PROC_IS_EXITING]), the reference count and the
    lock. *)
Record Process : Type := mk_proc {
  common_id : Z;
  is_exiting : bool;
  refc : Z;
  lock : erts_proc_lock_t
}.

(** ** proc_safelock *)

(** The calls that [proc_safelock] makes on its collaborators, in the
    order in which it makes them. *)
Inductive lock_call : Type :=
| Call_lc_chk (p : proc_ptr) (locks : ErtsProcLocks)
| Call_unlock (p : proc_ptr) (locks : ErtsProcLocks)
| Call_lock (p : proc_ptr) (locks : ErtsProcLocks)
| Call_inc_refc (p : proc_ptr)
| Call_dec_refc (p : proc_ptr).

#[global] Instance lock_call_eq_dec : EqDecision lock_call.
Proof. solve_decision. Defined.

(** The local variables of [proc_safelock] after the process order has been
    determined. *)
Record safelock_vars : Type := mk_vars {
  p1 : option proc_ptr;
  pid1 : Z;
  need_locks1 : ErtsProcLocks;
  have_locks1 : ErtsProcLocks;
  p2 : option proc_ptr;
  pid2 : Z;
  need_locks2 : ErtsProcLocks;
  have_locks2 : ErtsProcLocks
}.

(** Determine inter process lock order: locks with the same lock order
    are locked on [p1] before [p2]. *)
Definition safelock_order (procs : proc_ptr -> Process)
    (a_proc : option proc_ptr) (a_have_locks a_need_locks : ErtsProcLocks)
    (b_proc : proc_ptr) (b_have_locks b_need_locks : ErtsProcLocks)
    : safelock_vars :=
  let b_id := common_id (procs b_proc) in
  match a_proc with
  | Some a =>
      let a_id := common_id (procs a) in
      if a_id <? b_id then
        mk_vars (Some a) a_id a_need_locks a_have_locks
                (Some b_proc) b_id b_need_locks b_have_locks
      else if a_id >? b_id then
        mk_vars (Some b_proc) b_id b_need_locks b_have_locks
                (Some a) a_id a_need_locks a_have_locks
      else
        mk_vars (Some a) a_id
                (Z.lor a_need_locks b_need_locks) (Z.lor a_have_locks b_have_locks)
                None 0 0 0
  | None =>
      mk_vars (Some b_proc) b_id b_need_locks b_have_locks None 0 0 0
  end.

(** The iteration budget given to the loops of [proc_safelock]; every loop
    is bounded by the number of lock bits. *)
Definition safelock_fuel : nat := 2 * (ERTS_PROC_LOCK_MAX_BIT + 2).

(** Figure out the range of locks that needs to be unlocked: the [for]
    loop that computes [unlock_mask] and leaves [lock_no] at the first lock
    to lock on either process. *)
Fixpoint unlock_range (fuel : nat) (lock_no : nat)
    (need_locks1 need_locks2 unlock_mask : ErtsProcLocks)
    : result (ErtsProcLocks * nat) :=
  match fuel with
  | O => OutOfFuel
  | S fuel =>
      if (lock_no <=? ERTS_PROC_LOCK_MAX_BIT)%nat then
        let lock := wshl 1 (Z.of_nat lock_no) in
        if truthy (Z.land lock need_locks1) then Ok (unlock_mask, lock_no)
        else
          let unlock_mask := Z.land unlock_mask (wnot lock) in
          if truthy (Z.land lock need_locks2) then Ok (unlock_mask, lock_no)
          else unlock_range fuel (S lock_no) need_locks1 need_locks2 unlock_mask
      else Ok (unlock_mask, lock_no)
  end.

(** [erts_proc_unlock(p, unlock_locks)] for one process in the unlock
    phase, with the reference count taken by unmanaged threads that are
    about to hold no lock on the process.  Returns the new [have_locks],
    [need_locks], [refc] flag and the calls made. *)
Definition unlock_in_range (is_managed : bool) (p : option proc_ptr)
    (unlock_mask have_locks need_locks : ErtsProcLocks)
    : result (ErtsProcLocks * ErtsProcLocks * bool * list lock_call) :=
  let unlock_locks := Z.land unlock_mask have_locks in
  if truthy unlock_locks then
    let have_locks := Z.land have_locks (wnot unlock_locks) in
    let need_locks := Z.lor need_locks unlock_locks in
    p ← deref p;
    if negb is_managed && negb (truthy have_locks) then
      Ok (have_locks, need_locks, true, [Call_inc_refc p; Call_unlock p unlock_locks])
    else
      Ok (have_locks, need_locks, false, [Call_unlock p unlock_locks])
  else Ok (have_locks, need_locks, false, []).

(** The [do ... while] loop that collects a run of locks for [p1]. *)
Fixpoint lock_run1 (fuel : nat) (lock_no : nat) (lock_mask need_locks2 : ErtsProcLocks)
    : result (nat * ErtsProcLocks * ErtsProcLocks) :=
  match fuel with
  | O => OutOfFuel
  | S fuel =>
      let lock := wshl 1 (Z.of_nat lock_no) in
      let lock_no := S lock_no in
      let lock_mask := Z.lor lock_mask lock in
      if (lock_no <=? ERTS_PROC_LOCK_MAX_BIT)%nat
         && negb (truthy (Z.land need_locks2 lock))
      then lock_run1 fuel lock_no lock_mask need_locks2
      else Ok (lock_no, lock_mask, lock)
  end.

(** The [while] loop that collects a run of locks for [p2]. *)
Fixpoint lock_run2 (fuel : nat) (lock_no : nat) (lock_mask lock need_locks1 : ErtsProcLocks)
    : result (nat * ErtsProcLocks) :=
  match fuel with
  | O => OutOfFuel
  | S fuel =>
      if (lock_no <=? ERTS_PROC_LOCK_MAX_BIT)%nat
         && negb (truthy (Z.land need_locks1 lock))
      then
        let lock_mask := Z.lor lock_mask lock in
        let lock_no := S lock_no in
        let lock := wshl 1 (Z.of_nat lock_no) in
        lock_run2 fuel lock_no lock_mask lock need_locks1
      else Ok (lock_no, lock_mask)
  end.

(** Lock locks in lock order: the outer [while] loop.  The calls made are
    accumulated in [calls], most recent last. *)
Fixpoint lock_in_order (fuel : nat) (lock_no : nat) (v : safelock_vars)
    (calls : list lock_call) : result (safelock_vars * list lock_call) :=
  match fuel with
  | O => OutOfFuel
  | S fuel =>
      if (lock_no <=? ERTS_PROC_LOCK_MAX_BIT)%nat then
        let lock := wshl 1 (Z.of_nat lock_no) in
        let lock_mask := 0 in
        if truthy (Z.land (need_locks1 v) lock) then
          '(lock_no, lock_mask, lock) ← lock_run1 safelock_fuel lock_no lock_mask (need_locks2 v);
          let lock_no := if truthy (Z.land (need_locks2 v) lock)
                         then Nat.pred lock_no else lock_no in
          let locks := Z.land (need_locks1 v) lock_mask in
          p ← deref (p1 v);
          lock_in_order fuel lock_no
            (mk_vars (p1 v) (pid1 v)
               (Z.land (need_locks1 v) (wnot locks)) (Z.lor (have_locks1 v) locks)
               (p2 v) (pid2 v) (need_locks2 v) (have_locks2 v))
            (calls ++ [Call_lock p locks])
        else if truthy (Z.land (need_locks2 v) lock) then
          '(lock_no, lock_mask) ← lock_run2 safelock_fuel lock_no lock_mask lock (need_locks1 v);
          let locks := Z.land (need_locks2 v) lock_mask in
          p ← deref (p2 v);
          lock_in_order fuel lock_no
            (mk_vars (p1 v) (pid1 v) (need_locks1 v) (have_locks1 v)
               (p2 v) (pid2 v)
               (Z.land (need_locks2 v) (wnot locks)) (Z.lor (have_locks2 v) locks))
            (calls ++ [Call_lock p locks])
        else lock_in_order fuel (S lock_no) v calls
      else Ok (v, calls)
  end.

(** The lock checker's calls on the processes that are present. *)
Definition lc_chk_calls (lock_check : bool) (v : safelock_vars) : list lock_call :=
  if lock_check then
    match p1 v with Some p => [Call_lc_chk p (have_locks1 v)] | None => [] end ++
    match p2 v with Some p => [Call_lc_chk p (have_locks2 v)] | None => [] end
  else [].

(** [proc_safelock] up to and including the unlock phase: determine the
    process order, run the lock checker's test of the caller contract,
    reduce the needed locks by the held ones, compute [unlock_mask] and
    unlock.  Returns the local variables, [lock_no], the two [refc] flags,
    [unlock_mask] and the calls made so far. *)
Definition safelock_unlock_phase (lock_check : bool) (procs : proc_ptr -> Process)
    (is_managed : bool)
    (a_proc : option proc_ptr) (a_have_locks a_need_locks : ErtsProcLocks)
    (b_proc : option proc_ptr) (b_have_locks b_need_locks : ErtsProcLocks)
    : result (safelock_vars * nat * bool * bool * ErtsProcLocks * list lock_call) :=
  b ← deref b_proc;
  let v := safelock_order procs a_proc a_have_locks a_need_locks
             b b_have_locks b_need_locks in
  let calls := lc_chk_calls lock_check v in
  if lock_check && negb (Z.land (need_locks1 v) (have_locks1 v) =? have_locks1 v)
  then LcFail (pid1 v)
  else if lock_check && negb (Z.land (need_locks2 v) (have_locks2 v) =? have_locks2 v)
  then LcFail (pid2 v)
  else
    let need1 := Z.land (need_locks1 v) (wnot (have_locks1 v)) in
    let need2 := Z.land (need_locks2 v) (wnot (have_locks2 v)) in
    (* Figure out the range of locks that needs to be unlocked... *)
    '(unlock_mask, lock_no) ← unlock_range safelock_fuel 0 need1 need2 ERTS_PROC_LOCKS_ALL;
    (* ... and unlock locks in that range... *)
    '(have1, need1, refc1, calls1) ←
      (if truthy (have_locks1 v) || truthy (have_locks2 v)
       then unlock_in_range is_managed (p1 v) unlock_mask (have_locks1 v) need1
       else Ok (have_locks1 v, need1, false, []));
    '(have2, need2, refc2, calls2) ←
      (if truthy (have_locks1 v) || truthy (have_locks2 v)
       then unlock_in_range is_managed (p2 v) unlock_mask (have_locks2 v) need2
       else Ok (have_locks2 v, need2, false, []));
    let v := mk_vars (p1 v) (pid1 v) need1 have1 (p2 v) (pid2 v) need2 have2 in
    Ok (v, lock_no, refc1, refc2, unlock_mask,
        calls ++ calls1 ++ calls2 ++ lc_chk_calls lock_check v).

(** [proc_safelock].  [lock_check] tells whether the build has
    [ERTS_ENABLE_LOCK_CHECK].  The result holds the final local variables
    and the calls made, in order. *)
Definition proc_safelock (lock_check : bool) (procs : proc_ptr -> Process)
    (is_managed : bool)
    (a_proc : option proc_ptr) (a_have_locks a_need_locks : ErtsProcLocks)
    (b_proc : option proc_ptr) (b_have_locks b_need_locks : ErtsProcLocks)
    : result (safelock_vars * list lock_call) :=
  '(v, lock_no, refc1, refc2, _, calls) ←
    safelock_unlock_phase lock_check procs is_managed
      a_proc a_have_locks a_need_locks b_proc b_have_locks b_need_locks;
  (* Lock locks in lock order... *)
  '(v, calls) ← lock_in_order safelock_fuel lock_no v calls;
  let calls := calls ++ lc_chk_calls lock_check v in
  dec1 ← (if negb is_managed && refc1
          then p ← deref (p1 v); Ok [Call_dec_refc p] else Ok []);
  dec2 ← (if negb is_managed && refc2
          then p ← deref (p2 v); Ok [Call_dec_refc p] else Ok []);
  Ok (v, calls ++ dec1 ++ dec2).

(** The assertions that close [proc_safelock] in lock-check builds, on the
    final local variables. *)
Definition safelock_final_asserts
    (a_proc : option proc_ptr) (a_need_locks b_need_locks : ErtsProcLocks)
    (v : safelock_vars) : bool :=
  match p1 v, p2 v with
  | Some q1, Some _ =>
      if bool_decide (Some q1 = a_proc)
      then (a_need_locks =? have_locks1 v) && (b_need_locks =? have_locks2 v)
      else (a_need_locks =? have_locks2 v) && (b_need_locks =? have_locks1 v)
  | Some _, None =>
      match a_proc with
      | Some _ => have_locks1 v =? Z.lor a_need_locks b_need_locks
      | None => have_locks1 v =? b_need_locks
      end
  | None, _ => false
  end.

(** [erts_proc_safelock]: the caller is managed iff it runs on a scheduler
    ([erts_get_scheduler_id() != 0]). *)
Definition erts_proc_safelock (lock_check : bool) (procs : proc_ptr -> Process)
    (scheduler_id : Z)
    (a_proc : option proc_ptr) (a_have_locks a_need_locks : ErtsProcLocks)
    (b_proc : option proc_ptr) (b_have_locks b_need_locks : ErtsProcLocks)
    : result (safelock_vars * list lock_call) :=
  proc_safelock lock_check procs (negb (scheduler_id =? 0))
    a_proc a_have_locks a_need_locks b_proc b_have_locks b_need_locks.

(** ** What the caller holds, as an effect of the calls

    [erts_proc_lock(p, M)] adds [M] to what the caller holds on [p] and
    [erts_proc_unlock(p, M)] removes it; this is the contract of the two
    operations towards callers. *)

Definition held_map := proc_ptr -> ErtsProcLocks.

Definition replay_call (c : lock_call) (h : held_map) : held_map :=
  match c with
  | Call_lock p locks => <[p := Z.lor (h p) locks]> h
  | Call_unlock p locks => <[p := Z.land (h p) (wnot locks)]> h
  | _ => h
  end.

Definition replay (calls : list lock_call) (h : held_map) : held_map :=
  fold_left (fun h c => replay_call c h) calls h.

(** A call respects the contract of its operation when a lock call asks
    for a non-empty set of locks none of which the caller holds on that
    process, an unlock call releases a non-empty set of locks all of which
    the caller holds, and the lock checker finds exactly the locks it is
    told to expect. *)
Definition call_ok (c : lock_call) (h : held_map) : bool :=
  match c with
  | Call_lock p locks => truthy locks && (Z.land (h p) locks =? 0)
  | Call_unlock p locks => truthy locks && (Z.land (h p) locks =? locks)
  | Call_lc_chk p locks => h p =? locks
  | _ => true
  end.

Fixpoint calls_ok (calls : list lock_call) (h : held_map) : bool :=
  match calls with
  | [] => true
  | c :: calls => call_ok c h && calls_ok calls (replay_call c h)
  end.

(** The lock numbers of a mask, ascending. *)
Definition mask_bits (m : ErtsProcLocks) : list nat :=
  filter (fun i => Z.testbit m (Z.of_nat i) = true) (seq 0 (S ERTS_PROC_LOCK_MAX_BIT)).

(** The [erts_proc_lock] calls of a trace. *)
Definition lock_calls (calls : list lock_call) : list (proc_ptr * ErtsProcLocks) :=
  omap (fun c => match c with Call_lock p m => Some (p, m) | _ => None end) calls.

(** The [erts_proc_unlock] calls of a trace. *)
Definition unlock_calls (calls : list lock_call) : list (proc_ptr * ErtsProcLocks) :=
  omap (fun c => match c with Call_unlock p m => Some (p, m) | _ => None end) calls.

(** The single locks acquired by a sequence of lock calls, in the order
    of acquisition (within one call: ascending lock number), each with its
    position in the lock order: the lock number first, then the rank of the
    process ([p1] before any other process). *)
Definition lock_rank (first : option proc_ptr) (p : proc_ptr) : nat :=
  if bool_decide (first = Some p) then 0 else 1.

Fixpoint acquisitions (first : option proc_ptr)
    (l : list (proc_ptr * ErtsProcLocks)) : list (nat * nat) :=
  match l with
  | [] => []
  | (p, m) :: l =>
      ((fun i => (i, lock_rank first p)) <$> mask_bits m) ++ acquisitions first l
  end.

Definition lock_order_lt (x y : nat * nat) : bool :=
  (fst x <? fst y)%nat || ((fst x =? fst y)%nat && (snd x <? snd y)%nat).

Fixpoint strictly_ascending (l : list (nat * nat)) : bool :=
  match l with
  | x :: (y :: _) as l' => lock_order_lt x y && strictly_ascending l'
  | _ => true
  end.

(** Consecutive lock calls are on different processes: every call takes a
    whole run. *)
Fixpoint alternating (l : list (proc_ptr * ErtsProcLocks)) : bool :=
  match l with
  | x :: (y :: _) as l' => negb (bool_decide (fst x = fst y)) && alternating l'
  | _ => true
  end.

(** ** Lock state under the pix lock

    Waiters ([erts_tse_t]) live in a store indexed by pointer; a wait
    queue is the circular doubly linked list threaded through the [next]
    and [prev] fields of its waiters, entered at [queue[lock_no]]. *)

Record erts_tse_t : Type := mk_tse {
  uflgs : ErtsProcLocks;      (* the locks the waiter still needs *)
  uaflgs : Z;                 (* non-zero while the waiter has to sleep *)
  next : option tse_ptr;
  prev : option tse_ptr
}.

(** What the code under the pix lock does that is visible from outside:
    the atomic operations on the flag word (with the value they found),
    the pix lock operations and the wake-ups. *)
Inductive event : Type :=
| Ev_bor (mask old : Z)
| Ev_band (mask old : Z)
| Ev_pix_lock
| Ev_pix_unlock
| Ev_wake (w : tse_ptr).

#[global] Instance event_eq_dec : EqDecision event.
Proof. solve_decision. Defined.

Record lstate : Type := mk_lstate {
  lck : erts_proc_lock_t;
  tse : tse_ptr -> erts_tse_t;
  events : list event
}.

(** State and failure: the monad of the code that runs under the pix
    lock. *)
Definition M (A : Type) : Type := lstate -> result (A * lstate).

#[global] Instance M_ret : MRet M := fun A a s => Ok (a, s).

#[global] Instance M_bind : MBind M := fun A B f m s =>
  match m s with
  | Ok (a, s') => f a s'
  | LcFail pid => LcFail pid
  | Undefined => Undefined
  | OutOfFuel => OutOfFuel
  end.

Definition fail_undefined {A : Type} : M A := fun _ => Undefined.

Definition deref_M {A : Type} (p : option A) : M A :=
  match p with
  | Some a => mret a
  | None => fail_undefined
  end.

Definition get_queue (ix : nat) : M (option tse_ptr) :=
  fun s => Ok (queue (lck s) ix, s).

Definition set_queue (ix : nat) (q : option tse_ptr) : M unit :=
  fun s => Ok (tt, mk_lstate (mk_lock (flags (lck s)) (<[ix := q]> (queue (lck s))))
                             (tse s) (events s)).

Definition get_tse (w : tse_ptr) : M erts_tse_t :=
  fun s => Ok (tse s w, s).

Definition set_tse (w : tse_ptr) (x : erts_tse_t) : M unit :=
  fun s => Ok (tt, mk_lstate (lck s) (<[w := x]> (tse s)) (events s)).

Definition set_next (w : tse_ptr) (n : option tse_ptr) : M unit :=
  x ← get_tse w; set_tse w (mk_tse (uflgs x) (uaflgs x) n (prev x)).

Definition set_prev (w : tse_ptr) (p : option tse_ptr) : M unit :=
  x ← get_tse w; set_tse w (mk_tse (uflgs x) (uaflgs x) (next x) p).

Definition set_uflgs (w : tse_ptr) (f : ErtsProcLocks) : M unit :=
  x ← get_tse w; set_tse w (mk_tse f (uaflgs x) (next x) (prev x)).

Definition set_uaflgs (w : tse_ptr) (f : Z) : M unit :=
  x ← get_tse w; set_tse w (mk_tse (uflgs x) f (next x) (prev x)).

Definition emit (e : event) : M unit :=
  fun s => Ok (tt, mk_lstate (lck s) (tse s) (events s ++ [e])).

(** [ERTS_PROC_LOCK_FLGS_READ_] *)
Definition flgs_read : M Z := fun s => Ok (flags (lck s), s).

Definition flgs_write (f : Z) : M unit :=
  fun s => Ok (tt, mk_lstate (mk_lock f (queue (lck s))) (tse s) (events s)).

(** [ERTS_PROC_LOCK_FLGS_BOR_ACQB_]: atomic or, returning the old value. *)
Definition flgs_bor (mask : Z) : M Z :=
  old ← flgs_read; _ ← flgs_write (Z.lor old mask); _ ← emit (Ev_bor mask old); mret old.

(** [ERTS_PROC_LOCK_FLGS_BAND_]: atomic and, returning the old value. *)
Definition flgs_band (mask : Z) : M Z :=
  old ← flgs_read; _ ← flgs_write (Z.land old mask); _ ← emit (Ev_band mask old); mret old.

(** *** enqueue_waiter, dequeue_waiter *)

Definition enqueue_waiter (ix : nat) (wtr : tse_ptr) : M unit :=
  q ← get_queue ix;
  match q with
  | None =>
      _ ← set_queue ix (Some wtr);
      _ ← set_next wtr (Some wtr);
      set_prev wtr (Some wtr)
  | Some head =>
      _ ← set_next wtr (Some head);
      h ← get_tse head;
      _ ← set_prev wtr (prev h);
      w ← get_tse wtr;
      last ← deref_M (prev w);
      _ ← set_next last (Some wtr);
      set_prev head (Some wtr)
  end.

Definition dequeue_waiter (ix : nat) : M tse_ptr :=
  q ← get_queue ix;
  wtr ← deref_M q;
  w ← get_tse wtr;
  if bool_decide (next w = Some wtr) then
    _ ← set_queue ix None;
    mret wtr
  else
    n ← deref_M (next w);
    _ ← set_prev n (prev w);
    w ← get_tse wtr;
    p ← deref_M (prev w);
    _ ← set_next p (next w);
    w ← get_tse wtr;
    _ ← set_queue ix (next w);
    mret wtr.

(** *** try_aquire

    Tries to acquire as many locks as possible in lock order, and sets
    the wait flag on the first lock not possible to acquire. *)

Fixpoint try_aquire_loop (lock_nos : list nat) (wtr : tse_ptr)
    (locks got_locks : ErtsProcLocks) : M ErtsProcLocks :=
  match lock_nos with
  | [] => mret got_locks
  | lock_no :: lock_nos =>
      let lock := wshl 1 (Z.of_nat lock_no) in
      if truthy (Z.land locks lock) then
        q ← get_queue lock_no;
        match q with
        | Some _ =>
            (* Others already waiting *)
            _ ← enqueue_waiter lock_no wtr;
            mret got_locks
        | None =>
            let wflg := wshl lock ERTS_PROC_LOCK_WAITER_SHIFT in
            old_lflgs ← flgs_bor (Z.lor wflg lock);
            if truthy (Z.land old_lflgs lock) then
              (* Didn't get the lock *)
              _ ← enqueue_waiter lock_no wtr;
              mret got_locks
            else
              (* Got the lock *)
              let got_locks := Z.lor got_locks lock in
              (* No one else can be waiting for the lock; remove wait flag *)
              _ ← flgs_band (wnot wflg);
              if got_locks =? locks then mret got_locks
              else try_aquire_loop lock_nos wtr locks got_locks
        end
      else try_aquire_loop lock_nos wtr locks got_locks
  end.

(** The lock numbers [0 .. ERTS_PROC_LOCK_MAX_BIT], as the [for] loops
    visit them. *)
Definition all_lock_nos : list nat := seq 0 (S ERTS_PROC_LOCK_MAX_BIT).

Definition try_aquire (wtr : tse_ptr) : M unit :=
  w ← get_tse wtr;
  let locks := uflgs w in
  got_locks ← try_aquire_loop all_lock_nos wtr locks 0;
  w ← get_tse wtr;
  set_uflgs wtr (Z.land (uflgs w) (wnot got_locks)).

(** *** transfer_locks

    Transfer [trnsfr_lcks] held by the executing thread to other threads
    waiting for the locks. *)

(** The local variables of the transfer loop. *)
Record transfer_vars : Type := mk_tvars {
  transferred : Z;
  wake : option tse_ptr;
  unset_waiter : ErtsProcLocks;
  tlocks : ErtsProcLocks
}.

Fixpoint transfer_loop (lock_check : bool) (lock_nos : list nat)
    (v : transfer_vars) : M transfer_vars :=
  match lock_nos with
  | [] => mret v
  | lock_no :: lock_nos =>
      if truthy (tlocks v) then
        let lock := wshl 1 (Z.of_nat lock_no) in
        if truthy (Z.land (tlocks v) lock) then
          (* Transfer lock *)
          let tl := if lock_check then Z.land (tlocks v) (wnot lock) else tlocks v in
          wtr ← dequeue_waiter lock_no;
          q ← get_queue lock_no;
          let unset := match q with
                       | None => Z.lor (unset_waiter v) lock
                       | Some _ => unset_waiter v
                       end in
          w ← get_tse wtr;
          _ ← set_uflgs wtr (Z.land (uflgs w) (wnot lock));
          w ← get_tse wtr;
          _ ← (if truthy (uflgs w) then try_aquire wtr else mret tt);
          w ← get_tse wtr;
          if negb (truthy (uflgs w)) then
            (* The other thread got all locks it needs; need to wake it up. *)
            _ ← set_next wtr (wake v);
            transfer_loop lock_check lock_nos
              (mk_tvars (transferred v + 1) (Some wtr) unset tl)
          else
            transfer_loop lock_check lock_nos
              (mk_tvars (transferred v + 1) (wake v) unset tl)
        else transfer_loop lock_check lock_nos v
      else mret v
  end.

(** The [do ... while (wake)] loop that wakes the collected waiters. *)
Fixpoint wake_loop (fuel : nat) (wake : tse_ptr) : M unit :=
  match fuel with
  | O => fun _ => OutOfFuel
  | S fuel =>
      let tmp := wake in
      w ← get_tse wake;
      let wake := next w in
      _ ← set_uaflgs tmp 0;
      _ ← emit (Ev_wake tmp);
      match wake with
      | Some wake => wake_loop fuel wake
      | None => mret tt
      end
  end.

Definition transfer_locks (lock_check : bool) (trnsfr_lcks : ErtsProcLocks)
    (unlock : bool) : M Z :=
  v ← transfer_loop lock_check all_lock_nos (mk_tvars 0 None 0 trnsfr_lcks);
  _ ← (if truthy (unset_waiter v) then
         let unset := wshl (unset_waiter v) ERTS_PROC_LOCK_WAITER_SHIFT in
         _ ← flgs_band (wnot unset); mret tt
       else mret tt);
  _ ← match wake v with
      | None => if unlock then emit Ev_pix_unlock else mret tt
      | Some wake =>
          _ ← emit Ev_pix_unlock;
          _ ← wake_loop (S (S ERTS_PROC_LOCK_MAX_BIT)) wake;
          if negb unlock then emit Ev_pix_lock else mret tt
      end;
  mret (transferred v).

(** *** erts_proc_lock_init

    We always start with all locks locked, and with empty queues. *)
Definition erts_proc_lock_init : erts_proc_lock_t :=
  mk_lock ERTS_PROC_LOCKS_ALL (fun _ => None).

(** ** erts_pid2proc_opt *)

(** The process table (indexed by process index), the processes and the
    waiters. *)
Record World : Type := mk_world {
  erts_proc : nat -> option proc_ptr;
  proc_at : proc_ptr -> Process;
  tse_at : tse_ptr -> erts_tse_t
}.

(** The value returned: [NULL], [ERTS_PROC_LOCK_BUSY] or a process. *)
Inductive p2p_result : Type :=
| P2P_null
| P2P_busy
| P2P_proc (p : proc_ptr).

(** The calls that [erts_pid2proc_opt] makes, in order. *)
Inductive p2p_call : Type :=
| P2P_unmanaged_delay
| P2P_unmanaged_continue (dhndl : Z)
| P2P_inc_refc (p : proc_ptr)
| P2P_dec_refc (p : proc_ptr)
| P2P_raw_trylock (p : proc_ptr) (locks : ErtsProcLocks) (busy : Z)
| P2P_safelock (calls : list lock_call)
| P2P_unlock (p : proc_ptr) (locks : ErtsProcLocks).

(** [p->lock.flags] *)
Definition proc_flags (x : Process) : Z := flags (lock x).

Definition set_proc (p : proc_ptr) (x : Process) (w : World) : World :=
  mk_world (erts_proc w) (<[p := x]> (proc_at w)) (tse_at w).

Definition add_refc (p : proc_ptr) (d : Z) (w : World) : World :=
  let x := proc_at w p in
  set_proc p (mk_proc (common_id x) (is_exiting x) (refc x + d) (lock x)) w.

Definition set_flags (p : proc_ptr) (f : Z) (w : World) : World :=
  let x := proc_at w p in
  set_proc p (mk_proc (common_id x) (is_exiting x) (refc x)
                (mk_lock f (queue (lock x)))) w.

Section pid2proc.

(** The flag bits of erl_process_lock.h, which is not part of the sources
    at hand. *)
Variable ERTS_P2P_FLG_ALLOW_OTHER_X : Z.
Variable ERTS_P2P_FLG_TRY_LOCK : Z.
Variable ERTS_P2P_FLG_INC_REFC : Z.

(** [ERTS_THR_PRGR_DHANDLE_MANAGED] of erl_thr_progress.h. *)
Variable ERTS_THR_PRGR_DHANDLE_MANAGED : Z.

(** Whether the build has [ERTS_ENABLE_LOCK_CHECK]. *)
Variable lock_check : bool.

(** [is_not_internal_pid] and [internal_pid_index] of the term layer. *)
Variable is_not_internal_pid : Z -> bool.
Variable internal_pid_index : Z -> nat.

(** [erts_proc_raw_trylock__], an inline function of the missing header:
    a non-blocking atomic operation on the flag word of the process.  It
    maps the flag word and the wanted locks to its return value (non-zero
    when busy) and the new flag word. *)
Variable erts_proc_raw_trylock__ : Z -> ErtsProcLocks -> Z * Z.

(** [erts_proc_lc_trylock_force_busy] of the lock checker. *)
Variable erts_proc_lc_trylock_force_busy : World -> proc_ptr -> ErtsProcLocks -> bool.

(** The effect on the world of a blocking lock operation
    ([erts_proc_lock], [erts_proc_unlock]) made by this thread, together
    with whatever other threads do meanwhile. *)
Variable exec_call : lock_call -> World -> World.

Definition exec_calls (calls : list lock_call) (w : World) : World :=
  fold_left (fun w c => exec_call c w) calls w.

Definition p2p_inc_refc (cond : bool) (p : proc_ptr)
    (st : World * list p2p_call) : World * list p2p_call :=
  if cond then (add_refc p 1 (fst st), snd st ++ [P2P_inc_refc p]) else st.

Definition p2p_continue (dhndl : Z)
    (st : World * list p2p_call) : World * list p2p_call :=
  if negb (dhndl =? ERTS_THR_PRGR_DHANDLE_MANAGED)
  then (fst st, snd st ++ [P2P_unmanaged_continue dhndl]) else st.

(** The last part of [erts_pid2proc_opt], from the second
    [erts_thr_progress_unmanaged_continue] on: the check of the process
    after the locks have been taken. *)
Definition p2p_finish (flags : Z) (pix : nat) (need_locks : ErtsProcLocks)
    (dhndl : Z) (dec_refc_proc : option proc_ptr) (proc : p2p_result)
    (st : World * list p2p_call) : p2p_result * World * list p2p_call :=
  let st := p2p_continue dhndl st in
  let '(proc, dec_refc_proc, st) :=
    match proc with
    | P2P_proc p =>
        if truthy need_locks
           && (if negb (truthy (Z.land flags ERTS_P2P_FLG_ALLOW_OTHER_X))
               then is_exiting (proc_at (fst st) p)
               else negb (bool_decide (Some p = erts_proc (fst st) pix)))
        then
          (P2P_null,
           (if truthy (Z.land flags ERTS_P2P_FLG_INC_REFC) then Some p else dec_refc_proc),
           (exec_call (Call_unlock p need_locks) (fst st),
            snd st ++ [P2P_unlock p need_locks]))
        else (proc, dec_refc_proc, st)
    | _ => (proc, dec_refc_proc, st)
    end in
  match dec_refc_proc with
  | Some d => (proc, add_refc d (-1) (fst st), snd st ++ [P2P_dec_refc d])
  | None => (proc, fst st, snd st)
  end.

(** The part of [erts_pid2proc_opt] that looks the process up in the
    table and locks it: everything from
    [erts_thr_progress_unmanaged_delay] on.  [dhndl] is the handle that
    [erts_thr_progress_unmanaged_delay] returns to this thread. *)
Definition p2p_lookup (dhndl : Z)
    (c_p : option proc_ptr) (c_p_have_locks : ErtsProcLocks)
    (pid : Z) (pix : nat) (need_locks : ErtsProcLocks) (flags : Z) (w : World)
    : result (p2p_result * World * list p2p_call) :=
  let st := (w, [P2P_unmanaged_delay]) in
  match erts_proc w pix with
  | None => Ok (p2p_finish flags pix need_locks dhndl None P2P_null st)
  | Some proc =>
      if negb (common_id (proc_at w proc) =? pid) then
        Ok (p2p_finish flags pix need_locks dhndl None P2P_null st)
      else if negb (truthy need_locks) then
        let st := p2p_inc_refc (truthy (Z.land flags ERTS_P2P_FLG_INC_REFC)) proc st in
        Ok (p2p_finish flags pix need_locks dhndl None (P2P_proc proc) st)
      else
        (* Try a quick trylock to grab all the locks we need. *)
        let '(busy, st) :=
          if lock_check && erts_proc_lc_trylock_force_busy w proc need_locks
          then (true, st)
          else
            let '(busy, f) :=
              erts_proc_raw_trylock__ (proc_flags (proc_at w proc)) need_locks in
            (truthy busy,
             (set_flags proc f (fst st),
              snd st ++ [P2P_raw_trylock proc need_locks busy])) in
        if negb busy then
          let st := p2p_inc_refc (truthy (Z.land flags ERTS_P2P_FLG_INC_REFC)) proc st in
          Ok (p2p_finish flags pix need_locks dhndl None (P2P_proc proc) st)
        else if truthy (Z.land flags ERTS_P2P_FLG_TRY_LOCK) then
          Ok (p2p_finish flags pix need_locks dhndl None P2P_busy st)
        else
          let st := p2p_inc_refc (truthy (Z.land flags ERTS_P2P_FLG_INC_REFC)) proc st in
          let managed := dhndl =? ERTS_THR_PRGR_DHANDLE_MANAGED in
          let st := p2p_inc_refc (negb managed) proc st in
          let st := p2p_continue dhndl st in
          let dec_refc_proc := if managed then None else Some proc in
          (* We don't want to call erts_thr_progress_unmanaged_continue() again. *)
          let dhndl := ERTS_THR_PRGR_DHANDLE_MANAGED in
          '(_, calls) ← proc_safelock lock_check (proc_at (fst st)) managed
                          c_p c_p_have_locks c_p_have_locks
                          (Some proc) 0 need_locks;
          let st := (exec_calls calls (fst st), snd st ++ [P2P_safelock calls]) in
          Ok (p2p_finish flags pix need_locks dhndl dec_refc_proc (P2P_proc proc) st)
  end.

(** [erts_pid2proc_opt] *)
Definition erts_pid2proc_opt (dhndl : Z)
    (c_p : option proc_ptr) (c_p_have_locks : ErtsProcLocks)
    (pid : Z) (pid_need_locks : ErtsProcLocks) (flags : Z) (w : World)
    : result (p2p_result * World * list p2p_call) :=
  if is_not_internal_pid pid then Ok (P2P_null, w, [])
  else
    let pix := internal_pid_index pid in
    let need_locks := pid_need_locks in
    match c_p with
    | Some c =>
        if common_id (proc_at w c) =? pid then
          if negb (truthy (Z.land flags ERTS_P2P_FLG_ALLOW_OTHER_X))
             && is_exiting (proc_at w c)
          then Ok (P2P_null, w, [])
          else
            let need_locks := Z.land need_locks (wnot c_p_have_locks) in
            if negb (truthy need_locks) then
              let st := p2p_inc_refc (truthy (Z.land flags ERTS_P2P_FLG_INC_REFC)) c (w, []) in
              Ok (P2P_proc c, fst st, snd st)
            else p2p_lookup dhndl c_p c_p_have_locks pid pix need_locks flags w
        else p2p_lookup dhndl c_p c_p_have_locks pid pix need_locks flags w
    | None => p2p_lookup dhndl c_p c_p_have_locks pid pix need_locks flags w
    end.

End pid2proc.

(** ** Lock masks as sets of lock numbers *)

(** Lock number [i] is in mask [m]. *)
Definition bit (m : ErtsProcLocks) (i : nat) : bool := Z.testbit m (Z.of_nat i).

(** The wait flag of lock number [i] is set in the flag word [f]. *)
Definition wait_bit (f : Z) (i : nat) : bool :=
  Z.testbit f (Z.of_nat i + ERTS_PROC_LOCK_WAITER_SHIFT).

(** A mask of process locks: no bit outside [ERTS_PROC_LOCKS_ALL]. *)
Definition is_locks (m : ErtsProcLocks) : Prop := Z.land m ERTS_PROC_LOCKS_ALL = m.

#[global] Instance is_locks_dec (m : ErtsProcLocks) : Decision (is_locks m).
Proof. unfold is_locks. apply _. Defined.

(** [a] is a subset of [b]. *)
Definition subset_locks (a b : ErtsProcLocks) : Prop := Z.land b a = a.

#[global] Instance subset_locks_dec (a b : ErtsProcLocks) : Decision (subset_locks a b).
Proof. unfold subset_locks. apply _. Defined.

(** ** The shape of the locking loop of proc_safelock

    [runs q1 p2o k need1 need2 l]: starting at lock number [k] with
    [need1] still to lock on [q1] and [need2] on the second process, the
    locking loop makes the lock calls [l].  Each call takes the needed locks
    of one process in a run of consecutive lock numbers: a run for [q1]
    extends up to and including the first lock number that the second
    process needs, a run for the second process stops short of the first
    lock number that [q1] needs. *)
Inductive runs (q1 : proc_ptr) (p2o : option proc_ptr)
  : nat -> ErtsProcLocks -> ErtsProcLocks -> list (proc_ptr * ErtsProcLocks) -> Prop :=
| runs_done need1 need2 :
    runs q1 p2o (S ERTS_PROC_LOCK_MAX_BIT) need1 need2 []
| runs_skip k need1 need2 l :
    (k <= ERTS_PROC_LOCK_MAX_BIT)%nat ->
    bit need1 k = false -> bit need2 k = false ->
    runs q1 p2o (S k) need1 need2 l ->
    runs q1 p2o k need1 need2 l
| runs_p1 k j need1 need2 locks l :
    (k <= j <= ERTS_PROC_LOCK_MAX_BIT)%nat ->
    bit need1 k = true ->
    (forall i, (k <= i < j)%nat -> bit need2 i = false) ->
    ((j < ERTS_PROC_LOCK_MAX_BIT)%nat -> bit need2 j = true) ->
    0 <= locks ->
    (forall i, bit locks i = bit need1 i && ((k <=? i)%nat && (i <=? j)%nat)) ->
    runs q1 p2o (if bit need2 j then j else S j) (Z.land need1 (wnot locks)) need2 l ->
    runs q1 p2o k need1 need2 ((q1, locks) :: l)
| runs_p2 k j need1 need2 locks q2 l :
    p2o = Some q2 ->
    (k < j <= S ERTS_PROC_LOCK_MAX_BIT)%nat ->
    bit need1 k = false -> bit need2 k = true ->
    (forall i, (k <= i < j)%nat -> bit need1 i = false) ->
    ((j <= ERTS_PROC_LOCK_MAX_BIT)%nat -> bit need1 j = true) ->
    0 <= locks ->
    (forall i, bit locks i = bit need2 i && ((k <=? i)%nat && (i <? j)%nat)) ->
    runs q1 p2o j need1 (Z.land need2 (wnot locks)) l ->
    runs q1 p2o k need1 need2 ((q2, locks) :: l).

(** The lock order on single locks: by lock number, and for equal lock
    numbers by process. *)
Definition lock_order (x y : nat * nat) : Prop :=
  (fst x < fst y)%nat \/ (fst x = fst y /\ (snd x < snd y)%nat).

Definition lock_call_of (c : proc_ptr * ErtsProcLocks) : lock_call :=
  Call_lock (fst c) (snd c).

(** The caller holds exactly [a_locks] on process [A] and [b_locks] on
    process [B]; when [A] is absent nothing is said about it, and when [A]
    and [B] are the same process the caller holds the union. *)
Definition caller_holds (h : held_map)
    (a_proc : option proc_ptr) (a_locks : ErtsProcLocks)
    (b_proc : proc_ptr) (b_locks : ErtsProcLocks) : Prop :=
  match a_proc with
  | Some a =>
      if decide (a = b_proc) then h b_proc = Z.lor a_locks b_locks
      else h a = a_locks /\ h b_proc = b_locks
  | None => h b_proc = b_locks
  end.

(** The unlock calls of the unlock phase for one process: at most one
    [erts_proc_unlock], preceded by [erts_proc_inc_refc] when an unmanaged
    thread gives up its last lock on the process. *)
Definition unlock_phase_calls (is_managed : bool) (p : option proc_ptr)
    (unlock_locks rest : ErtsProcLocks) : list lock_call :=
  match p with
  | Some p =>
      if truthy unlock_locks then
        (if negb is_managed && negb (truthy rest) then [Call_inc_refc p] else [])
        ++ [Call_unlock p unlock_locks]
      else []
  | None => []
  end.

(** The held map [h] agrees with the [have_locks] variables of
    [proc_safelock]. *)
Definition holds (h : held_map) (v : safelock_vars) : Prop :=
  (forall q, p1 v = Some q -> h q = have_locks1 v) /\
  (forall q, p2 v = Some q -> h q = have_locks2 v).

(** The [erts_proc_dec_refc] call that closes [proc_safelock] for a
    process on which a reference count was taken. *)
Definition dec_refc_calls (cond : bool) (p : option proc_ptr) : list lock_call :=
  if cond then match p with Some p => [Call_dec_refc p] | None => [] end else [].

(** All the calls of a run of [proc_safelock], given the variables [v0]
    that [safelock_order] has set up, the [unlock_mask] and the lock calls
    [new] of the locking loop. *)
Definition safelock_calls (lock_check is_managed : bool) (v0 : safelock_vars)
    (unlock_mask : ErtsProcLocks) (new : list (proc_ptr * ErtsProcLocks))
    : list lock_call :=
  let need1 := Z.land (need_locks1 v0) (wnot (have_locks1 v0)) in
  let need2 := Z.land (need_locks2 v0) (wnot (have_locks2 v0)) in
  let u1 := Z.land unlock_mask (have_locks1 v0) in
  let u2 := Z.land unlock_mask (have_locks2 v0) in
  let have1 := Z.land (have_locks1 v0) (wnot u1) in
  let have2 := Z.land (have_locks2 v0) (wnot u2) in
  let v1 := mk_vars (p1 v0) (pid1 v0) (Z.lor need1 u1) have1
                    (p2 v0) (pid2 v0) (Z.lor need2 u2) have2 in
  let v2 := mk_vars (p1 v0) (pid1 v0) 0 (Z.lor (have_locks1 v0) (need_locks1 v0))
                    (p2 v0) (pid2 v0) 0 (Z.lor (have_locks2 v0) (need_locks2 v0)) in
  (lc_chk_calls lock_check v0
   ++ unlock_phase_calls is_managed (p1 v0) u1 have1
   ++ unlock_phase_calls is_managed (p2 v0) u2 have2
   ++ lc_chk_calls lock_check v1)
  ++ map lock_call_of new
  ++ lc_chk_calls lock_check v2
  ++ dec_refc_calls (negb is_managed
                     && (truthy u1 && (negb is_managed && negb (truthy have1))))
                    (p1 v0)
  ++ dec_refc_calls (negb is_managed
                     && (truthy u2 && (negb is_managed && negb (truthy have2))))
                    (p2 v0).

(** The processes are bound in identifier order: the one with the lower
    identifier is [p1], the other [p2]; for equal identifiers (or an absent
    first process) there is only [p1]. *)
Definition bound_in_order (procs : proc_ptr -> Process)
    (a_proc : option proc_ptr) (b_proc : proc_ptr) (v : safelock_vars) : Prop :=
  match a_proc with
  | None => p1 v = Some b_proc /\ p2 v = None
  | Some a =>
      if decide (common_id (procs a) = common_id (procs b_proc))
      then p1 v = Some a /\ p2 v = None
      else if decide (common_id (procs a) < common_id (procs b_proc))
      then p1 v = Some a /\ p2 v = Some b_proc
      else p1 v = Some b_proc /\ p2 v = Some a
  end.

(** The unlock mask as the spec words it: all locks strictly below the
    lowest lock that either process still needs. *)
Definition spec_unlock_mask (need1 need2 : ErtsProcLocks) : ErtsProcLocks :=
  Z.land ERTS_PROC_LOCKS_ALL (below_lowest (Z.lor need1 need2)).

(** A process store for examples: the identifier of a process is its
    address, no process is exiting, and every lock is as
    [erts_proc_lock_init] leaves it. *)
Definition example_procs : proc_ptr -> Process :=
  fun p => mk_proc (Z.of_nat p) false 0 erts_proc_lock_init.

(** The unlock call that the unlock phase makes on process [p] for the
    locks [u]: none when [u] is empty. *)
Definition unlock_call_for (p : option proc_ptr) (u : ErtsProcLocks)
    : list (proc_ptr * ErtsProcLocks) :=
  match p with
  | Some q => if truthy u then [(q, u)] else []
  | None => []
  end.

(** ** Wait queues as lists

    The abstract view of the state under the pix lock: each wait queue is
    the list of its waiters, first in first.  The operations below follow
    the spec's description of try-acquire-and-enqueue and of the transfer;
    the pointer structure of the source is related to them by
    [represents]. *)

Record astate : Type := mk_astate {
  a_flags : Z;
  a_queue : nat -> list tse_ptr;
  a_uflgs : tse_ptr -> ErtsProcLocks;
  a_uaflgs : tse_ptr -> Z;
  a_events : list event
}.

Definition a_set_flags (f : Z) (e : event) (a : astate) : astate :=
  mk_astate f (a_queue a) (a_uflgs a) (a_uaflgs a) (a_events a ++ [e]).

(** Atomic or / and on the flag word, with the event it leaves. *)
Definition a_bor (mask : Z) (a : astate) : astate :=
  a_set_flags (Z.lor (a_flags a) mask) (Ev_bor mask (a_flags a)) a.

Definition a_band (mask : Z) (a : astate) : astate :=
  a_set_flags (Z.land (a_flags a) mask) (Ev_band mask (a_flags a)) a.

(** Enqueue at the tail. *)
Definition a_enqueue (ix : nat) (wtr : tse_ptr) (a : astate) : astate :=
  mk_astate (a_flags a) (<[ix := a_queue a ix ++ [wtr]]> (a_queue a))
            (a_uflgs a) (a_uaflgs a) (a_events a).

Definition a_set_queue (ix : nat) (l : list tse_ptr) (a : astate) : astate :=
  mk_astate (a_flags a) (<[ix := l]> (a_queue a))
            (a_uflgs a) (a_uaflgs a) (a_events a).

Definition a_set_uflgs (w : tse_ptr) (f : ErtsProcLocks) (a : astate) : astate :=
  mk_astate (a_flags a) (a_queue a) (<[w := f]> (a_uflgs a)) (a_uaflgs a) (a_events a).

Definition a_set_uaflgs (w : tse_ptr) (f : Z) (a : astate) : astate :=
  mk_astate (a_flags a) (a_queue a) (a_uflgs a) (<[w := f]> (a_uaflgs a)) (a_events a).

Definition a_emit (e : event) (a : astate) : astate :=
  mk_astate (a_flags a) (a_queue a) (a_uflgs a) (a_uaflgs a) (a_events a ++ [e]).

(** For each bit of [locks], in ascending order: if the queue is not empty,
    enqueue and stop; else set the held and the waiter bit, and if the held
    bit was already set, enqueue and stop; else take the waiter bit back
    off, record the lock as acquired and go on. *)
Fixpoint a_try_aquire_loop (lock_nos : list nat) (wtr : tse_ptr)
    (locks got_locks : ErtsProcLocks) (a : astate) : ErtsProcLocks * astate :=
  match lock_nos with
  | [] => (got_locks, a)
  | lock_no :: lock_nos =>
      let lock := wshl 1 (Z.of_nat lock_no) in
      if truthy (Z.land locks lock) then
        match a_queue a lock_no with
        | _ :: _ => (got_locks, a_enqueue lock_no wtr a)
        | [] =>
            let wflg := wshl lock ERTS_PROC_LOCK_WAITER_SHIFT in
            let old_lflgs := a_flags a in
            let a := a_bor (Z.lor wflg lock) a in
            if truthy (Z.land old_lflgs lock) then
              (got_locks, a_enqueue lock_no wtr a)
            else
              let got_locks := Z.lor got_locks lock in
              let a := a_band (wnot wflg) a in
              if got_locks =? locks then (got_locks, a)
              else a_try_aquire_loop lock_nos wtr locks got_locks a
        end
      else a_try_aquire_loop lock_nos wtr locks got_locks a
  end.

Definition a_try_aquire (wtr : tse_ptr) (a : astate) : astate :=
  let locks := a_uflgs a wtr in
  let '(got_locks, a) := a_try_aquire_loop all_lock_nos wtr locks 0 a in
  a_set_uflgs wtr (Z.land (a_uflgs a wtr) (wnot got_locks)) a.

(** The local variables of the transfer, with the wake list as a list
    (most recently added waiter first). *)
Record a_transfer_vars : Type := mk_atvars {
  a_transferred : Z;
  a_wake : list tse_ptr;
  a_unset_waiter : ErtsProcLocks;
  a_tlocks : ErtsProcLocks
}.

(** For each bit of the locks to transfer, in ascending order: dequeue
    the head waiter, note the lock for waiter bit clearing if its queue is
    now empty, clear the lock from the waiter's needed locks; if it needs
    more, try-acquire-and-enqueue it; if it needs nothing more, put it on
    the wake list.  [None]: a queue to dequeue from was empty. *)
Fixpoint a_transfer_loop (lock_check : bool) (lock_nos : list nat)
    (v : a_transfer_vars) (a : astate) : option (a_transfer_vars * astate) :=
  match lock_nos with
  | [] => Some (v, a)
  | lock_no :: lock_nos =>
      if truthy (a_tlocks v) then
        let lock := wshl 1 (Z.of_nat lock_no) in
        if truthy (Z.land (a_tlocks v) lock) then
          let tl := if lock_check then Z.land (a_tlocks v) (wnot lock) else a_tlocks v in
          match a_queue a lock_no with
          | [] => None
          | wtr :: rest =>
              let a := a_set_queue lock_no rest a in
              let unset := match rest with
                           | [] => Z.lor (a_unset_waiter v) lock
                           | _ :: _ => a_unset_waiter v
                           end in
              let a := a_set_uflgs wtr (Z.land (a_uflgs a wtr) (wnot lock)) a in
              let a := if truthy (a_uflgs a wtr) then a_try_aquire wtr a else a in
              if negb (truthy (a_uflgs a wtr)) then
                a_transfer_loop lock_check lock_nos
                  (mk_atvars (a_transferred v + 1) (wtr :: a_wake v) unset tl) a
              else
                a_transfer_loop lock_check lock_nos
                  (mk_atvars (a_transferred v + 1) (a_wake v) unset tl) a
          end
        else a_transfer_loop lock_check lock_nos v a
      else Some (v, a)
  end.

(** Waking the waiters of the wake list, in list order. *)
Fixpoint a_wake_all (l : list tse_ptr) (a : astate) : astate :=
  match l with
  | [] => a
  | w :: l => a_wake_all l (a_emit (Ev_wake w) (a_set_uaflgs w 0 a))
  end.

Definition a_transfer_locks (lock_check : bool) (trnsfr_lcks : ErtsProcLocks)
    (unlock : bool) (a : astate) : option (Z * list tse_ptr * astate) :=
  match a_transfer_loop lock_check all_lock_nos (mk_atvars 0 [] 0 trnsfr_lcks) a with
  | None => None
  | Some (v, a) =>
      let a := if truthy (a_unset_waiter v)
               then a_band (wnot (wshl (a_unset_waiter v) ERTS_PROC_LOCK_WAITER_SHIFT)) a
               else a in
      let a := match a_wake v with
               | [] => if unlock then a_emit Ev_pix_unlock a else a
               | _ :: _ =>
                   let a := a_emit Ev_pix_unlock a in
                   let a := a_wake_all (a_wake v) a in
                   if negb unlock then a_emit Ev_pix_lock a else a
               end in
      Some (a_transferred v, a_wake v, a)
  end.

(** ** The pointer structure of a wait queue *)

(** [wtr->next = n] and [wtr->prev = p] on the store of waiters. *)
Definition upd_next (w : tse_ptr) (n : option tse_ptr)
    (t : tse_ptr -> erts_tse_t) : tse_ptr -> erts_tse_t :=
  <[w := mk_tse (uflgs (t w)) (uaflgs (t w)) n (prev (t w))]> t.

Definition upd_prev (w : tse_ptr) (p : option tse_ptr)
    (t : tse_ptr -> erts_tse_t) : tse_ptr -> erts_tse_t :=
  <[w := mk_tse (uflgs (t w)) (uaflgs (t w)) (next (t w)) p]> t.

(** [x] and [y] are neighbours: [x->next == y] and [y->prev == x]. *)
Definition link (t : tse_ptr -> erts_tse_t) (x y : tse_ptr) : Prop :=
  next (t x) = Some y /\ prev (t y) = Some x.

(** Following [next] from [x] visits the waiters of [l] in order, and
    [prev] leads back the same way. *)
Fixpoint path (t : tse_ptr -> erts_tse_t) (x : tse_ptr) (l : list tse_ptr) : Prop :=
  match l with
  | [] => True
  | y :: l => link t x y /\ path t y l
  end.

(** [ring t head l]: the queue entered at [head] is the circular doubly
    linked list of the waiters [l], first waiter first ([head] is the first
    and [head->prev] the last); an empty queue has a NULL head. *)
Definition ring (t : tse_ptr -> erts_tse_t) (head : option tse_ptr)
    (l : list tse_ptr) : Prop :=
  match l with
  | [] => head = None
  | x :: l' => head = Some x /\ path t x l' /\ link t (List.last l' x) x
  end.

(** Waiter [w] is on one of the queues. *)
Definition queued (qs : nat -> list tse_ptr) (w : tse_ptr) : Prop :=
  exists ix, (ix <= ERTS_PROC_LOCK_MAX_BIT)%nat /\ w ∈ qs ix.

(** No waiter is queued twice, on one queue or on two queues. *)
Definition disjoint_queues (qs : nat -> list tse_ptr) : Prop :=
  (forall ix, (ix <= ERTS_PROC_LOCK_MAX_BIT)%nat -> NoDup (qs ix)) /\
  (forall i j w, (i <= ERTS_PROC_LOCK_MAX_BIT)%nat -> (j <= ERTS_PROC_LOCK_MAX_BIT)%nat ->
     i <> j -> w ∈ qs i -> w ∉ qs j).

(** The lock state [s] has the wait queues [qs]: every queue is a ring of
    its list of waiters, and no waiter is queued twice. *)
Definition represents (s : lstate) (qs : nat -> list tse_ptr) : Prop :=
  (forall ix, (ix <= ERTS_PROC_LOCK_MAX_BIT)%nat ->
     ring (tse s) (queue (lck s) ix) (qs ix)) /\
  disjoint_queues qs.

(** The abstract view of a lock state whose queues are [qs]. *)
Definition abs_of (s : lstate) (qs : nat -> list tse_ptr) : astate :=
  mk_astate (flags (lck s)) qs (fun w => uflgs (tse s w))
            (fun w => uaflgs (tse s w)) (events s).

(** The lock state [s] is a concrete form of the abstract state [a]. *)
Definition refines (s : lstate) (a : astate) : Prop :=
  flags (lck s) = a_flags a /\
  events s = a_events a /\
  (forall w, uflgs (tse s w) = a_uflgs a w) /\
  (forall w, uaflgs (tse s w) = a_uaflgs a w) /\
  represents s (a_queue a).

(** The wake list of [transfer_locks]: the waiters [l], linked through
    their [next] fields and ended by NULL, entered at [wake]. *)
Fixpoint wake_rep (t : tse_ptr -> erts_tse_t) (wake : option tse_ptr)
    (l : list tse_ptr) : Prop :=
  match l with
  | [] => wake = None
  | x :: l' => wake = Some x /\ wake_rep t (next (t x)) l'
  end.

(** ** What try_aquire is to achieve

    Lock [b] is needed and cannot be taken: its queue has waiters, or the
    lock is held. *)
Definition blocked (a : astate) (locks : ErtsProcLocks) (b : nat) : bool :=
  bit locks b && (negb (bool_decide (a_queue a b = [])) || bit (a_flags a) b).

(** The first lock, in lock order, that is needed and cannot be taken. *)
Definition first_blocked (a : astate) (locks : ErtsProcLocks) : option nat :=
  List.find (blocked a locks) all_lock_nos.

(** Taking a free lock whose queue is empty: the held bit is set together
    with the waiter bit, and the waiter bit is cleared again at once. *)
Definition acquire_bit (b : nat) (a : astate) : astate :=
  let lock := wshl 1 (Z.of_nat b) in
  let wflg := wshl lock ERTS_PROC_LOCK_WAITER_SHIFT in
  a_band (wnot wflg) (a_bor (Z.lor wflg lock) a).

Definition acquire_bits (bits : list nat) (a : astate) : astate :=
  fold_left (fun a b => acquire_bit b a) bits a.

(** The needed locks with numbers from [j] up to but not including [k],
    ascending. *)
Definition needed_between (locks : ErtsProcLocks) (j k : nat) : list nat :=
  filter (fun b => bit locks b = true) (seq j (k - j)).

(** Stopping at lock [k]: the waiter bit is set (with the held bit, which
    is set already) if the queue is still empty, and the waiter goes to the
    tail of the queue. *)
Definition block_at (k : nat) (wtr : tse_ptr) (a : astate) : astate :=
  let lock := wshl 1 (Z.of_nat k) in
  let wflg := wshl lock ERTS_PROC_LOCK_WAITER_SHIFT in
  a_enqueue k wtr
    (match a_queue a k with
     | [] => a_bor (Z.lor wflg lock) a
     | _ :: _ => a
     end).

(** The state that [try_aquire] is to leave behind for waiter [wtr]: all
    needed locks below the first blocked one are taken, the waiter is
    queued on the first blocked one (if there is one), and its needed locks
    are reduced by the locks taken. *)
Definition try_aquire_result (wtr : tse_ptr) (a : astate) : astate :=
  let locks := a_uflgs a wtr in
  match first_blocked a locks with
  | Some k =>
      a_set_uflgs wtr (Z.land locks (wnot (Z.land locks (Z.ones (Z.of_nat k)))))
        (block_at k wtr (acquire_bits (needed_between locks 0 k) a))
  | None =>
      a_set_uflgs wtr
        (Z.land locks
           (wnot (Z.land locks (Z.ones (Z.of_nat (S ERTS_PROC_LOCK_MAX_BIT))))))
        (acquire_bits (needed_between locks 0 (S ERTS_PROC_LOCK_MAX_BIT)) a)
  end.

(** ** Invariants of the lock state *)

(** Queue/waiter parity on all locks outside [except]: the queue of a
    lock has waiters iff the wait flag of the lock is set. *)
Definition parity_except (except : ErtsProcLocks) (a : astate) : Prop :=
  forall b, (b <= ERTS_PROC_LOCK_MAX_BIT)%nat -> bit except b = false ->
    (wait_bit (a_flags a) b = true <-> a_queue a b <> []).

Definition parity (a : astate) : Prop := parity_except 0 a.

(** Every queued waiter waits on the lowest lock it still needs, and
    needs process locks only. *)
Definition waits_on_lowest (a : astate) : Prop :=
  forall b w, (b <= ERTS_PROC_LOCK_MAX_BIT)%nat -> w ∈ a_queue a b ->
    is_locks (a_uflgs a w) /\
    bit (a_uflgs a w) b = true /\
    (forall j, (j < b)%nat -> bit (a_uflgs a w) j = false).

(** Queue/waiter parity on the lock state itself: [queue[b]] is non-NULL
    iff wait flag [b] is set. *)
Definition queue_waiter_parity (l : erts_proc_lock_t) : Prop :=
  forall b, (b <= ERTS_PROC_LOCK_MAX_BIT)%nat ->
    (queue l b <> None <-> wait_bit (flags l) b = true).

Definition queue_waiter_parityb (l : erts_proc_lock_t) : bool :=
  forallb (fun b => bool_decide (is_Some (queue l b) <-> wait_bit (flags l) b = true))
          all_lock_nos.

(** ** Draining a queue

    [dequeue_waiter] called [n] times in a row on queue [ix], collecting
    the waiters it returns, first one first. *)
Fixpoint dequeue_n (ix : nat) (n : nat) : M (list tse_ptr) :=
  match n with
  | O => mret []
  | S n => w ← dequeue_waiter ix; l ← dequeue_n ix n; mret (w :: l)
  end.

(** A lock state with no lock held and no waiter, over a store of unused
    waiters; the queues of a lock state without waiters. *)
Definition unused_tse : tse_ptr -> erts_tse_t := fun _ => mk_tse 0 0 None None.

Definition idle_lstate : lstate := mk_lstate (mk_lock 0 (fun _ => None)) unused_tse [].

Definition no_waiters : nat -> list tse_ptr := fun _ => [].

(** The locks that [try_aquire] takes for a waiter that needs [locks]:
    the needed locks below the first blocked one. *)
Definition taken_locks (a : astate) (locks : ErtsProcLocks) : ErtsProcLocks :=
  Z.land locks
    (Z.ones (Z.of_nat (default (S ERTS_PROC_LOCK_MAX_BIT) (first_blocked a locks)))).

(** ** The flag word along a sequence of events *)

(** The flag word that the atomic operations of [evs] leave, starting
    from [f]; [None] if an operation did not find the value that its
    predecessor left. *)
Fixpoint run_events (f : Z) (evs : list event) : option Z :=
  match evs with
  | [] => Some f
  | Ev_bor mask old :: evs =>
      if old =? f then run_events (Z.lor f mask) evs else None
  | Ev_band mask old :: evs =>
      if old =? f then run_events (Z.land f mask) evs else None
  | _ :: evs => run_events f evs
  end.

(** An atomic operation that cannot clear a lock bit: an or, or an and
    whose mask has all lock bits. *)
Definition keeps_locks (e : event) : bool :=
  match e with
  | Ev_band mask _ => Z.land mask ERTS_PROC_LOCKS_ALL =? ERTS_PROC_LOCKS_ALL
  | _ => true
  end.

(** An atomic operation on the flag word. *)
Definition is_flag_op (e : event) : bool :=
  match e with
  | Ev_bor _ _ | Ev_band _ _ => true
  | _ => false
  end.

(** The list-view state [a'] comes from [a] by atomic operations on the
    flag word none of which can clear a lock bit, each finding what its
    predecessor left. *)
Definition flags_step (a a' : astate) : Prop :=
  exists evs,
    a_events a' = a_events a ++ evs /\
    forallb is_flag_op evs = true /\
    forallb keeps_locks evs = true /\
    run_events (a_flags a) evs = Some (a_flags a').

(** The events that end [transfer_locks], after the flag word has got its
    final value: the pix lock is released if there are waiters to wake or
    the caller wants it released; the waiters of the wake list are woken in
    list order; and the pix lock is taken again if the caller wants to keep
    it. *)
Definition pix_part (unlock : bool) (wk : list tse_ptr) : list event :=
  match wk with
  | [] => if unlock then [Ev_pix_unlock] else []
  | _ :: _ =>
      Ev_pix_unlock :: (Ev_wake <$> wk) ++ (if unlock then [] else [Ev_pix_lock])
  end.

(** A lock state without waiters in which lock 2 is held, over a store in
    which waiter 7 needs the locks 0 and 2. *)
Definition busy_lstate : lstate :=
  mk_lstate (mk_lock 4 (fun _ => None))
            (<[7%nat := mk_tse 5 0 None None]> unused_tse) [].

(** The transfer loop in both views: the list view [a], [av] of the lock
    state [s] and the loop variables [v], with the wake list a chain of
    waiters that are on no queue. *)
Definition transfer_inv (s : lstate) (v : transfer_vars)
    (a : astate) (av : a_transfer_vars) : Prop :=
  refines s a /\
  transferred v = a_transferred av /\
  unset_waiter v = a_unset_waiter av /\
  tlocks v = a_tlocks av /\
  wake_rep (tse s) (wake v) (a_wake av) /\
  (forall z, z ∈ a_wake av -> ~ queued (a_queue a) z).

(** ** One round of the transfer loop on the list view *)

(** Lock [lock_no] goes to the first waiter [wtr] of its queue: the waiter
    leaves the queue, the lock leaves its needed locks, and if it needs
    more, it tries to take them. *)
Definition a_handoff (lock_no : nat) (wtr : tse_ptr) (rest : list tse_ptr)
    (a : astate) : astate :=
  let lock := wshl 1 (Z.of_nat lock_no) in
  let a := a_set_queue lock_no rest a in
  let a := a_set_uflgs wtr (Z.land (a_uflgs a wtr) (wnot lock)) a in
  if truthy (a_uflgs a wtr) then a_try_aquire wtr a else a.

(** The loop variables after that round; [a'] is the state after it. *)
Definition a_transfer_next (lock_check : bool) (lock_no : nat) (wtr : tse_ptr)
    (rest : list tse_ptr) (v : a_transfer_vars) (a' : astate) : a_transfer_vars :=
  let lock := wshl 1 (Z.of_nat lock_no) in
  mk_atvars (a_transferred v + 1)
    (if negb (truthy (a_uflgs a' wtr)) then wtr :: a_wake v else a_wake v)
    (match rest with
     | [] => Z.lor (a_unset_waiter v) lock
     | _ :: _ => a_unset_waiter v
     end)
    (if lock_check then Z.land (a_tlocks v) (wnot lock) else a_tlocks v).

(** What holds of the list view when the transfer loop is about to look
    at lock [j], with [tl] the locks still to transfer and [unset] the
    locks whose queues it has drained: no waiter is queued twice, every
    queued waiter waits on the lowest lock it needs, queue/waiter parity
    holds outside [unset], the queues of [unset] are empty, and every lock
    still to transfer has a waiter. *)
Definition transfer_wf (j : nat) (tl unset : ErtsProcLocks) (a : astate) : Prop :=
  disjoint_queues (a_queue a) /\
  waits_on_lowest a /\
  parity_except unset a /\
  (forall b, bit unset b = true -> (b < j)%nat /\ a_queue a b = []) /\
  (forall b, (j <= b <= ERTS_PROC_LOCK_MAX_BIT)%nat -> bit tl b = true ->
     a_queue a b <> []).

(** A lock state in which the locks 0 and 2 are held and waiter 7 is
    queued on lock 2, which it still needs; the queues of that state. *)
Definition waiting_lstate : lstate :=
  mk_lstate (mk_lock 133 (<[2%nat := Some 7%nat]> (fun _ => None)))
            (<[7%nat := mk_tse 4 0 (Some 7%nat) (Some 7%nat)]> unused_tse) [].

Definition waiting_queues : nat -> list tse_ptr := <[2%nat := [7%nat]]> no_waiters.

(** Accounting for the waiters during a transfer that started with the
    queues [qs0]: the waiters of the wake list need no more locks and are
    on no queue; every waiter that was queued at the start is still queued
    or on the wake list; and no waiter is queued that was not queued at the
    start. *)
Definition transfer_acct (qs0 : nat -> list tse_ptr) (v : a_transfer_vars)
    (a : astate) : Prop :=
  (forall w, w ∈ a_wake v ->
     a_uflgs a w = 0 /\ ~ queued (a_queue a) w /\ queued qs0 w) /\
  (forall w, queued qs0 w -> queued (a_queue a) w \/ w ∈ a_wake v) /\
  (forall w, queued (a_queue a) w -> queued qs0 w).

(* ===================================================================== *)
(** * Part II.  Properties                                                *)
(* ===================================================================== *)

(** ** Bit-level facts about 32-bit words *)

Lemma two_p_word_bits : 2 ^ word_bits = 4294967296.
Proof. reflexivity. Qed.

Lemma wrap_land (z : Z) : wrap z = Z.land z (Z.ones word_bits).
Proof. unfold wrap. rewrite Z.land_ones; [done | done]. Qed.

Lemma wrap_is_word (z : Z) : is_word (wrap z).
Proof. unfold is_word, wrap. apply Z.mod_pos_bound. done. Qed.

Lemma wrap_small (z : Z) : is_word z -> wrap z = z.
Proof. intros H. unfold wrap. apply Z.mod_small. exact H. Qed.

Lemma testbit_wrap (z i : Z) :
  Z.testbit (wrap z) i = Z.testbit z i && (i <? word_bits).
Proof.
  rewrite wrap_land, Z.land_spec.
  destruct (Z.ltb_spec i 0) as [Hi | Hi].
  - rewrite !Z.testbit_neg_r by lia. done.
  - rewrite Z.testbit_ones_nonneg by (unfold word_bits; lia). done.
Qed.

Lemma is_word_testbit_high (z i : Z) :
  is_word z -> word_bits <= i -> Z.testbit z i = false.
Proof.
  intros Hz Hi. rewrite <- (wrap_small z Hz), testbit_wrap.
  destruct (Z.ltb_spec i word_bits); [lia |]. apply andb_false_r.
Qed.

Lemma is_word_bits (z : Z) :
  0 <= z -> (forall i, word_bits <= i -> Z.testbit z i = false) -> is_word z.
Proof.
  intros Hz H. assert (wrap z = z) as <-; [| apply wrap_is_word].
  apply Z.bits_inj'. intros i Hi. rewrite testbit_wrap.
  destruct (Z.ltb_spec i word_bits).
  - apply andb_true_r.
  - rewrite H by lia. done.
Qed.

Lemma testbit_wnot (x i : Z) :
  0 <= i -> Z.testbit (wnot x) i = negb (Z.testbit x i) && (i <? word_bits).
Proof. intros Hi. unfold wnot. rewrite testbit_wrap, Z.lnot_spec by lia. done. Qed.

Lemma land_wnot (a x : Z) : is_word a -> Z.land a (wnot x) = Z.ldiff a x.
Proof.
  intros Ha. apply Z.bits_inj'. intros i Hi.
  rewrite Z.land_spec, Z.ldiff_spec, testbit_wnot by lia.
  destruct (Z.ltb_spec i word_bits).
  - by rewrite andb_true_r.
  - rewrite (is_word_testbit_high a i) by (done || lia). done.
Qed.

(** The lowest set bit of a positive number. *)

Lemma ctz_nonneg (p : positive) : 0 <= ctz p.
Proof. induction p; simpl; lia. Qed.

Lemma ctz_testbit (p : positive) : Z.testbit (Zpos p) (ctz p) = true.
Proof.
  induction p as [p IH | p IH |]; simpl ctz; try done.
  pose proof (ctz_nonneg p).
  change (Zpos p~0) with (2 * Zpos p). rewrite Z.testbit_even_succ by lia. done.
Qed.

Lemma ctz_lowest (p : positive) (j : Z) :
  0 <= j < ctz p -> Z.testbit (Zpos p) j = false.
Proof.
  revert j. induction p as [p IH | p IH |]; simpl ctz; intros j Hj; try lia.
  change (Zpos p~0) with (2 * Zpos p).
  destruct (decide (j = 0)) as [-> | Hne].
  - apply Z.testbit_even_0.
  - replace j with (Z.succ (j - 1)) by lia.
    rewrite Z.testbit_even_succ by lia. apply IH. lia.
Qed.

Lemma land_opp_pos (p : positive) : Z.land (Zpos p) (- Zpos p) = 2 ^ ctz p.
Proof.
  induction p as [p IH | p IH |]; simpl ctz; try done.
  - (* odd *)
    apply Z.bits_inj'. intros i Hi.
    rewrite Z.land_spec, Z.bits_opp by lia.
    replace (Z.pred (Zpos p~1)) with (2 * Zpos p) by lia.
    change (Zpos p~1) with (2 * Zpos p + 1).
    destruct (decide (i = 0)) as [-> | Hne].
    + rewrite Z.testbit_odd_0, Z.testbit_even_0. done.
    + replace i with (Z.succ (i - 1)) by lia.
      rewrite Z.testbit_odd_succ, Z.testbit_even_succ by lia.
      rewrite andb_negb_r. symmetry. apply Z.pow2_bits_false. lia.
  - (* even *)
    pose proof (ctz_nonneg p).
    change (Zpos p~0) with (2 * Zpos p).
    replace (- (2 * Zpos p)) with (2 * (- Zpos p)) by lia.
    rewrite Z.pow_succ_r by lia. rewrite <- IH.
    apply Z.bits_inj'. intros i Hi.
    destruct (decide (i = 0)) as [-> | Hne].
    + rewrite Z.land_spec, !Z.testbit_even_0. done.
    + replace i with (Z.succ (i - 1)) by lia.
      rewrite Z.land_spec, !Z.testbit_even_succ, Z.land_spec by lia. done.
Qed.

Lemma ctz_lt_word (p : positive) : is_word (Zpos p) -> ctz p < word_bits.
Proof.
  intros Hw. destruct (Z.lt_ge_cases (ctz p) word_bits) as [|Hge]; [done |].
  pose proof (ctz_testbit p) as Hb.
  rewrite is_word_testbit_high in Hb by done. done.
Qed.

(** [busy & -busy] isolates the lowest set bit, and subtracting one turns
    it into the mask of all bits strictly below. *)
Lemma lowest_busy_mask (busy : Z) :
  is_word busy -> wsub (Z.land busy (wneg busy)) 1 = below_lowest busy.
Proof.
  intros Hw. unfold below_lowest, lowest_set_bit.
  destruct busy as [| p | p].
  - reflexivity.
  - assert (Z.land (Zpos p) (wneg (Zpos p)) = 2 ^ ctz p) as ->.
    { rewrite <- land_opp_pos. apply Z.bits_inj'. intros i Hi.
      unfold wneg. rewrite !Z.land_spec, testbit_wrap.
      destruct (Z.ltb_spec i word_bits).
      - by rewrite andb_true_r.
      - rewrite (is_word_testbit_high (Zpos p)) by done. done. }
    pose proof (ctz_nonneg p). pose proof (ctz_lt_word p Hw).
    unfold wsub. rewrite wrap_small.
    + rewrite Z.ones_equiv. lia.
    + assert (0 < 2 ^ ctz p) by (apply Z.pow_pos_nonneg; lia).
      assert (2 ^ ctz p < 2 ^ word_bits) by (apply Z.pow_lt_mono_r; lia).
      unfold is_word. lia.
  - destruct Hw. lia.
Qed.

Lemma lowest_set_bit_None (m : Z) : 0 <= m -> lowest_set_bit m = None -> m = 0.
Proof. destruct m; simpl; intros; (done || lia). Qed.

Lemma lowest_set_bit_Some (m k : Z) :
  lowest_set_bit m = Some k ->
  0 <= k /\ Z.testbit m k = true /\ forall j, 0 <= j < k -> Z.testbit m j = false.
Proof.
  destruct m as [| p | p]; simpl; intros [= <-].
  split; [apply ctz_nonneg |]. split; [apply ctz_testbit |]. apply ctz_lowest.
Qed.

Lemma testbit_below_lowest (busy i : Z) :
  is_word busy -> 0 <= i < word_bits ->
  Z.testbit (below_lowest busy) i = true <->
  forall j, 0 <= j <= i -> Z.testbit busy j = false.
Proof.
  intros Hw Hi. unfold below_lowest.
  destruct (lowest_set_bit busy) as [k |] eqn:Hk.
  - destruct (lowest_set_bit_Some _ _ Hk) as (Hk0 & Hkb & Hlow).
    rewrite Z.testbit_ones_nonneg by lia. split.
    + intros Hlt%Z.ltb_lt j Hj. apply Hlow. lia.
    + intros H. apply Z.ltb_lt.
      destruct (Z.lt_ge_cases i k) as [|Hge]; [done |].
      rewrite H in Hkb by lia. done.
  - apply lowest_set_bit_None in Hk; [| apply Hw]. subst busy.
    rewrite Z.testbit_ones_nonneg by (unfold word_bits; lia). split.
    + intros _ j _. apply Z.bits_0.
    + intros _. apply Z.ltb_lt. lia.
Qed.

Lemma land_is_word_l (a b : Z) : is_word a -> 0 <= b -> is_word (Z.land a b).
Proof.
  intros Ha Hb. apply is_word_bits.
  - apply Z.land_nonneg. left. apply Ha.
  - intros i Hi. rewrite Z.land_spec, (is_word_testbit_high a) by done. done.
Qed.

Lemma in_order_locks_below (in_use need_locks : ErtsProcLocks) :
  is_word in_use -> is_word need_locks ->
  in_order_locks in_use need_locks =
  Z.land need_locks (below_lowest (Z.land in_use need_locks)).
Proof.
  intros Hu Hn. unfold in_order_locks.
  rewrite lowest_busy_mask; [done |].
  apply land_is_word_l; [done | apply Hn].
Qed.

Lemma in_order_locks_testbit (in_use need_locks : ErtsProcLocks) (i : Z) :
  is_word in_use -> is_word need_locks -> 0 <= i ->
  Z.testbit (in_order_locks in_use need_locks) i = true <->
  Z.testbit need_locks i = true /\ Z.testbit in_use i = false /\
  forall j, 0 <= j <= i ->
    ~ (Z.testbit need_locks j = true /\ Z.testbit in_use j = true).
Proof.
  intros Hu Hn Hi.
  assert (is_word (Z.land in_use need_locks)) as Hb
    by (apply land_is_word_l; [done | apply Hn]).
  rewrite in_order_locks_below, Z.land_spec, andb_true_iff by done.
  destruct (Z.lt_ge_cases i word_bits) as [Hlt | Hge].
  - rewrite testbit_below_lowest by (done || lia). split.
    + intros [Hni Hlow]. split; [done |].
      pose proof (Hlow i ltac:(lia)) as Hbi.
      rewrite Z.land_spec, Hni, andb_true_r in Hbi. split; [done |].
      intros j Hj [Hnj Huj]. specialize (Hlow j Hj).
      rewrite Z.land_spec, Hnj, Huj in Hlow. done.
    + intros (Hni & Hui & Hlow). split; [done |].
      intros j Hj. rewrite Z.land_spec.
      destruct (Z.testbit in_use j) eqn:Huj, (Z.testbit need_locks j) eqn:Hnj;
        try done.
      exfalso. by apply (Hlow j Hj).
  - rewrite (is_word_testbit_high need_locks) by done. split.
    + intros [? _]. done.
    + intros [? _]. done.
Qed.

(** ** in_order_locks *)

Lemma in_order_locks_free (in_use need_locks : ErtsProcLocks) :
  is_word in_use -> is_word need_locks ->
  in_order_locks in_use need_locks = in_order_free in_use need_locks.
Proof.
  intros Hu Hn. rewrite in_order_locks_below by done. unfold in_order_free.
  rewrite (Z.land_comm need_locks in_use).
  assert (is_word (Z.land in_use need_locks)) as Hb
    by (apply land_is_word_l; [done | apply Hn]).
  apply Z.bits_inj'. intros i Hi. rewrite !Z.land_spec, testbit_wnot by done.
  destruct (Z.testbit need_locks i) eqn:Hni; [simpl | done].
  destruct (Z.testbit (below_lowest _) i) eqn:Hlow; [| by rewrite andb_false_r].
  assert (i < word_bits) as Hlt.
  { destruct (Z.lt_ge_cases i word_bits); [done |].
    rewrite is_word_testbit_high in Hni by done. done. }
  pose proof (proj1 (testbit_below_lowest _ i Hb ltac:(lia)) Hlow) as Hlow'.
  clear Hlow. rename Hlow' into Hlow.
  specialize (Hlow i ltac:(lia)). rewrite Z.land_spec, Hni, andb_true_r in Hlow.
  rewrite Hlow. simpl. symmetry. rewrite andb_true_r. apply Z.ltb_lt. done.
Qed.

Lemma in_order_locks_unneeded (in_use other need_locks : ErtsProcLocks) :
  Z.land other need_locks = 0 ->
  in_order_locks (Z.lor in_use other) need_locks = in_order_locks in_use need_locks.
Proof.
  intros H. unfold in_order_locks.
  rewrite Z.land_lor_distr_l, H, Z.lor_0_r. done.
Qed.

Lemma in_order_locks_none_busy (in_use need_locks : ErtsProcLocks) :
  is_word need_locks -> Z.land need_locks in_use = 0 ->
  in_order_locks in_use need_locks = need_locks.
Proof.
  intros Hn H. unfold in_order_locks. rewrite Z.land_comm in H. rewrite H.
  change (wsub (Z.land 0 (wneg 0)) 1) with (Z.ones word_bits).
  rewrite <- wrap_land. by apply wrap_small.
Qed.

(** C3: for all lock masks, [in_order_locks in_use need_locks] is
    [need_locks] intersected with the complement of [in_use] and with the
    set of bits strictly below the lowest bit of [need_locks ∩ in_use]
    (stated both against the spec's [in_order_free] and bit by bit); a lock
    that is in use but not needed imposes no constraint; and when no needed
    lock is in use the whole of [need_locks] is returned. *)
Theorem in_order_locks_spec (in_use need_locks : ErtsProcLocks) :
  is_word in_use -> is_word need_locks ->
  in_order_locks in_use need_locks = in_order_free in_use need_locks
  /\ (forall i, 0 <= i ->
        Z.testbit (in_order_locks in_use need_locks) i = true <->
        Z.testbit need_locks i = true /\ Z.testbit in_use i = false /\
        forall j, 0 <= j <= i ->
          ~ (Z.testbit need_locks j = true /\ Z.testbit in_use j = true))
  /\ (forall other, Z.land other need_locks = 0 ->
        in_order_locks (Z.lor in_use other) need_locks =
        in_order_locks in_use need_locks)
  /\ (Z.land need_locks in_use = 0 ->
        in_order_locks in_use need_locks = need_locks).
Proof.
  intros Hu Hn. split; [by apply in_order_locks_free |].
  split; [intros i Hi; by apply in_order_locks_testbit |].
  split; [intros other Ho; by apply in_order_locks_unneeded |].
  by apply in_order_locks_none_busy.
Qed.

(** The example of the source comment: wanting 10111 while 00100 is in use
    yields 00011; and a lock in use that is not wanted (00010 against
    00101) does not hold back the higher lock. *)
Lemma in_order_locks_spec_witness :
  in_order_locks 4 23 = in_order_free 4 23 /\ in_order_locks 4 23 = 3 /\
  in_order_locks (Z.lor 0 2) 5 = 5.
Proof.
  assert (is_word 4) as H4 by (unfold is_word, word_bits; lia).
  assert (is_word 23) as H23 by (unfold is_word, word_bits; lia).
  assert (is_word 0) as H0 by (unfold is_word, word_bits; lia).
  assert (is_word 5) as H5 by (unfold is_word, word_bits; lia).
  split; [exact (proj1 (in_order_locks_spec 4 23 H4 H23)) |].
  split; [reflexivity |].
  rewrite (proj1 (proj2 (proj2 (in_order_locks_spec 0 5 H0 H5))) 2 eq_refl).
  exact (proj2 (proj2 (proj2 (in_order_locks_spec 0 5 H0 H5))) eq_refl).
Defined.

(** ** Lock bits *)

Lemma max_bit_small : Z.of_nat ERTS_PROC_LOCK_MAX_BIT + 1 + ERTS_PROC_LOCK_WAITER_SHIFT <= word_bits.
Proof. vm_compute. discriminate. Qed.

Lemma waiter_shift_eq : ERTS_PROC_LOCK_WAITER_SHIFT = Z.of_nat (S ERTS_PROC_LOCK_MAX_BIT).
Proof. reflexivity. Qed.

Lemma wshl_1 (n : Z) : 0 <= n < word_bits -> wshl 1 n = 2 ^ n.
Proof.
  intros Hn. unfold wshl. rewrite Z.shiftl_1_l. apply wrap_small.
  unfold is_word. split; [apply Z.pow_nonneg; lia |].
  apply Z.pow_lt_mono_r; lia.
Qed.

Lemma bit_lock (n i : nat) :
  Z.of_nat n < word_bits -> bit (wshl 1 (Z.of_nat n)) i = bool_decide (n = i).
Proof.
  intros Hn. unfold bit. rewrite wshl_1 by lia.
  rewrite Z.pow2_bits_eqb by lia.
  destruct (Z.eqb_spec (Z.of_nat n) (Z.of_nat i)) as [He | Hne].
  - rewrite bool_decide_eq_true_2; [done | lia].
  - rewrite bool_decide_eq_false_2; [done | lia].
Qed.

Lemma truthy_testbit (m n : Z) : 0 <= n -> truthy (Z.land m (2 ^ n)) = Z.testbit m n.
Proof.
  intros Hn. unfold truthy. destruct (Z.testbit m n) eqn:Hb.
  - apply negb_true_iff, Z.eqb_neq. intros H0.
    assert (Z.testbit (Z.land m (2 ^ n)) n = true) as Hc
      by (rewrite Z.land_spec, Hb, Z.pow2_bits_true; done).
    rewrite H0, Z.bits_0 in Hc. done.
  - apply negb_false_iff, Z.eqb_eq. apply Z.bits_inj'. intros i Hi.
    rewrite Z.land_spec, Z.bits_0.
    destruct (decide (n = i)) as [<- | Hne].
    + rewrite Hb. done.
    + rewrite Z.pow2_bits_false by done. apply andb_false_r.
Qed.

Lemma truthy_land_lock (m : Z) (n : nat) :
  Z.of_nat n < word_bits -> truthy (Z.land m (wshl 1 (Z.of_nat n))) = bit m n.
Proof. intros Hn. rewrite wshl_1 by lia. apply truthy_testbit. lia. Qed.

Lemma truthy_land_lock' (m : Z) (n : nat) :
  Z.of_nat n < word_bits -> truthy (Z.land (wshl 1 (Z.of_nat n)) m) = bit m n.
Proof. intros Hn. rewrite Z.land_comm. by apply truthy_land_lock. Qed.

Lemma truthy_false (m : Z) : truthy m = false <-> m = 0.
Proof. unfold truthy. rewrite negb_false_iff. apply Z.eqb_eq. Qed.

Lemma truthy_true (m : Z) : truthy m = true <-> m <> 0.
Proof. unfold truthy. rewrite negb_true_iff. apply Z.eqb_neq. Qed.

(** Masks are compared bit by bit. *)
Lemma bit_ext (a b : Z) :
  0 <= a -> 0 <= b -> (forall i, bit a i = bit b i) -> a = b.
Proof.
  intros Ha Hb H. apply Z.bits_inj'. intros n Hn.
  specialize (H (Z.to_nat n)). unfold bit in H. rewrite Z2Nat.id in H by done. done.
Qed.

Lemma bit_0 (i : nat) : bit 0 i = false.
Proof. apply Z.bits_0. Qed.

Lemma bit_lor (a b : Z) (i : nat) : bit (Z.lor a b) i = bit a i || bit b i.
Proof. apply Z.lor_spec. Qed.

Lemma bit_land (a b : Z) (i : nat) : bit (Z.land a b) i = bit a i && bit b i.
Proof. apply Z.land_spec. Qed.

Lemma bit_ldiff (a b : Z) (i : nat) : bit (Z.ldiff a b) i = bit a i && negb (bit b i).
Proof. apply Z.ldiff_spec. Qed.

Lemma bit_wnot (a : Z) (i : nat) :
  bit (wnot a) i = negb (bit a i) && bool_decide (Z.of_nat i < word_bits).
Proof.
  unfold bit. rewrite testbit_wnot by lia. f_equal.
  destruct (Z.ltb_spec (Z.of_nat i) word_bits).
  - by rewrite bool_decide_eq_true_2.
  - rewrite bool_decide_eq_false_2; [done | lia].
Qed.

Lemma bit_high (a : Z) (i : nat) : is_word a -> word_bits <= Z.of_nat i -> bit a i = false.
Proof. intros. by apply is_word_testbit_high. Qed.

(** [a & ~b] on words. *)
Lemma bit_land_wnot (a b : Z) (i : nat) :
  is_word a -> bit (Z.land a (wnot b)) i = bit a i && negb (bit b i).
Proof. intros Ha. rewrite land_wnot by done. apply bit_ldiff. Qed.

Lemma locks_all_ones : ERTS_PROC_LOCKS_ALL = Z.ones (Z.of_nat (S ERTS_PROC_LOCK_MAX_BIT)).
Proof. reflexivity. Qed.

Lemma bit_locks_all (i : nat) :
  bit ERTS_PROC_LOCKS_ALL i = bool_decide (i <= ERTS_PROC_LOCK_MAX_BIT)%nat.
Proof.
  unfold bit. rewrite locks_all_ones, Z.testbit_ones_nonneg by lia.
  destruct (Z.ltb_spec (Z.of_nat i) (Z.of_nat (S ERTS_PROC_LOCK_MAX_BIT))).
  - rewrite bool_decide_eq_true_2; [done | lia].
  - rewrite bool_decide_eq_false_2; [done | lia].
Qed.

Lemma locks_all_word : is_word ERTS_PROC_LOCKS_ALL.
Proof. unfold is_word. vm_compute. split; [discriminate | reflexivity]. Qed.

Lemma is_locks_word (m : Z) : is_locks m -> is_word m.
Proof.
  intros Hm.
  assert (0 <= m) as Hnn.
  { rewrite <- Hm. apply Z.land_nonneg. right. apply locks_all_word. }
  rewrite <- Hm, Z.land_comm. apply land_is_word_l; [apply locks_all_word | done].
Qed.

Lemma is_locks_bit (m : Z) (i : nat) :
  is_locks m -> bit m i = true -> (i <= ERTS_PROC_LOCK_MAX_BIT)%nat.
Proof.
  intros Hm Hb. rewrite <- Hm, bit_land, bit_locks_all in Hb.
  apply andb_true_iff in Hb as [_ Hb]. by apply bool_decide_eq_true in Hb.
Qed.

Lemma is_locks_intro (m : Z) :
  0 <= m -> (forall i, bit m i = true -> (i <= ERTS_PROC_LOCK_MAX_BIT)%nat) -> is_locks m.
Proof.
  intros Hm H. unfold is_locks. apply bit_ext; [| done |].
  - apply Z.land_nonneg. by left.
  - intros i. rewrite bit_land, bit_locks_all.
    destruct (bit m i) eqn:Hb; [| done].
    rewrite bool_decide_eq_true_2; [done | by apply H].
Qed.

Lemma subset_locks_bit (a b : Z) (i : nat) :
  subset_locks a b -> bit a i = true -> bit b i = true.
Proof.
  intros Hs Ha. rewrite <- Hs, bit_land in Ha. by apply andb_true_iff in Ha as [? _].
Qed.

(** ** proc_safelock: the range of locks to unlock *)

Ltac nat_bools :=
  repeat match goal with
  | |- context [(?a <? ?b)%nat] => destruct (Nat.ltb_spec a b)
  | |- context [(?a <=? ?b)%nat] => destruct (Nat.leb_spec a b)
  | |- context [bool_decide ?P] => destruct (bool_decide_reflect P)
  end.

Lemma max_bit_word (k : nat) :
  (k <= S ERTS_PROC_LOCK_MAX_BIT)%nat -> Z.of_nat k < word_bits.
Proof. pose proof max_bit_small. rewrite waiter_shift_eq in *. lia. Qed.

Lemma unlock_range_spec (n : nat) :
  forall fuel k need1 need2 mask,
  (k + n = S ERTS_PROC_LOCK_MAX_BIT)%nat -> (n < fuel)%nat -> is_word mask ->
  exists mask' k',
    unlock_range fuel k need1 need2 mask = Ok (mask', k') /\
    (k <= k' <= S ERTS_PROC_LOCK_MAX_BIT)%nat /\
    (forall i, (k <= i < k')%nat -> bit need1 i = false /\ bit need2 i = false) /\
    ((k' <= ERTS_PROC_LOCK_MAX_BIT)%nat -> bit need1 k' = true \/ bit need2 k' = true) /\
    is_word mask' /\
    (forall i, bit mask' i =
       bit mask i && ((i <? k)%nat || (ERTS_PROC_LOCK_MAX_BIT <? i)%nat || (k' <? i)%nat
                      || (bool_decide (i = k') && bit need1 i))).
Proof.
  induction n as [| n IH]; intros fuel k need1 need2 mask Hk Hfuel Hmask;
    (destruct fuel as [| fuel]; [lia |]); cbn [unlock_range].
  - destruct (Nat.leb_spec k ERTS_PROC_LOCK_MAX_BIT); [lia |].
    exists mask, k. split_and!; try lia; try done.
    intros i. destruct (bit mask i); [simpl | done]. nat_bools; try done; lia.
  - destruct (Nat.leb_spec k ERTS_PROC_LOCK_MAX_BIT); [| lia].
    assert (Z.of_nat k < word_bits) as Hkw by (apply max_bit_word; lia).
    rewrite !truthy_land_lock' by done.
    destruct (bit need1 k) eqn:Hn1.
    { exists mask, k. split_and!; try lia; try done; [by left |].
      intros i. destruct (bit mask i); [simpl | done].
      nat_bools; subst; rewrite ?Hn1; try done; lia. }
    assert (is_word (Z.land mask (wnot (wshl 1 (Z.of_nat k))))) as Hmask1.
    { apply land_is_word_l; [done | apply wrap_is_word]. }
    assert (forall i, bit (Z.land mask (wnot (wshl 1 (Z.of_nat k)))) i =
                      bit mask i && negb (bool_decide (k = i))) as Hbits1.
    { intros i. rewrite bit_land_wnot, bit_lock by done. done. }
    destruct (bit need2 k) eqn:Hn2.
    { eexists _, k. split_and!; try lia; try done; [by right |].
      intros i. rewrite Hbits1. destruct (bit mask i); [simpl | done].
      nat_bools; subst; rewrite ?Hn1; try done; lia. }
    destruct (IH fuel (S k) need1 need2 _ ltac:(lia) ltac:(lia) Hmask1)
      as (mask' & k' & -> & Hk' & Hlow & Hhit & Hw' & Hbits).
    exists mask', k'. split_and!; try lia; try done.
    + intros i Hi. destruct (decide (i = k)) as [-> | Hne]; [done |]. apply Hlow. lia.
    + intros i. rewrite Hbits, Hbits1. destruct (bit mask i); [simpl | done].
      nat_bools; subst; rewrite ?Hn1; simpl; try done; lia.
Qed.

(** ** proc_safelock: the runs of the locking loop *)

Lemma lock_run1_spec (n : nat) :
  forall fuel k mask need2,
  (k + n = ERTS_PROC_LOCK_MAX_BIT)%nat -> (n < fuel)%nat -> 0 <= mask ->
  exists j mask',
    lock_run1 fuel k mask need2 = Ok (S j, mask', wshl 1 (Z.of_nat j)) /\
    (k <= j <= ERTS_PROC_LOCK_MAX_BIT)%nat /\
    (forall i, (k <= i < j)%nat -> bit need2 i = false) /\
    ((j < ERTS_PROC_LOCK_MAX_BIT)%nat -> bit need2 j = true) /\
    0 <= mask' /\
    (forall i, bit mask' i = bit mask i || ((k <=? i)%nat && (i <=? j)%nat)).
Proof.
  induction n as [| n IH]; intros fuel k mask need2 Hk Hfuel Hmask;
    (destruct fuel as [| fuel]; [lia |]); cbn [lock_run1].
  - destruct (Nat.leb_spec (S k) ERTS_PROC_LOCK_MAX_BIT); [lia |]. cbn [andb].
    assert (Z.of_nat k < word_bits) as Hkw by (apply max_bit_word; lia).
    eexists k, _. split_and!; try done; try lia.
    + apply Z.lor_nonneg. split; [done | apply wrap_is_word].
    + intros i. rewrite bit_lor, bit_lock by done. f_equal. nat_bools; try done; lia.
  - destruct (Nat.leb_spec (S k) ERTS_PROC_LOCK_MAX_BIT); [| lia]. cbn [andb].
    assert (Z.of_nat k < word_bits) as Hkw by (apply max_bit_word; lia).
    rewrite truthy_land_lock by done.
    destruct (bit need2 k) eqn:Hn2; cbn [negb].
    { eexists k, _. split_and!; try done; try lia.
      + apply Z.lor_nonneg. split; [done | apply wrap_is_word].
      + intros i. rewrite bit_lor, bit_lock by done. f_equal. nat_bools; try done; lia. }
    destruct (IH fuel (S k) (Z.lor mask (wshl 1 (Z.of_nat k))) need2
                ltac:(lia) ltac:(lia)) as (j & mask' & -> & Hj & Hlow & Hhit & Hnn & Hbits).
    { apply Z.lor_nonneg. split; [done | apply wrap_is_word]. }
    exists j, mask'. split_and!; try done; try lia.
    + intros i Hi. destruct (decide (i = k)) as [-> | Hne]; [done |]. apply Hlow. lia.
    + intros i. rewrite Hbits, bit_lor, bit_lock by done. rewrite <- orb_assoc. f_equal.
      nat_bools; try done; lia.
Qed.

Lemma lock_run2_spec (n : nat) :
  forall fuel k mask need1,
  (k + n = S ERTS_PROC_LOCK_MAX_BIT)%nat -> (n < fuel)%nat -> 0 <= mask ->
  exists j mask',
    lock_run2 fuel k mask (wshl 1 (Z.of_nat k)) need1 = Ok (j, mask') /\
    (k <= j <= S ERTS_PROC_LOCK_MAX_BIT)%nat /\
    (forall i, (k <= i < j)%nat -> bit need1 i = false) /\
    ((j <= ERTS_PROC_LOCK_MAX_BIT)%nat -> bit need1 j = true) /\
    0 <= mask' /\
    (forall i, bit mask' i = bit mask i || ((k <=? i)%nat && (i <? j)%nat)).
Proof.
  induction n as [| n IH]; intros fuel k mask need1 Hk Hfuel Hmask;
    (destruct fuel as [| fuel]; [lia |]); cbn [lock_run2].
  - destruct (Nat.leb_spec k ERTS_PROC_LOCK_MAX_BIT); [lia |]. cbn [andb].
    exists k, mask. split_and!; try done; try lia.
    intros i. destruct (bit mask i); [done | simpl]. nat_bools; try done; lia.
  - destruct (Nat.leb_spec k ERTS_PROC_LOCK_MAX_BIT); [| lia]. cbn [andb].
    assert (Z.of_nat k < word_bits) as Hkw by (apply max_bit_word; lia).
    rewrite truthy_land_lock by done.
    destruct (bit need1 k) eqn:Hn1; cbn [negb].
    { exists k, mask. split_and!; try done; try lia.
      intros i. destruct (bit mask i); [done | simpl]. nat_bools; try done; lia. }
    destruct (IH fuel (S k) (Z.lor mask (wshl 1 (Z.of_nat k))) need1
                ltac:(lia) ltac:(lia)) as (j & mask' & Hrun & Hj & Hlow & Hhit & Hnn & Hbits).
    { apply Z.lor_nonneg. split; [done | apply wrap_is_word]. }
    exists j, mask'. split_and!; try done; try lia.
    + intros i Hi. destruct (decide (i = k)) as [-> | Hne]; [done |]. apply Hlow. lia.
    + intros i. rewrite Hbits, bit_lor, bit_lock by done. rewrite <- orb_assoc. f_equal.
      nat_bools; try done; lia.
Qed.

(** ** proc_safelock: the locking loop *)

Lemma is_locks_0 : is_locks 0.
Proof. reflexivity. Qed.

Lemma is_locks_land (a b : Z) : is_locks a -> is_locks (Z.land a b).
Proof.
  intros Ha. unfold is_locks in *.
  rewrite <- Z.land_assoc, (Z.land_comm b), Z.land_assoc, Ha. done.
Qed.

Lemma is_locks_lor (a b : Z) : is_locks a -> is_locks b -> is_locks (Z.lor a b).
Proof. intros Ha Hb. unfold is_locks in *. rewrite Z.land_lor_distr_l, Ha, Hb. done. Qed.

Lemma is_locks_nonneg (a : Z) : is_locks a -> 0 <= a.
Proof. intros Ha. apply is_locks_word in Ha. apply Ha. Qed.

Lemma bit_true_nonzero (m : Z) (i : nat) : bit m i = true -> m <> 0.
Proof. intros Hb ->. rewrite bit_0 in Hb. done. Qed.

Lemma locks_exhausted (m : Z) :
  is_locks m ->
  (forall i, (i < S ERTS_PROC_LOCK_MAX_BIT)%nat -> bit m i = false) -> m = 0.
Proof.
  intros Hm Hlow. apply bit_ext; [by apply is_locks_nonneg | done |].
  intros i. rewrite bit_0. destruct (bit m i) eqn:Hb; [| done].
  pose proof (is_locks_bit _ _ Hm Hb). rewrite Hlow in Hb by lia. done.
Qed.

Lemma lor_take_part (have need locks : Z) :
  0 <= have -> is_locks need -> 0 <= locks ->
  (forall i, bit locks i = true -> bit need i = true) ->
  Z.lor (Z.lor have locks) (Z.land need (wnot locks)) = Z.lor have need.
Proof.
  intros Hh Hn Hl Hsub.
  pose proof (is_locks_nonneg _ Hn). pose proof (is_locks_word _ Hn).
  apply bit_ext.
  - repeat (apply Z.lor_nonneg; split); try done. apply Z.land_nonneg. by left.
  - apply Z.lor_nonneg. done.
  - intros i. rewrite !bit_lor, bit_land_wnot by done.
    specialize (Hsub i).
    destruct (bit have i), (bit locks i), (bit need i); try done.
    by specialize (Hsub eq_refl).
Qed.

Lemma safelock_fuel_enough (n : nat) :
  (n <= S ERTS_PROC_LOCK_MAX_BIT)%nat -> (n < safelock_fuel)%nat.
Proof. unfold safelock_fuel. lia. Qed.

Ltac vars_simpl :=
  cbn [p1 pid1 need_locks1 have_locks1 p2 pid2 need_locks2 have_locks2] in *.

Lemma lock_in_order_runs (n : nat) :
  forall fuel k v calls q1,
  (2 * (S ERTS_PROC_LOCK_MAX_BIT - k)
   + (if bit (need_locks1 v) k then 1 else 0) <= n)%nat ->
  (n < fuel)%nat ->
  (k <= S ERTS_PROC_LOCK_MAX_BIT)%nat ->
  p1 v = Some q1 ->
  (need_locks2 v <> 0 -> is_Some (p2 v)) ->
  is_locks (need_locks1 v) -> is_locks (need_locks2 v) ->
  0 <= have_locks1 v -> 0 <= have_locks2 v ->
  (forall i, (i < k)%nat -> bit (need_locks1 v) i = false /\ bit (need_locks2 v) i = false) ->
  exists new,
    lock_in_order fuel k v calls =
      Ok (mk_vars (p1 v) (pid1 v) 0 (Z.lor (have_locks1 v) (need_locks1 v))
                  (p2 v) (pid2 v) 0 (Z.lor (have_locks2 v) (need_locks2 v)),
          calls ++ map lock_call_of new) /\
    runs q1 (p2 v) k (need_locks1 v) (need_locks2 v) new.
Proof.
  induction n as [n IH] using lt_wf_ind.
  intros fuel k [q1o id1 need1 have1 q2o id2 need2 have2] calls q1
         Hn Hfuel Hk Hp1 Hp2 Hl1 Hl2 Hh1 Hh2 Hlow.
  cbn [p1 pid1 need_locks1 have_locks1 p2 pid2 need_locks2 have_locks2] in *.
  subst q1o.
  destruct fuel as [| fuel]; [lia |]. cbn [lock_in_order].
  cbn [p1 pid1 need_locks1 have_locks1 p2 pid2 need_locks2 have_locks2].
  destruct (Nat.leb_spec k ERTS_PROC_LOCK_MAX_BIT) as [Hle | Hgt].
  2: { (* past the last lock: both masks are exhausted *)
    assert (k = S ERTS_PROC_LOCK_MAX_BIT) as -> by lia.
    assert (need1 = 0) as -> by (apply locks_exhausted; [done |]; intros; by apply Hlow).
    assert (need2 = 0) as -> by (apply locks_exhausted; [done |]; intros; by apply Hlow).
    exists []. split; [| apply runs_done].
    rewrite app_nil_r, !Z.lor_0_r. done. }
  assert (Z.of_nat k < word_bits) as Hkw by (apply max_bit_word; lia).
  pose proof (is_locks_word _ Hl1) as Hw1. pose proof (is_locks_word _ Hl2) as Hw2.
  rewrite !truthy_land_lock by done.
  destruct (bit need1 k) eqn:Hn1.
  - (* a run of locks on p1 *)
    destruct (lock_run1_spec (ERTS_PROC_LOCK_MAX_BIT - k) safelock_fuel k 0 need2)
      as (j & mask & -> & Hj & Hrun & Hhit & Hmask & Hbits);
      [lia | apply safelock_fuel_enough; lia | done |].
    cbn [mbind result_bind deref].
    assert (Z.of_nat j < word_bits) as Hjw by (apply max_bit_word; lia).
    rewrite truthy_land_lock by done.
    set (locks := Z.land need1 mask).
    assert (0 <= locks) as Hlocks by (apply Z.land_nonneg; left; apply Hw1).
    assert (forall i, bit locks i = bit need1 i && ((k <=? i)%nat && (i <=? j)%nat))
      as Hlbits by (intros i; unfold locks; rewrite bit_land, Hbits, bit_0; done).
    cbn [Nat.pred].
    set (k' := if bit need2 j then j else S j).
    assert (k' = if bit need2 j then j else S j) as Hk' by done.
    edestruct (IH (n - 1)%nat ltac:(lia) fuel k'
      (mk_vars (Some q1) id1 (Z.land need1 (wnot locks)) (Z.lor have1 locks)
               q2o id2 need2 have2) (calls ++ [Call_lock q1 locks]) q1)
      as (new & Hnew & Hruns);
      cbn [p1 pid1 need_locks1 have_locks1 p2 pid2 need_locks2 have_locks2];
      try done.
    + (* the measure decreases *)
      destruct (bit (Z.land need1 (wnot locks)) k') eqn:Hb; [| destruct (bit need2 j); lia].
      rewrite bit_land_wnot, Hlbits in Hb by done.
      destruct (bit need2 j); subst k'; [| lia].
      destruct (decide (j = k)) as [-> | Hne]; [| lia].
      revert Hb. rewrite Hn1. nat_bools; try done; lia.
    + lia.
    + destruct (bit need2 j); lia.
    + by apply is_locks_land.
    + apply Z.lor_nonneg. done.
    + intros i Hi. rewrite bit_land_wnot, Hlbits by done.
      destruct (decide (i < k)%nat) as [Hik | Hik].
      { destruct (Hlow i Hik) as [-> ->]. done. }
      assert (i <= j)%nat as Hij by (destruct (bit need2 j); lia).
      split.
      * destruct (bit need1 i); [| done]. nat_bools; try done; lia.
      * destruct (decide (i = j)) as [-> | Hne]; [| apply Hrun; lia].
        destruct (bit need2 j); [lia | done].
    + vars_simpl. exists ((q1, locks) :: new). split.
      * rewrite Hnew. cbn [map lock_call_of fst snd].
        rewrite <- app_assoc. cbn [app].
        rewrite lor_take_part; try done.
        intros i. rewrite Hlbits. by intros [? _]%andb_true_iff.
      * eapply runs_p1 with (j := j); (done || lia).
  - destruct (bit need2 k) eqn:Hn2.
    + (* a run of locks on p2 *)
      destruct (lock_run2_spec (S ERTS_PROC_LOCK_MAX_BIT - k) safelock_fuel k 0 need1)
        as (j & mask & -> & Hj & Hrun & Hhit & Hmask & Hbits);
        [lia | apply safelock_fuel_enough; lia | done |].
      cbn [mbind result_bind].
      destruct Hp2 as [q2 ->]; [by eapply bit_true_nonzero |].
      cbn [deref mbind result_bind].
      assert (k < j)%nat as Hkj.
      { destruct (decide (j = k)) as [-> | Hne]; [| lia].
        rewrite Hhit in Hn1 by lia. done. }
      set (locks := Z.land need2 mask).
      assert (0 <= locks) as Hlocks by (apply Z.land_nonneg; left; apply Hw2).
      assert (forall i, bit locks i = bit need2 i && ((k <=? i)%nat && (i <? j)%nat))
        as Hlbits by (intros i; unfold locks; rewrite bit_land, Hbits, bit_0; done).
      edestruct (IH (n - 1)%nat ltac:(lia) fuel j
        (mk_vars (Some q1) id1 need1 have1
                 (Some q2) id2 (Z.land need2 (wnot locks)) (Z.lor have2 locks))
        (calls ++ [Call_lock q2 locks]) q1)
        as (new & Hnew & Hruns);
        cbn [p1 pid1 need_locks1 have_locks1 p2 pid2 need_locks2 have_locks2];
        try done.
      * destruct (bit need1 j); lia.
      * lia.
      * lia.
      * by apply is_locks_land.
      * apply Z.lor_nonneg. done.
      * intros i Hi. rewrite bit_land_wnot, Hlbits by done.
        destruct (decide (i < k)%nat) as [Hik | Hik].
        { destruct (Hlow i Hik) as [-> ->]. done. }
        split; [apply Hrun; lia |].
        destruct (bit need2 i); [| done]. nat_bools; try done; lia.
      * vars_simpl. exists ((q2, locks) :: new). split.
        -- rewrite Hnew. cbn [map lock_call_of fst snd].
           rewrite <- app_assoc. cbn [app].
           rewrite lor_take_part; try done.
           intros i. rewrite Hlbits. by intros [? _]%andb_true_iff.
        -- eapply runs_p2 with (j := j); (done || lia).
    + (* neither process needs this lock *)
      edestruct (IH (n - 1)%nat ltac:(lia) fuel (S k)
        (mk_vars (Some q1) id1 need1 have1 q2o id2 need2 have2) calls q1)
        as (new & Hnew & Hruns);
        cbn [p1 pid1 need_locks1 have_locks1 p2 pid2 need_locks2 have_locks2];
        try done.
      * destruct (bit need1 (S k)); lia.
      * lia.
      * lia.
      * intros i Hi. destruct (decide (i = k)) as [-> | Hne]; [done |]. apply Hlow. lia.
      * vars_simpl. exists new. split; [done |]. by apply runs_skip.
Qed.

(** ** proc_safelock: the order of the lock calls *)

Lemma mask_bits_elem (m : ErtsProcLocks) (i : nat) :
  i ∈ mask_bits m <-> bit m i = true /\ (i <= ERTS_PROC_LOCK_MAX_BIT)%nat.
Proof.
  unfold mask_bits. rewrite list_elem_of_filter, elem_of_seq. unfold bit.
  split; intros [? ?]; (split; [done | lia]).
Qed.

Lemma seq_sorted (a n : nat) : StronglySorted lt (seq a n).
Proof.
  revert a. induction n as [| n IH]; intros a; cbn [seq]; constructor; [apply IH |].
  apply Forall_forall. intros x Hx%elem_of_seq. lia.
Qed.

Lemma filter_sorted {A} (R : relation A) (P : A -> Prop) `{!forall x, Decision (P x)}
    (l : list A) :
  StronglySorted R l -> StronglySorted R (filter P l).
Proof.
  induction 1 as [| x l Hl IH Hx]; [constructor |].
  rewrite filter_cons. destruct (decide (P x)); [| done].
  constructor; [done |]. apply Forall_forall. intros y [_ Hy]%list_elem_of_filter.
  rewrite Forall_forall in Hx. by apply Hx.
Qed.

Lemma mask_bits_sorted (m : ErtsProcLocks) : StronglySorted lt (mask_bits m).
Proof. apply filter_sorted, seq_sorted. Qed.

Lemma call_acquisitions_sorted (m : ErtsProcLocks) (r : nat) :
  StronglySorted lock_order ((fun i => (i, r)) <$> mask_bits m).
Proof.
  eapply StronglySorted_fmap; [| apply mask_bits_sorted].
  intros x y Hxy. left. done.
Qed.

Lemma strictly_ascending_sorted (l : list (nat * nat)) :
  StronglySorted lock_order l -> strictly_ascending l = true.
Proof.
  induction 1 as [| x l Hl IH Hx]; [done |].
  destruct l as [| y l]; [done |].
  change (strictly_ascending (x :: y :: l))
    with (lock_order_lt x y && strictly_ascending (y :: l)).
  rewrite IH, andb_true_r. apply Forall_cons in Hx as [Hxy _].
  unfold lock_order_lt. destruct Hxy as [Hlt | [Heq Hlt]].
  - apply orb_true_iff. left. by apply Nat.ltb_lt.
  - apply orb_true_iff. right. apply andb_true_iff. split.
    + by apply Nat.eqb_eq.
    + by apply Nat.ltb_lt.
Qed.

(** Every lock acquired by the loop is a needed lock of its process, at
    or above the starting lock number. *)
Lemma runs_acquisitions (q1 : proc_ptr) (p2o : option proc_ptr)
    (k : nat) (need1 need2 : ErtsProcLocks) (l : list (proc_ptr * ErtsProcLocks)) :
  runs q1 p2o k need1 need2 l -> p2o <> Some q1 ->
  forall x, x ∈ acquisitions (Some q1) l ->
    (k <= fst x)%nat /\
    ((snd x = 0%nat /\ bit need1 (fst x) = true) \/
     (snd x = 1%nat /\ bit need2 (fst x) = true)).
Proof.
  intros Hruns Hne.
  induction Hruns as
    [ need1 need2
    | k need1 need2 l Hk Hn1 Hn2 Hruns IH
    | k j need1 need2 locks l Hj Hn1 Hrun Hhit Hlocks Hbits Hruns IH
    | k j need1 need2 locks q2 l Hq2 Hj Hn1 Hn2 Hrun Hhit Hlocks Hbits Hruns IH ];
    intros x Hx; cbn [acquisitions] in Hx.
  - by apply elem_of_nil in Hx.
  - destruct (IH x Hx) as [Hkx Hin]. split; [lia | done].
  - apply elem_of_app in Hx as [Hx | Hx].
    + apply list_elem_of_fmap in Hx as (i & -> & Hi%mask_bits_elem).
      destruct Hi as [Hi _]. rewrite Hbits in Hi.
      apply andb_true_iff in Hi as [Hi1 [Hki%Nat.leb_le _]%andb_true_iff].
      cbn [fst snd]. split; [done |]. left. split; [| done].
      unfold lock_rank. by rewrite bool_decide_eq_true_2.
    + destruct (IH x Hx) as [Hkx Hin]. split; [destruct (bit need2 j); lia |].
      destruct Hin as [[? Hb] | ?]; [left | by right]. split; [done |].
      rewrite bit_land in Hb. by apply andb_true_iff in Hb as [? _].
  - apply elem_of_app in Hx as [Hx | Hx].
    + apply list_elem_of_fmap in Hx as (i & -> & Hi%mask_bits_elem).
      destruct Hi as [Hi _]. rewrite Hbits in Hi.
      apply andb_true_iff in Hi as [Hi1 [Hki%Nat.leb_le _]%andb_true_iff].
      cbn [fst snd]. split; [done |]. right. split; [| done].
      unfold lock_rank. rewrite bool_decide_eq_false_2; [done |]. congruence.
    + destruct (IH x Hx) as [Hkx Hin]. split; [lia |].
      destruct Hin as [? | [? Hb]]; [by left | right]. split; [done |].
      rewrite bit_land in Hb. by apply andb_true_iff in Hb as [? _].
Qed.

(** The single locks are acquired in lock order: ascending lock number,
    and for one lock number on the first process before the second. *)
Lemma runs_sorted (q1 : proc_ptr) (p2o : option proc_ptr)
    (k : nat) (need1 need2 : ErtsProcLocks) (l : list (proc_ptr * ErtsProcLocks)) :
  runs q1 p2o k need1 need2 l -> p2o <> Some q1 ->
  is_locks need1 -> is_locks need2 ->
  StronglySorted lock_order (acquisitions (Some q1) l).
Proof.
  intros Hruns Hne.
  induction Hruns as
    [ need1 need2
    | k need1 need2 l Hk Hn1 Hn2 Hruns IH
    | k j need1 need2 locks l Hj Hn1 Hrun Hhit Hlocks Hbits Hruns IH
    | k j need1 need2 locks q2 l Hq2 Hj Hn1 Hn2 Hrun Hhit Hlocks Hbits Hruns IH ];
    intros Hl1 Hl2; cbn [acquisitions].
  - constructor.
  - by apply IH.
  - apply StronglySorted_app. split_and!.
    + intros x y (i & -> & Hi%mask_bits_elem)%list_elem_of_fmap Hy.
      destruct Hi as [Hi _]. rewrite Hbits in Hi.
      apply andb_true_iff in Hi as [Hi1 [_ Hij%Nat.leb_le]%andb_true_iff].
      destruct (runs_acquisitions _ _ _ _ _ _ Hruns Hne y Hy) as [Hky Hin].
      unfold lock_order, lock_rank. rewrite bool_decide_eq_true_2 by done.
      cbn [fst snd].
      destruct Hin as [[Hr Hb] | [Hr Hb]].
      * left. rewrite bit_land_wnot, Hbits in Hb by (by apply is_locks_word).
        destruct (decide (fst y <= j)%nat) as [Hyj | Hyj]; [| lia].
        exfalso. revert Hb. destruct (bit need1 (fst y)); [| done].
        assert (k <= fst y)%nat as Hkfy by (destruct (bit need2 j); lia).
        cbn [andb negb]. nat_bools; try done; lia.
      * destruct (decide (i = fst y)) as [-> | Hiy]; [right; lia | left].
        destruct (bit need2 j); lia.
    + apply call_acquisitions_sorted.
    + apply IH; [by apply is_locks_land | done].
  - apply StronglySorted_app. split_and!.
    + intros x y (i & -> & Hi%mask_bits_elem)%list_elem_of_fmap Hy.
      destruct Hi as [Hi _]. rewrite Hbits in Hi.
      apply andb_true_iff in Hi as [Hi1 [_ Hij%Nat.ltb_lt]%andb_true_iff].
      destruct (runs_acquisitions _ _ _ _ _ _ Hruns Hne y Hy) as [Hky Hin].
      unfold lock_order. cbn [fst snd]. left. lia.
    + apply call_acquisitions_sorted.
    + apply IH; [done | by apply is_locks_land].
Qed.

(** Consecutive lock calls are on different processes.  A loop that starts
    on a lock needed by the first process opens with a call on it; one that
    starts on a lock needed only by the second process opens with a call
    on the second process. *)
Lemma runs_head (q1 : proc_ptr) (p2o : option proc_ptr)
    (k : nat) (need1 need2 : ErtsProcLocks) (l : list (proc_ptr * ErtsProcLocks)) :
  runs q1 p2o k need1 need2 l ->
  (k <= ERTS_PROC_LOCK_MAX_BIT -> bit need1 k = true ->
     exists m l', l = (q1, m) :: l')%nat /\
  (bit need1 k = false -> bit need2 k = true ->
     forall c l', l = c :: l' -> p2o = Some (fst c)) /\
  ((k > ERTS_PROC_LOCK_MAX_BIT)%nat -> l = []).
Proof.
  destruct 1 as
    [ need1 need2
    | k need1 need2 l Hk Hn1 Hn2 Hruns
    | k j need1 need2 locks l Hj Hn1 Hrun Hhit Hlocks Hbits Hruns
    | k j need1 need2 locks q2 l Hq2 Hj Hn1 Hn2 Hrun Hhit Hlocks Hbits Hruns ].
  - split_and!; [lia | done | done].
  - split_and!; [congruence | congruence | lia].
  - split_and!; [by eauto | congruence | lia].
  - split_and!; [congruence | | lia]. intros _ _ c l' [= <- <-]. done.
Qed.

Lemma runs_alternating (q1 : proc_ptr) (p2o : option proc_ptr)
    (k : nat) (need1 need2 : ErtsProcLocks) (l : list (proc_ptr * ErtsProcLocks)) :
  runs q1 p2o k need1 need2 l -> p2o <> Some q1 ->
  is_locks need1 -> alternating l = true.
Proof.
  intros Hruns Hne.
  induction Hruns as
    [ need1 need2
    | k need1 need2 l Hk Hn1 Hn2 Hruns IH
    | k j need1 need2 locks l Hj Hn1 Hrun Hhit Hlocks Hbits Hruns IH
    | k j need1 need2 locks q2 l Hq2 Hj Hn1 Hn2 Hrun Hhit Hlocks Hbits Hruns IH ];
    intros Hl1.
  - done.
  - by apply IH.
  - destruct l as [| c l]; [done |].
    change (alternating ((q1, locks) :: c :: l))
      with (negb (bool_decide (q1 = fst c)) && alternating (c :: l)).
    rewrite IH by (by apply is_locks_land). rewrite andb_true_r.
    apply negb_true_iff, bool_decide_eq_false. cbn [fst]. intros ->.
    destruct (runs_head _ _ _ _ _ _ Hruns) as (_ & Hh2 & Hh3).
    destruct (bit need2 j) eqn:Hn2j.
    + assert (bit (Z.land need1 (wnot locks)) j = false) as Hb.
      { rewrite bit_land_wnot, Hbits by (by apply is_locks_word).
        destruct (bit need1 j); [| done]. cbn [andb negb]. nat_bools; try done; lia. }
      apply Hne, (Hh2 Hb Hn2j c l eq_refl).
    + assert (j = ERTS_PROC_LOCK_MAX_BIT) as ->.
      { destruct (decide (j < ERTS_PROC_LOCK_MAX_BIT)%nat) as [Hlt | ?]; [| lia].
        specialize (Hhit Hlt). congruence. }
      specialize (Hh3 ltac:(lia)). done.
  - destruct l as [| c l]; [done |].
    change (alternating ((q2, locks) :: c :: l))
      with (negb (bool_decide (q2 = fst c)) && alternating (c :: l)).
    rewrite IH by done. rewrite andb_true_r.
    apply negb_true_iff, bool_decide_eq_false. cbn [fst]. intros ->.
    destruct (runs_head _ _ _ _ _ _ Hruns) as (Hh1 & _ & Hh3).
    destruct (decide (j <= ERTS_PROC_LOCK_MAX_BIT)%nat) as [Hle | Hgt].
    + destruct (Hh1 Hle (Hhit Hle)) as (m & l' & [= -> _]).
      apply Hne. done.
    + specialize (Hh3 ltac:(lia)). done.
Qed.

(** ** proc_safelock: the unlock phase *)

Lemma unlock_in_range_spec (is_managed : bool) (p : option proc_ptr)
    (unlock_mask have_locks need_locks : ErtsProcLocks) :
  (p = None -> have_locks = 0) -> is_word have_locks ->
  unlock_in_range is_managed p unlock_mask have_locks need_locks =
  let u := Z.land unlock_mask have_locks in
  let rest := Z.land have_locks (wnot u) in
  Ok (rest, Z.lor need_locks u,
      truthy u && (negb is_managed && negb (truthy rest)),
      unlock_phase_calls is_managed p u rest).
Proof.
  intros Hp Hw. unfold unlock_in_range, unlock_phase_calls. cbn zeta.
  destruct (truthy (Z.land unlock_mask have_locks)) eqn:Hu.
  - destruct p as [p |].
    + cbn [deref mbind result_bind andb].
      destruct (negb is_managed && negb (truthy _)); done.
    + rewrite Hp, Z.land_0_r in Hu by done. done.
  - apply truthy_false in Hu. rewrite Hu.
    rewrite land_wnot, Z.ldiff_0_r, Z.lor_0_r by done.
    destruct p; done.
Qed.

Lemma truthy_0 : truthy 0 = false.
Proof. done. Qed.

(** The unlock phase as a whole, on the variables that [safelock_order]
    has set up. *)
Lemma safelock_unlock_phase_spec (lock_check : bool) (procs : proc_ptr -> Process)
    (is_managed : bool)
    (a_proc : option proc_ptr) (a_have_locks a_need_locks : ErtsProcLocks)
    (b : proc_ptr) (b_have_locks b_need_locks : ErtsProcLocks) :
  let v0 := safelock_order procs a_proc a_have_locks a_need_locks
              b b_have_locks b_need_locks in
  let need1 := Z.land (need_locks1 v0) (wnot (have_locks1 v0)) in
  let need2 := Z.land (need_locks2 v0) (wnot (have_locks2 v0)) in
  is_word (have_locks1 v0) -> is_word (have_locks2 v0) ->
  (p2 v0 = None -> have_locks2 v0 = 0) ->
  (lock_check = true ->
   subset_locks (have_locks1 v0) (need_locks1 v0) /\
   subset_locks (have_locks2 v0) (need_locks2 v0)) ->
  exists unlock_mask lock_no,
    unlock_range safelock_fuel 0 need1 need2 ERTS_PROC_LOCKS_ALL
      = Ok (unlock_mask, lock_no) /\
    let u1 := Z.land unlock_mask (have_locks1 v0) in
    let u2 := Z.land unlock_mask (have_locks2 v0) in
    let have1 := Z.land (have_locks1 v0) (wnot u1) in
    let have2 := Z.land (have_locks2 v0) (wnot u2) in
    let v1 := mk_vars (p1 v0) (pid1 v0) (Z.lor need1 u1) have1
                      (p2 v0) (pid2 v0) (Z.lor need2 u2) have2 in
    safelock_unlock_phase lock_check procs is_managed
      a_proc a_have_locks a_need_locks (Some b) b_have_locks b_need_locks
    = Ok (v1, lock_no,
          truthy u1 && (negb is_managed && negb (truthy have1)),
          truthy u2 && (negb is_managed && negb (truthy have2)),
          unlock_mask,
          lc_chk_calls lock_check v0
          ++ unlock_phase_calls is_managed (p1 v0) u1 have1
          ++ unlock_phase_calls is_managed (p2 v0) u2 have2
          ++ lc_chk_calls lock_check v1).
Proof.
  intros v0 need1 need2 Hw1 Hw2 Hp2 Hlc.
  destruct (unlock_range_spec (S ERTS_PROC_LOCK_MAX_BIT) safelock_fuel 0 need1 need2
              ERTS_PROC_LOCKS_ALL ltac:(lia)) as (mask & k & Hrange & _);
    [unfold safelock_fuel; lia | apply locks_all_word |].
  exists mask, k. split; [done |]. cbn zeta.
  unfold safelock_unlock_phase. cbn [deref mbind result_bind]. fold v0.
  assert (lock_check && negb (Z.land (need_locks1 v0) (have_locks1 v0) =? have_locks1 v0)
          = false) as ->.
  { destruct lock_check; [| done]. destruct (Hlc eq_refl) as [H1 _].
    cbn [andb]. apply negb_false_iff, Z.eqb_eq. done. }
  assert (lock_check && negb (Z.land (need_locks2 v0) (have_locks2 v0) =? have_locks2 v0)
          = false) as ->.
  { destruct lock_check; [| done]. destruct (Hlc eq_refl) as [_ H2].
    cbn [andb]. apply negb_false_iff, Z.eqb_eq. done. }
  fold need1 need2. rewrite Hrange. cbn [mbind result_bind].
  assert (p1 v0 = None -> have_locks1 v0 = 0) as Hp1.
  { unfold v0, safelock_order. destruct a_proc; repeat case_match; done. }
  destruct (truthy (have_locks1 v0) || truthy (have_locks2 v0)) eqn:Hany.
  - rewrite !unlock_in_range_spec by done. done.
  - apply orb_false_iff in Hany as [H1%truthy_false H2%truthy_false].
    rewrite H1, H2, !Z.land_0_r. cbn [mbind result_bind].
    rewrite !Z.land_0_l, !Z.lor_0_r.
    unfold unlock_phase_calls. rewrite truthy_0. destruct (p1 v0), (p2 v0); done.
Qed.

(** ** proc_safelock: what the caller holds *)

Lemma replay_app (c1 c2 : list lock_call) (h : held_map) :
  replay (c1 ++ c2) h = replay c2 (replay c1 h).
Proof. unfold replay. apply fold_left_app. Qed.

Lemma replay_cons (c : lock_call) (l : list lock_call) (h : held_map) :
  replay (c :: l) h = replay l (replay_call c h).
Proof. done. Qed.

Lemma calls_ok_app (c1 c2 : list lock_call) (h : held_map) :
  calls_ok (c1 ++ c2) h = calls_ok c1 h && calls_ok c2 (replay c1 h).
Proof.
  revert h. induction c1 as [| c c1 IH]; intros h; [done |].
  cbn [app calls_ok]. rewrite IH, andb_assoc. done.
Qed.

Lemma lc_chk_holds (lock_check : bool) (v : safelock_vars) (h : held_map) :
  holds h v ->
  calls_ok (lc_chk_calls lock_check v) h = true /\
  replay (lc_chk_calls lock_check v) h = h.
Proof.
  intros [H1 H2]. unfold lc_chk_calls. destruct lock_check; [| done].
  destruct (p1 v) as [q1 |] eqn:Hp1, (p2 v) as [q2 |] eqn:Hp2;
    cbn [app calls_ok call_ok replay fold_left replay_call andb];
    rewrite ?(H1 _ eq_refl), ?(H2 _ eq_refl), ?Z.eqb_refl; done.
Qed.

Lemma land_land_self (mask have : Z) :
  Z.land have (Z.land mask have) = Z.land mask have.
Proof.
  rewrite (Z.land_comm mask), Z.land_assoc, Z.land_diag. done.
Qed.

Lemma unlock_phase_holds (is_managed : bool) (q : proc_ptr)
    (mask rest : ErtsProcLocks) (h : held_map) :
  is_word (h q) ->
  let u := Z.land mask (h q) in
  calls_ok (unlock_phase_calls is_managed (Some q) u rest) h = true /\
  replay (unlock_phase_calls is_managed (Some q) u rest) h q = Z.land (h q) (wnot u) /\
  (forall p, p <> q -> replay (unlock_phase_calls is_managed (Some q) u rest) h p = h p) /\
  lock_calls (unlock_phase_calls is_managed (Some q) u rest) = [].
Proof.
  intros Hw u. unfold unlock_phase_calls.
  destruct (truthy u) eqn:Hu.
  - assert (forall c, calls_ok (c ++ [Call_unlock q u]) h = true ->
                      (c = [] \/ c = [Call_inc_refc q]) ->
            calls_ok (c ++ [Call_unlock q u]) h = true /\
            replay (c ++ [Call_unlock q u]) h q = Z.land (h q) (wnot u) /\
            (forall p, p <> q -> replay (c ++ [Call_unlock q u]) h p = h p) /\
            lock_calls (c ++ [Call_unlock q u]) = []) as Hgen.
    { intros c Hok [-> | ->]; (split; [done |]);
        cbn [app replay fold_left replay_call];
        (split; [apply fn_lookup_insert |]);
        (split; [intros p Hp; by apply fn_lookup_insert_ne | done]). }
    assert (call_ok (Call_unlock q u) h = true) as Hcall.
    { cbn [call_ok]. rewrite Hu. cbn [andb]. apply Z.eqb_eq. apply land_land_self. }
    destruct (negb is_managed && negb (truthy rest)); apply Hgen; auto;
      cbn [app calls_ok replay_call call_ok]; cbn [call_ok] in Hcall;
      rewrite Hcall; done.
  - apply truthy_false in Hu. split; [done |].
    cbn [replay fold_left]. split_and!; [| done | done].
    rewrite Hu, land_wnot, Z.ldiff_0_r by done. done.
Qed.

Lemma land_disjoint_sub (h need locks : Z) :
  0 <= h -> 0 <= locks ->
  (forall i, bit locks i = true -> bit need i = true) ->
  Z.land h need = 0 -> Z.land h locks = 0.
Proof.
  intros Hh Hl Hsub Hd. apply bit_ext; [apply Z.land_nonneg; by left | done |].
  intros i. rewrite bit_land, bit_0.
  destruct (bit h i) eqn:Hhi, (bit locks i) eqn:Hli; try done.
  assert (bit (Z.land h need) i = true) as Hc by (rewrite bit_land, Hhi, Hsub; done).
  rewrite Hd, bit_0 in Hc. done.
Qed.

Lemma land_disjoint_rest (h need locks : Z) :
  0 <= h -> is_word need -> 0 <= locks ->
  Z.land h need = 0 -> Z.land (Z.lor h locks) (Z.land need (wnot locks)) = 0.
Proof.
  intros Hh Hn Hl Hd. apply bit_ext; [| done |].
  - apply Z.land_nonneg. left. apply Z.lor_nonneg. done.
  - intros i. rewrite bit_land, bit_lor, bit_land_wnot, bit_0 by done.
    destruct (bit h i) eqn:Hhi, (bit locks i) eqn:Hli, (bit need i) eqn:Hni; try done.
    assert (bit (Z.land h need) i = true) as Hc by (rewrite bit_land, Hhi, Hni; done).
    rewrite Hd, bit_0 in Hc. done.
Qed.

(** The effect of the lock calls of the locking loop on what the caller
    holds, provided the held and the needed locks are disjoint when the
    loop starts (as they are when [proc_safelock] gets there). *)
Lemma runs_holds (q1 : proc_ptr) (p2o : option proc_ptr)
    (k : nat) (need1 need2 : ErtsProcLocks) (l : list (proc_ptr * ErtsProcLocks)) :
  runs q1 p2o k need1 need2 l -> p2o <> Some q1 ->
  is_locks need1 -> is_locks need2 ->
  (forall i, (i < k)%nat -> bit need1 i = false /\ bit need2 i = false) ->
  forall h,
  0 <= h q1 -> (forall q2, p2o = Some q2 -> 0 <= h q2) ->
  Z.land (h q1) need1 = 0 -> (forall q2, p2o = Some q2 -> Z.land (h q2) need2 = 0) ->
  calls_ok (map lock_call_of l) h = true /\
  replay (map lock_call_of l) h q1 = Z.lor (h q1) need1 /\
  (forall q2, p2o = Some q2 -> replay (map lock_call_of l) h q2 = Z.lor (h q2) need2) /\
  (forall p, p <> q1 -> p2o <> Some p -> replay (map lock_call_of l) h p = h p).
Proof.
  intros Hruns Hne.
  induction Hruns as
    [ need1 need2
    | k need1 need2 l Hk Hn1 Hn2 Hruns IH
    | k j need1 need2 locks l Hj Hn1 Hrun Hhit Hlocks Hbits Hruns IH
    | k j need1 need2 locks q2 l Hq2 Hj Hn1 Hn2 Hrun Hhit Hlocks Hbits Hruns IH ];
    intros Hl1 Hl2 Hlow h Hh1 Hh2 Hd1 Hd2.
  - assert (need1 = 0) as -> by (apply locks_exhausted; [done |]; intros; by apply Hlow).
    assert (need2 = 0) as -> by (apply locks_exhausted; [done |]; intros; by apply Hlow).
    cbn [map calls_ok replay fold_left]. rewrite Z.lor_0_r.
    split_and!; try done. intros q2 _. by rewrite Z.lor_0_r.
  - apply IH; try done.
    intros i Hi. destruct (decide (i = k)) as [-> | Hik]; [done |]. apply Hlow. lia.
  - pose proof (is_locks_word _ Hl1) as Hw1.
    assert (forall i, bit locks i = true -> bit need1 i = true) as Hsub.
    { intros i. rewrite Hbits. by intros [? _]%andb_true_iff. }
    assert (bit locks k = true) as Hlk.
    { rewrite Hbits, Hn1. cbn [andb]. nat_bools; try done; lia. }
    cbn [map calls_ok]. rewrite !replay_cons.
    change (lock_call_of (q1, locks)) with (Call_lock q1 locks).
    set (h' := replay_call (Call_lock q1 locks) h). cbn [call_ok].
    assert (h' q1 = Z.lor (h q1) locks) as Hh'1 by apply fn_lookup_insert.
    assert (forall p, p <> q1 -> h' p = h p) as Hh'o
      by (intros p Hp; by apply fn_lookup_insert_ne).
    destruct (IH ltac:(by apply is_locks_land) Hl2) with (h := h')
      as (Hok & Hr1 & Hr2 & Hro).
    + intros i Hi. rewrite bit_land_wnot, Hbits by done.
      destruct (decide (i < k)%nat) as [Hik | Hik].
      { destruct (Hlow i Hik) as [-> ->]. done. }
      assert (i <= j)%nat as Hij by (destruct (bit need2 j); lia).
      split.
      * destruct (bit need1 i); [| done]. nat_bools; try done; lia.
      * destruct (decide (i = j)) as [-> | Hne']; [| apply Hrun; lia].
        destruct (bit need2 j); [lia | done].
    + rewrite Hh'1. apply Z.lor_nonneg. done.
    + intros q2 Hq2. rewrite Hh'o by congruence. by apply Hh2.
    + rewrite Hh'1. by apply land_disjoint_rest.
    + intros q2 Hq2. rewrite Hh'o by congruence. by apply Hd2.
    + rewrite Hok, andb_true_r.
      split_and!.
      * apply andb_true_iff. split; [apply truthy_true; by eapply bit_true_nonzero |].
        apply Z.eqb_eq. by eapply land_disjoint_sub.
      * rewrite Hr1, Hh'1. by apply lor_take_part.
      * intros q2 Hq2. rewrite (Hr2 q2 Hq2), Hh'o by congruence. done.
      * intros p Hp1 Hp2. rewrite Hro, Hh'o by done. done.
  - pose proof (is_locks_word _ Hl2) as Hw2. subst p2o.
    assert (q2 <> q1) as Hq21 by congruence.
    assert (forall i, bit locks i = true -> bit need2 i = true) as Hsub.
    { intros i. rewrite Hbits. by intros [? _]%andb_true_iff. }
    assert (bit locks k = true) as Hlk.
    { rewrite Hbits, Hn2. cbn [andb]. nat_bools; try done; lia. }
    cbn [map calls_ok]. rewrite !replay_cons.
    change (lock_call_of (q2, locks)) with (Call_lock q2 locks).
    set (h' := replay_call (Call_lock q2 locks) h). cbn [call_ok].
    assert (h' q2 = Z.lor (h q2) locks) as Hh'2 by apply fn_lookup_insert.
    assert (forall p, p <> q2 -> h' p = h p) as Hh'o
      by (intros p Hp; by apply fn_lookup_insert_ne).
    destruct (IH Hl1 ltac:(by apply is_locks_land)) with (h := h')
      as (Hok & Hr1 & Hr2 & Hro).
    + intros i Hi. rewrite bit_land_wnot, Hbits by done.
      destruct (decide (i < k)%nat) as [Hik | Hik].
      { destruct (Hlow i Hik) as [-> ->]. done. }
      split; [apply Hrun; lia |].
      destruct (bit need2 i); [| done]. nat_bools; try done; lia.
    + rewrite Hh'o by done. done.
    + intros q2' [= <-]. rewrite Hh'2. apply Z.lor_nonneg. split; [by apply Hh2 | done].
    + rewrite Hh'o by done. done.
    + intros q2' [= <-]. rewrite Hh'2. apply land_disjoint_rest; try done; by auto.
    + rewrite Hok, andb_true_r.
      split_and!.
      * apply andb_true_iff. split; [apply truthy_true; by eapply bit_true_nonzero |].
        apply Z.eqb_eq. eapply land_disjoint_sub; try done; by auto.
      * rewrite Hr1, Hh'o by done. done.
      * intros q2' [= <-]. rewrite (Hr2 q2 eq_refl), Hh'2.
        apply lor_take_part; try done. by auto.
      * intros p Hp1 Hp2. rewrite Hro, Hh'o by congruence. done.
Qed.

(** ** proc_safelock as a whole *)

Lemma safelock_order_facts (procs : proc_ptr -> Process)
    (a_proc : option proc_ptr) (a_have_locks a_need_locks : ErtsProcLocks)
    (b : proc_ptr) (b_have_locks b_need_locks : ErtsProcLocks) :
  let v0 := safelock_order procs a_proc a_have_locks a_need_locks
              b b_have_locks b_need_locks in
  is_locks a_have_locks -> is_locks a_need_locks ->
  is_locks b_have_locks -> is_locks b_need_locks ->
  exists q1,
    p1 v0 = Some q1 /\ p2 v0 <> Some q1 /\
    (p2 v0 = None -> have_locks2 v0 = 0 /\ need_locks2 v0 = 0) /\
    is_locks (need_locks1 v0) /\ is_locks (have_locks1 v0) /\
    is_locks (need_locks2 v0) /\ is_locks (have_locks2 v0).
Proof.
  intros v0 Hah Han Hbh Hbn. unfold v0, safelock_order.
  destruct a_proc as [a |].
  - destruct (Z.ltb_spec (common_id (procs a)) (common_id (procs b))) as [Hlt | Hge].
    + exists a. cbn. split_and!; try done. intros [= ->]. lia.
    + destruct (Z.gtb_spec (common_id (procs a)) (common_id (procs b))) as [Hgt | Hle].
      * exists b. cbn. split_and!; try done. intros [= ->]. lia.
      * exists a. cbn. split_and!; try done; try by apply is_locks_lor.
  - exists b. cbn. split_and!; done.
Qed.

Lemma lor_unlock_relock (h n m : Z) :
  is_word h -> is_word n ->
  Z.lor (Z.land h (wnot (Z.land m h))) (Z.lor (Z.land n (wnot h)) (Z.land m h))
  = Z.lor h n.
Proof.
  intros Hh Hn. apply bit_ext.
  - apply Z.lor_nonneg. split; [apply Z.land_nonneg; left; apply Hh |].
    apply Z.lor_nonneg. split; apply Z.land_nonneg; [left; apply Hn | right; apply Hh].
  - apply Z.lor_nonneg. split; [apply Hh | apply Hn].
  - intros i. rewrite !bit_lor, !bit_land_wnot, !bit_land by done.
    destruct (bit h i), (bit n i), (bit m i); done.
Qed.

Lemma proc_safelock_general (lock_check : bool) (procs : proc_ptr -> Process)
    (is_managed : bool)
    (a_proc : option proc_ptr) (a_have_locks a_need_locks : ErtsProcLocks)
    (b : proc_ptr) (b_have_locks b_need_locks : ErtsProcLocks) :
  let v0 := safelock_order procs a_proc a_have_locks a_need_locks
              b b_have_locks b_need_locks in
  let need1 := Z.land (need_locks1 v0) (wnot (have_locks1 v0)) in
  let need2 := Z.land (need_locks2 v0) (wnot (have_locks2 v0)) in
  is_locks a_have_locks -> is_locks a_need_locks ->
  is_locks b_have_locks -> is_locks b_need_locks ->
  (lock_check = true ->
   subset_locks (have_locks1 v0) (need_locks1 v0) /\
   subset_locks (have_locks2 v0) (need_locks2 v0)) ->
  exists q1 unlock_mask lock_no new,
    p1 v0 = Some q1 /\
    unlock_range safelock_fuel 0 need1 need2 ERTS_PROC_LOCKS_ALL
      = Ok (unlock_mask, lock_no) /\
    (lock_no <= S ERTS_PROC_LOCK_MAX_BIT)%nat /\
    (forall i, (i < lock_no)%nat -> bit need1 i = false /\ bit need2 i = false) /\
    ((lock_no <= ERTS_PROC_LOCK_MAX_BIT)%nat ->
     bit need1 lock_no = true \/ bit need2 lock_no = true) /\
    (forall i, bit unlock_mask i =
       bool_decide (i <= ERTS_PROC_LOCK_MAX_BIT)%nat
       && ((lock_no <? i)%nat || (bool_decide (i = lock_no) && bit need1 i))) /\
    let u1 := Z.land unlock_mask (have_locks1 v0) in
    let u2 := Z.land unlock_mask (have_locks2 v0) in
    let have1 := Z.land (have_locks1 v0) (wnot u1) in
    let have2 := Z.land (have_locks2 v0) (wnot u2) in
    let v1 := mk_vars (p1 v0) (pid1 v0) (Z.lor need1 u1) have1
                      (p2 v0) (pid2 v0) (Z.lor need2 u2) have2 in
    let v2 := mk_vars (p1 v0) (pid1 v0) 0 (Z.lor (have_locks1 v0) (need_locks1 v0))
                      (p2 v0) (pid2 v0) 0 (Z.lor (have_locks2 v0) (need_locks2 v0)) in
    runs q1 (p2 v0) lock_no (Z.lor need1 u1) (Z.lor need2 u2) new /\
    proc_safelock lock_check procs is_managed
      a_proc a_have_locks a_need_locks (Some b) b_have_locks b_need_locks
    = Ok (v2, safelock_calls lock_check is_managed v0 unlock_mask new).
Proof.
  intros v0 need1 need2 Hah Han Hbh Hbn Hlc.
  destruct (safelock_order_facts procs a_proc a_have_locks a_need_locks
              b b_have_locks b_need_locks Hah Han Hbh Hbn)
    as (q1 & Hp1 & Hp2 & Hnone & Hn1 & Hh1 & Hn2 & Hh2).
  fold v0 in Hp1, Hp2, Hnone, Hn1, Hh1, Hn2, Hh2.
  pose proof (is_locks_word _ Hh1) as Hwh1. pose proof (is_locks_word _ Hh2) as Hwh2.
  pose proof (is_locks_word _ Hn1) as Hwn1. pose proof (is_locks_word _ Hn2) as Hwn2.
  destruct (safelock_unlock_phase_spec lock_check procs is_managed
              a_proc a_have_locks a_need_locks b b_have_locks b_need_locks
              Hwh1 Hwh2 ltac:(intros; by apply Hnone) Hlc)
    as (mask & k & Hrange & Hphase).
  fold v0 need1 need2 in Hrange, Hphase. cbn zeta in Hphase.
  destruct (unlock_range_spec (S ERTS_PROC_LOCK_MAX_BIT) safelock_fuel 0 need1 need2
              ERTS_PROC_LOCKS_ALL ltac:(lia) ltac:(unfold safelock_fuel; lia)
              locks_all_word)
    as (mask' & k' & Hrange' & Hk & Hlow & Hhit & Hmw & Hmbits).
  rewrite Hrange in Hrange'. injection Hrange' as <- <-.
  set (u1 := Z.land mask (have_locks1 v0)) in *.
  set (u2 := Z.land mask (have_locks2 v0)) in *.
  assert (forall i, bit mask i = true -> (k <= i)%nat) as Hmlow.
  { intros i. rewrite Hmbits.
    intros [_ Hb]%andb_true_iff. revert Hb. nat_bools; try done; lia. }
  assert (is_locks (Z.lor need1 u1)) as Hl1'.
  { apply is_locks_lor; [by apply is_locks_land |].
    unfold u1. rewrite Z.land_comm. by apply is_locks_land. }
  assert (is_locks (Z.lor need2 u2)) as Hl2'.
  { apply is_locks_lor; [by apply is_locks_land |].
    unfold u2. rewrite Z.land_comm. by apply is_locks_land. }
  set (v1 := mk_vars (p1 v0) (pid1 v0) (Z.lor need1 u1)
               (Z.land (have_locks1 v0) (wnot u1))
               (p2 v0) (pid2 v0) (Z.lor need2 u2)
               (Z.land (have_locks2 v0) (wnot u2))) in *.
  edestruct (lock_in_order_runs (2 * S ERTS_PROC_LOCK_MAX_BIT + 1) safelock_fuel k v1)
    with (q1 := q1) as (new & Hlock & Hruns); subst v1; vars_simpl; try done.
  - destruct (bit (Z.lor need1 u1) k); clear; lia.
  - unfold safelock_fuel. lia.
  - lia.
  - intros Hne. destruct (p2 v0) eqn:Hp2v; [done |].
    destruct (Hnone eq_refl) as [H0h H0n]. exfalso. apply Hne.
    unfold need2, u2. rewrite H0n, H0h, Z.land_0_l, Z.land_0_r. done.
  - apply Z.land_nonneg. left. apply Hwh1.
  - apply Z.land_nonneg. left. apply Hwh2.
  - intros i Hi. rewrite !bit_lor. unfold u1, u2. rewrite !bit_land.
    destruct (Hlow i ltac:(lia)) as [-> ->].
    destruct (bit mask i) eqn:Hm; [| done].
    apply Hmlow in Hm. lia.
  - exists q1, mask, k, new. split_and!; try done.
    { lia. }
    { intros i Hi. apply Hlow. lia. }
    { intros i. rewrite Hmbits, bit_locks_all.
      destruct (bit need1 i); nat_bools; try done; lia. }
    unfold safelock_calls, proc_safelock. rewrite Hphase. cbn [mbind result_bind].
    rewrite Hlock. cbn [mbind result_bind]. vars_simpl.
    subst u1 u2 need1 need2. rewrite !lor_unlock_relock by done.
    rewrite Hp1. cbn [deref mbind result_bind].
    unfold dec_refc_calls.
    destruct (p2 v0) as [q2 |] eqn:Hp2v.
    + cbn [deref].
      repeat match goal with
      | |- context [if ?c then _ else _] => destruct c; cbn [mbind result_bind]
      end; rewrite <- ?app_assoc; done.
    + destruct (Hnone eq_refl) as [H0 _]. rewrite H0, !Z.land_0_r, truthy_0.
      rewrite !andb_false_r. cbn [mbind result_bind andb].
      repeat match goal with
      | |- context [if ?c then _ else _] => destruct c; cbn [mbind result_bind]
      end; rewrite <- ?app_assoc; done.
Qed.

Lemma dec_refc_holds (cond : bool) (p : option proc_ptr) (h : held_map) :
  calls_ok (dec_refc_calls cond p) h = true /\
  replay (dec_refc_calls cond p) h = h /\
  lock_calls (dec_refc_calls cond p) = [].
Proof. unfold dec_refc_calls. destruct cond, p; done. Qed.

Lemma lock_calls_app (c1 c2 : list lock_call) :
  lock_calls (c1 ++ c2) = lock_calls c1 ++ lock_calls c2.
Proof. apply omap_app. Qed.

Lemma lock_calls_lc_chk (lock_check : bool) (v : safelock_vars) :
  lock_calls (lc_chk_calls lock_check v) = [].
Proof. unfold lc_chk_calls. destruct lock_check, (p1 v), (p2 v); done. Qed.

Lemma lock_calls_unlock_phase (is_managed : bool) (p : option proc_ptr) (u rest : Z) :
  lock_calls (unlock_phase_calls is_managed p u rest) = [].
Proof.
  unfold unlock_phase_calls.
  destruct p; [| done]. destruct (truthy u); [| done].
  destruct (negb is_managed && negb (truthy rest)); done.
Qed.

Lemma lock_calls_of_map (new : list (proc_ptr * ErtsProcLocks)) :
  lock_calls (map lock_call_of new) = new.
Proof.
  induction new as [| [p m] new IH]; [done |].
  cbn [map]. change (lock_call_of (p, m)) with (Call_lock p m).
  unfold lock_calls in *. csimpl. by rewrite IH.
Qed.

Lemma land_unlock_disjoint (h n m : Z) :
  is_word h -> is_word n ->
  Z.land (Z.land h (wnot (Z.land m h))) (Z.lor (Z.land n (wnot h)) (Z.land m h)) = 0.
Proof.
  intros Hh Hn. apply bit_ext; [| done |].
  - apply Z.land_nonneg. left. apply Z.land_nonneg. left. apply Hh.
  - intros i. rewrite bit_land, bit_lor, !bit_land_wnot, !bit_land, bit_0 by done.
    destruct (bit h i), (bit n i), (bit m i); done.
Qed.

(** The effect of all the calls of [proc_safelock] on what the caller
    holds. *)
Lemma safelock_calls_effect (lock_check is_managed : bool) (v0 : safelock_vars)
    (mask : ErtsProcLocks) (k : nat) (new : list (proc_ptr * ErtsProcLocks))
    (q1 : proc_ptr) (h : held_map) :
  let need1 := Z.land (need_locks1 v0) (wnot (have_locks1 v0)) in
  let need2 := Z.land (need_locks2 v0) (wnot (have_locks2 v0)) in
  let u1 := Z.land mask (have_locks1 v0) in
  let u2 := Z.land mask (have_locks2 v0) in
  p1 v0 = Some q1 -> p2 v0 <> Some q1 ->
  (p2 v0 = None -> have_locks2 v0 = 0 /\ need_locks2 v0 = 0) ->
  is_locks (need_locks1 v0) -> is_locks (have_locks1 v0) ->
  is_locks (need_locks2 v0) -> is_locks (have_locks2 v0) ->
  (forall i, bit mask i = true -> (k <= i)%nat) ->
  (forall i, (i < k)%nat -> bit need1 i = false /\ bit need2 i = false) ->
  runs q1 (p2 v0) k (Z.lor need1 u1) (Z.lor need2 u2) new ->
  holds h v0 ->
  let calls := safelock_calls lock_check is_managed v0 mask new in
  calls_ok calls h = true /\
  replay calls h q1 = Z.lor (have_locks1 v0) (need_locks1 v0) /\
  (forall q2, p2 v0 = Some q2 ->
     replay calls h q2 = Z.lor (have_locks2 v0) (need_locks2 v0)) /\
  (forall p, p <> q1 -> p2 v0 <> Some p -> replay calls h p = h p) /\
  lock_calls calls = new.
Proof.
  intros need1 need2 u1 u2 Hp1 Hp2 Hnone Hn1 Hh1 Hn2 Hh2 Hmlow Hlow Hruns [Hhold1 Hhold2].
  pose proof (is_locks_word _ Hh1) as Hwh1. pose proof (is_locks_word _ Hh2) as Hwh2.
  pose proof (is_locks_word _ Hn1) as Hwn1. pose proof (is_locks_word _ Hn2) as Hwn2.
  specialize (Hhold1 q1 Hp1).
  cbn zeta. unfold safelock_calls. fold need1 need2 u1 u2.
  set (have1 := Z.land (have_locks1 v0) (wnot u1)).
  set (have2 := Z.land (have_locks2 v0) (wnot u2)).
  set (v1 := mk_vars _ _ (Z.lor need1 u1) _ _ _ _ _).
  set (v2 := mk_vars _ _ 0 _ _ _ _ _).
  (* the lock checker's first look *)
  destruct (lc_chk_holds lock_check v0 h) as [HokA HrA].
  { split; [| done]. intros q Hq. rewrite Hp1 in Hq. by injection Hq as <-. }
  (* unlocking on p1 *)
  destruct (unlock_phase_holds is_managed q1 mask have1 h) as (HokB1 & HrB1 & HoB1 & _);
    [by rewrite Hhold1 |].
  rewrite Hhold1 in HokB1, HrB1, HoB1. fold u1 have1 in HokB1, HrB1, HoB1.
  rewrite <- Hp1 in HokB1, HrB1, HoB1.
  set (B1 := unlock_phase_calls is_managed (p1 v0) u1 have1) in *.
  set (hB1 := replay B1 h) in *.
  (* unlocking on p2 *)
  set (B2 := unlock_phase_calls is_managed (p2 v0) u2 have2).
  assert (calls_ok B2 hB1 = true /\
          replay B2 hB1 q1 = have1 /\
          (forall q2, p2 v0 = Some q2 -> replay B2 hB1 q2 = have2) /\
          (forall p, p <> q1 -> p2 v0 <> Some p -> replay B2 hB1 p = h p))
    as (HokB2 & HrB2q1 & HrB2q2 & HoB2).
  { subst B2. destruct (p2 v0) as [q2 |] eqn:Hp2v.
    - assert (q2 <> q1) as Hq by congruence.
      assert (hB1 q2 = have_locks2 v0) as HhB1q2.
      { rewrite HoB1 by done. by apply Hhold2. }
      destruct (unlock_phase_holds is_managed q2 mask have2 hB1)
        as (Hok & Hr & Ho & _); [by rewrite HhB1q2 |].
      rewrite HhB1q2 in Hok, Hr, Ho. fold u2 have2 in Hok, Hr, Ho.
      split_and!; try done.
      + rewrite Ho by done. done.
      + intros ? [= <-]. done.
      + intros p Hpq1 Hpq2. rewrite Ho by congruence. by apply HoB1.
    - cbn [unlock_phase_calls replay fold_left calls_ok]. split_and!; try done.
      intros p Hpq1 _. by apply HoB1. }
  set (hB2 := replay B2 hB1) in *.
  (* the lock checker's second look *)
  destruct (lc_chk_holds lock_check v1 hB2) as [HokC HrC].
  { split; subst v1; vars_simpl.
    - intros q Hq. rewrite Hp1 in Hq. injection Hq as <-. done.
    - done. }
  (* the locking loop *)
  destruct (runs_holds q1 (p2 v0) k _ _ new Hruns Hp2) with (h := hB2)
    as (HokL & HrLq1 & HrLq2 & HoL).
  { apply is_locks_lor; [by apply is_locks_land |].
    unfold u1. rewrite Z.land_comm. by apply is_locks_land. }
  { apply is_locks_lor; [by apply is_locks_land |].
    unfold u2. rewrite Z.land_comm. by apply is_locks_land. }
  { intros i Hi. rewrite !bit_lor. unfold u1, u2. rewrite !bit_land.
    destruct (Hlow i Hi) as [-> ->].
    destruct (bit mask i) eqn:Hm; [| done]. apply Hmlow in Hm. lia. }
  { rewrite HrB2q1. apply Z.land_nonneg. left. apply Hwh1. }
  { intros q2 Hq2. rewrite (HrB2q2 q2 Hq2). apply Z.land_nonneg. left. apply Hwh2. }
  { rewrite HrB2q1. by apply land_unlock_disjoint. }
  { intros q2 Hq2. rewrite (HrB2q2 q2 Hq2). by apply land_unlock_disjoint. }
  set (L := map lock_call_of new) in *.
  set (hL := replay L hB2) in *.
  (* the lock checker's last look, and the reference counts *)
  destruct (lc_chk_holds lock_check v2 hL) as [HokD HrD].
  { split; subst v2; vars_simpl.
    - intros q Hq. rewrite Hp1 in Hq. injection Hq as <-.
      rewrite HrLq1, HrB2q1. by apply lor_unlock_relock.
    - intros q2 Hq2. rewrite (HrLq2 q2 Hq2), (HrB2q2 q2 Hq2). by apply lor_unlock_relock. }
  set (E1 := dec_refc_calls _ (p1 v0)). set (E2 := dec_refc_calls _ (p2 v0)).
  destruct (dec_refc_holds (negb is_managed
              && (truthy u1 && (negb is_managed && negb (truthy have1)))) (p1 v0) hL)
    as (HokE1 & HrE1 & HlE1).
  destruct (dec_refc_holds (negb is_managed
              && (truthy u2 && (negb is_managed && negb (truthy have2)))) (p2 v0) hL)
    as (HokE2 & HrE2 & HlE2).
  fold E1 in HokE1, HrE1, HlE1. fold E2 in HokE2, HrE2, HlE2.
  assert (replay ((lc_chk_calls lock_check v0 ++ B1 ++ B2 ++ lc_chk_calls lock_check v1)
                  ++ L ++ lc_chk_calls lock_check v2 ++ E1 ++ E2) h = hL) as Hall.
  { rewrite !replay_app, HrA. fold hB1. fold hB2. rewrite HrC. fold hL.
    rewrite HrD, HrE1, HrE2. done. }
  split_and!.
  - rewrite !calls_ok_app, !replay_app, HokA, HrA. fold hB1. rewrite HokB1.
    fold hB2. rewrite HokB2, HokC, HrC. fold hL. rewrite HokL, HokD, HrD, HokE1, HrE1.
    rewrite HokE2. reflexivity.
  - rewrite Hall, HrLq1, HrB2q1. by apply lor_unlock_relock.
  - intros q2 Hq2. rewrite Hall, (HrLq2 q2 Hq2), (HrB2q2 q2 Hq2).
    by apply lor_unlock_relock.
  - intros p Hpq1 Hpq2. rewrite Hall, HoL by done. by apply HoB2.
  - rewrite !lock_calls_app, !lock_calls_lc_chk, HlE1, HlE2.
    unfold B1, B2. rewrite !lock_calls_unlock_phase. unfold L.
    rewrite lock_calls_of_map. cbn [app]. by rewrite !app_nil_r.
Qed.

Lemma safelock_order_cases (procs : proc_ptr -> Process)
    (a_proc : option proc_ptr) (a_have_locks a_need_locks : ErtsProcLocks)
    (b : proc_ptr) (b_have_locks b_need_locks : ErtsProcLocks) :
  (forall a, a_proc = Some a ->
     common_id (procs a) = common_id (procs b) -> a = b) ->
  let v0 := safelock_order procs a_proc a_have_locks a_need_locks
              b b_have_locks b_need_locks in
  (a_proc = None /\
   v0 = mk_vars (Some b) (common_id (procs b)) b_need_locks b_have_locks None 0 0 0) \/
  (a_proc = Some b /\
   v0 = mk_vars (Some b) (common_id (procs b))
          (Z.lor a_need_locks b_need_locks) (Z.lor a_have_locks b_have_locks)
          None 0 0 0) \/
  (exists a, a_proc = Some a /\ a <> b /\
     common_id (procs a) < common_id (procs b) /\
     v0 = mk_vars (Some a) (common_id (procs a)) a_need_locks a_have_locks
            (Some b) (common_id (procs b)) b_need_locks b_have_locks) \/
  (exists a, a_proc = Some a /\ a <> b /\
     common_id (procs b) < common_id (procs a) /\
     v0 = mk_vars (Some b) (common_id (procs b)) b_need_locks b_have_locks
            (Some a) (common_id (procs a)) a_need_locks a_have_locks).
Proof.
  intros Huniq v0. unfold v0, safelock_order.
  destruct a_proc as [a |]; [| by left].
  destruct (Z.ltb_spec (common_id (procs a)) (common_id (procs b))) as [Hlt | Hge].
  - right. right. left. exists a. split_and!; try done. intros ->. lia.
  - destruct (Z.gtb_spec (common_id (procs a)) (common_id (procs b))) as [Hgt | Hle].
    + right. right. right. exists a. split_and!; try done. intros ->. lia.
    + right. left. assert (a = b) as -> by (apply Huniq; [done | lia]). done.
Qed.

Lemma lor_subset (a b : Z) : subset_locks a b -> Z.lor a b = b.
Proof.
  unfold subset_locks. intros <-. apply Z.bits_inj'. intros i _.
  rewrite Z.lor_spec, Z.land_spec. destruct (Z.testbit b i), (Z.testbit a i); done.
Qed.

Lemma subset_lor (a b c d : Z) :
  subset_locks a b -> subset_locks c d -> subset_locks (Z.lor a c) (Z.lor b d).
Proof.
  unfold subset_locks. intros Hab Hcd. apply Z.bits_inj'. intros i _.
  rewrite <- Hab, <- Hcd. rewrite !Z.land_spec, !Z.lor_spec, !Z.land_spec.
  destruct (Z.testbit a i), (Z.testbit b i), (Z.testbit c i), (Z.testbit d i); done.
Qed.

Lemma subset_is_locks (a b : Z) : subset_locks a b -> is_locks b -> is_locks a.
Proof. unfold subset_locks. intros <- Hb. by apply is_locks_land. Qed.

Lemma subset_0 : subset_locks 0 0.
Proof. done. Qed.

Lemma proc_safelock_canonical (lock_check : bool) (procs : proc_ptr -> Process)
    (is_managed : bool)
    (a_proc : option proc_ptr) (a_have_locks a_need_locks : ErtsProcLocks)
    (b : proc_ptr) (b_have_locks b_need_locks : ErtsProcLocks) :
  let v0 := safelock_order procs a_proc a_have_locks a_need_locks
              b b_have_locks b_need_locks in
  is_locks a_have_locks -> is_locks a_need_locks ->
  is_locks b_have_locks -> is_locks b_need_locks ->
  subset_locks (have_locks1 v0) (need_locks1 v0) ->
  subset_locks (have_locks2 v0) (need_locks2 v0) ->
  exists q1 calls,
    p1 v0 = Some q1 /\ p2 v0 <> Some q1 /\
    proc_safelock lock_check procs is_managed
      a_proc a_have_locks a_need_locks (Some b) b_have_locks b_need_locks
    = Ok (mk_vars (p1 v0) (pid1 v0) 0 (need_locks1 v0)
                  (p2 v0) (pid2 v0) 0 (need_locks2 v0), calls) /\
    (forall h, holds h v0 ->
       calls_ok calls h = true /\
       replay calls h q1 = need_locks1 v0 /\
       (forall q2, p2 v0 = Some q2 -> replay calls h q2 = need_locks2 v0) /\
       (forall p, p <> q1 -> p2 v0 <> Some p -> replay calls h p = h p)) /\
    strictly_ascending (acquisitions (Some q1) (lock_calls calls)) = true /\
    alternating (lock_calls calls) = true.
Proof.
  intros v0 Hah Han Hbh Hbn Hs1 Hs2.
  destruct (safelock_order_facts procs a_proc a_have_locks a_need_locks
              b b_have_locks b_need_locks Hah Han Hbh Hbn)
    as (q1' & Hp1' & Hp2 & Hnone & Hn1 & Hh1 & Hn2 & Hh2).
  fold v0 in Hp1', Hp2, Hnone, Hn1, Hh1, Hn2, Hh2.
  destruct (proc_safelock_general lock_check procs is_managed
              a_proc a_have_locks a_need_locks b b_have_locks b_need_locks
              Hah Han Hbh Hbn ltac:(done))
    as (q1 & mask & k & new & Hp1 & Hrange & Hk & Hlow & Hhit & Hmbits & Hruns & Hsafe).
  fold v0 in Hp1, Hrange, Hlow, Hhit, Hruns, Hsafe. cbn zeta in Hruns, Hsafe.
  assert (q1' = q1) as -> by congruence.
  rewrite !lor_subset in Hsafe by done.
  assert (forall i, bit mask i = true -> (k <= i)%nat) as Hmlow.
  { intros i. rewrite Hmbits.
    intros [_ Hb]%andb_true_iff. revert Hb. nat_bools; try done; lia. }
  assert (is_locks (Z.lor (Z.land (need_locks1 v0) (wnot (have_locks1 v0)))
                          (Z.land mask (have_locks1 v0)))) as Hl1'.
  { apply is_locks_lor; [by apply is_locks_land |].
    rewrite Z.land_comm. by apply is_locks_land. }
  assert (is_locks (Z.lor (Z.land (need_locks2 v0) (wnot (have_locks2 v0)))
                          (Z.land mask (have_locks2 v0)))) as Hl2'.
  { apply is_locks_lor; [by apply is_locks_land |].
    rewrite Z.land_comm. by apply is_locks_land. }
  exists q1, (safelock_calls lock_check is_managed v0 mask new).
  split_and!; try done.
  - intros h Hholds.
    destruct (safelock_calls_effect lock_check is_managed v0 mask k new q1 h)
      as (Hok & Hr1 & Hr2 & Hro & _); try done.
    rewrite !lor_subset in * by done. done.
  - destruct (safelock_calls_effect lock_check is_managed v0 mask k new q1
                (fun p => if decide (p = q1) then have_locks1 v0 else have_locks2 v0))
      as (_ & _ & _ & _ & ->); try done.
    + split; intros q Hq.
      * rewrite decide_True; [done | congruence].
      * rewrite decide_False; [done | congruence].
    + apply strictly_ascending_sorted. by eapply runs_sorted.
  - destruct (safelock_calls_effect lock_check is_managed v0 mask k new q1
                (fun p => if decide (p = q1) then have_locks1 v0 else have_locks2 v0))
      as (_ & _ & _ & _ & ->); try done.
    + split; intros q Hq.
      * rewrite decide_True; [done | congruence].
      * rewrite decide_False; [done | congruence].
    + by eapply runs_alternating.
Qed.

(** C2: every call of [proc_safelock] with [b_proc] present ([a_proc]
    absent, equal to [b_proc] or another process) in which what is held is
    part of what is needed returns; on return the caller holds exactly
    [a_need_locks] on [a_proc] and [b_need_locks] on [b_proc] (their union
    when both are the same process), both in the function's own variables
    and as the effect of its lock and unlock calls, every one of which
    respects the contract of its operation; the process with the lower
    identifier is bound to [p1] (equal identifiers merge the masks on [p1]
    and leave [p2] absent); and the single locks are acquired in ascending
    lock order, on [p1] before [p2] for the same lock number, in calls that
    alternate between the two processes. *)
Theorem proc_safelock_correct (lock_check : bool) (procs : proc_ptr -> Process)
    (is_managed : bool)
    (a_proc : option proc_ptr) (a_have_locks a_need_locks : ErtsProcLocks)
    (b_proc : proc_ptr) (b_have_locks b_need_locks : ErtsProcLocks) :
  is_locks a_need_locks -> is_locks b_need_locks ->
  subset_locks a_have_locks a_need_locks ->
  subset_locks b_have_locks b_need_locks ->
  (forall a, a_proc = Some a ->
     common_id (procs a) = common_id (procs b_proc) -> a = b_proc) ->
  exists v calls,
    proc_safelock lock_check procs is_managed
      a_proc a_have_locks a_need_locks (Some b_proc) b_have_locks b_need_locks
    = Ok (v, calls) /\
    bound_in_order procs a_proc b_proc v /\
    need_locks1 v = 0 /\ need_locks2 v = 0 /\
    safelock_final_asserts a_proc a_need_locks b_need_locks v = true /\
    (forall h, caller_holds h a_proc a_have_locks b_proc b_have_locks ->
       calls_ok calls h = true /\
       caller_holds (replay calls h) a_proc a_need_locks b_proc b_need_locks /\
       (forall p, a_proc <> Some p -> p <> b_proc -> replay calls h p = h p)) /\
    strictly_ascending (acquisitions (p1 v) (lock_calls calls)) = true /\
    alternating (lock_calls calls) = true.
Proof.
  intros Han Hbn Hsa Hsb Huniq.
  pose proof (subset_is_locks _ _ Hsa Han) as Hah.
  pose proof (subset_is_locks _ _ Hsb Hbn) as Hbh.
  pose proof (proc_safelock_canonical lock_check procs is_managed
                a_proc a_have_locks a_need_locks b_proc b_have_locks b_need_locks
                Hah Han Hbh Hbn) as Hcanon.
  cbn zeta in Hcanon.
  destruct (safelock_order_cases procs a_proc a_have_locks a_need_locks
              b_proc b_have_locks b_need_locks Huniq)
    as [[-> Hv0] | [[-> Hv0] | [(a & -> & Hab & Hid & Hv0) | (a & -> & Hab & Hid & Hv0)]]];
    rewrite Hv0 in Hcanon; vars_simpl;
    (destruct Hcanon as (q1 & calls & [= <-] & _ & Hsafe & Heff & Hasc & Halt);
     [first [done | by apply subset_lor] | first [done | apply subset_0] |]);
    eexists _, calls; (split; [exact Hsafe |]); vars_simpl.
  - (* a_proc absent *)
    split_and!; try done.
    + cbn. by rewrite Z.eqb_refl.
    + intros h Hh. cbn [caller_holds] in *.
      destruct (Heff h) as (Hok & Hr1 & _ & Hro).
      { split; vars_simpl; [by intros ? [= <-] | done]. }
      split_and!; try done. intros p _ Hp. by apply Hro.
  - (* a_proc and b_proc are the same process *)
    split_and!; try done.
    + unfold bound_in_order. rewrite decide_True by done. done.
    + cbn. by rewrite Z.eqb_refl.
    + intros h Hh. cbn [caller_holds] in *. rewrite decide_True in * by done.
      destruct (Heff h) as (Hok & Hr1 & _ & Hro).
      { split; vars_simpl; [by intros ? [= <-] | done]. }
      split_and!; try done. intros p _ Hp. by apply Hro.
  - (* a_proc has the lower identifier *)
    split_and!; try done.
    + unfold bound_in_order. rewrite decide_False by lia. rewrite decide_True by done.
      done.
    + cbn. rewrite bool_decide_eq_true_2 by done. by rewrite !Z.eqb_refl.
    + intros h Hh. cbn [caller_holds] in *. rewrite decide_False in * by done.
      destruct Hh as [Hha Hhb].
      destruct (Heff h) as (Hok & Hr1 & Hr2 & Hro).
      { split; vars_simpl; by intros ? [= <-]. }
      split_and!; try done; [by apply Hr2 |].
      intros p Hpa Hpb. apply Hro; congruence.
  - (* b_proc has the lower identifier *)
    split_and!; try done.
    + unfold bound_in_order. rewrite decide_False by lia. rewrite decide_False by lia.
      done.
    + cbn. rewrite bool_decide_eq_false_2 by congruence. by rewrite !Z.eqb_refl.
    + intros h Hh. cbn [caller_holds] in *. rewrite decide_False in * by done.
      destruct Hh as [Hha Hhb].
      destruct (Heff h) as (Hok & Hr1 & Hr2 & Hro).
      { split; vars_simpl; by intros ? [= <-]. }
      split_and!; try done; [by apply Hr2 |].
      intros p Hpa Hpb. apply Hro; congruence.
Qed.

Lemma unlock_calls_app (c1 c2 : list lock_call) :
  unlock_calls (c1 ++ c2) = unlock_calls c1 ++ unlock_calls c2.
Proof. apply omap_app. Qed.

Lemma unlock_calls_lc_chk (lock_check : bool) (v : safelock_vars) :
  unlock_calls (lc_chk_calls lock_check v) = [].
Proof. unfold lc_chk_calls. destruct lock_check, (p1 v), (p2 v); done. Qed.

Lemma unlock_calls_unlock_phase (is_managed : bool) (p : option proc_ptr) (u rest : Z) :
  unlock_calls (unlock_phase_calls is_managed p u rest) = unlock_call_for p u.
Proof.
  unfold unlock_phase_calls, unlock_call_for.
  destruct p; [| done]. destruct (truthy u); [| done].
  destruct (negb is_managed && negb (truthy rest)); done.
Qed.

Lemma unlock_calls_of_map (new : list (proc_ptr * ErtsProcLocks)) :
  unlock_calls (map lock_call_of new) = [].
Proof. induction new as [| [p m] new IH]; [done |]. cbn [map]. apply IH. Qed.

Lemma unlock_calls_dec_refc (cond : bool) (p : option proc_ptr) :
  unlock_calls (dec_refc_calls cond p) = [].
Proof. unfold dec_refc_calls. destruct cond, p; done. Qed.

(** Every lock that is needed when the locking loop starts is taken by one
    of its lock calls. *)
Lemma runs_complete (q1 : proc_ptr) (p2o : option proc_ptr)
    (k : nat) (need1 need2 : ErtsProcLocks) (l : list (proc_ptr * ErtsProcLocks)) :
  runs q1 p2o k need1 need2 l ->
  is_locks need1 -> is_locks need2 ->
  (forall i, (i < k)%nat -> bit need1 i = false /\ bit need2 i = false) ->
  (forall i, bit need1 i = true -> exists m, (q1, m) ∈ l /\ bit m i = true) /\
  (forall i, bit need2 i = true ->
     exists q2 m, p2o = Some q2 /\ (q2, m) ∈ l /\ bit m i = true).
Proof.
  induction 1 as
    [ need1 need2
    | k need1 need2 l Hk Hn1 Hn2 Hruns IH
    | k j need1 need2 locks l Hj Hn1 Hrun Hhit Hlocks Hbits Hruns IH
    | k j need1 need2 locks q2 l Hq2 Hj Hn1 Hn2 Hrun Hhit Hlocks Hbits Hruns IH ];
    intros Hl1 Hl2 Hlow.
  - assert (need1 = 0) as -> by (apply locks_exhausted; [done |]; intros; by apply Hlow).
    assert (need2 = 0) as -> by (apply locks_exhausted; [done |]; intros; by apply Hlow).
    split; intros i Hi; by rewrite bit_0 in Hi.
  - apply IH; try done.
    intros i Hi. destruct (decide (i = k)) as [-> | Hik]; [done |]. apply Hlow. lia.
  - pose proof (is_locks_word _ Hl1) as Hw1.
    destruct IH as [IH1 IH2]; [by apply is_locks_land | done | |].
    { intros i Hi. rewrite bit_land_wnot, Hbits by done.
      destruct (decide (i < k)%nat) as [Hik | Hik].
      { destruct (Hlow i Hik) as [-> ->]. done. }
      assert (i <= j)%nat as Hij by (destruct (bit need2 j); lia).
      split.
      - destruct (bit need1 i); [| done]. nat_bools; try done; lia.
      - destruct (decide (i = j)) as [-> | Hne']; [| apply Hrun; lia].
        destruct (bit need2 j); [lia | done]. }
    split.
    + intros i Hi. destruct (bit locks i) eqn:Hli.
      * exists locks. split; [apply list_elem_of_here | done].
      * destruct (IH1 i) as (m & Hm & Hmi).
        { rewrite bit_land_wnot, Hi, Hli by done. done. }
        exists m. split; [by apply list_elem_of_further | done].
    + intros i Hi. destruct (IH2 i Hi) as (q2 & m & Hq2 & Hm & Hmi).
      exists q2, m. split_and!; [done | by apply list_elem_of_further | done].
  - pose proof (is_locks_word _ Hl2) as Hw2.
    destruct IH as [IH1 IH2]; [done | by apply is_locks_land | |].
    { intros i Hi. rewrite bit_land_wnot, Hbits by done.
      destruct (decide (i < k)%nat) as [Hik | Hik].
      { destruct (Hlow i Hik) as [-> ->]. done. }
      split; [apply Hrun; lia |].
      destruct (bit need2 i); [| done]. nat_bools; try done; lia. }
    split.
    + intros i Hi. destruct (IH1 i Hi) as (m & Hm & Hmi).
      exists m. split; [by apply list_elem_of_further | done].
    + intros i Hi. destruct (bit locks i) eqn:Hli.
      * exists q2, locks. split_and!; [done | apply list_elem_of_here | done].
      * destruct (IH2 i) as (q2' & m & Hq2' & Hm & Hmi).
        { rewrite bit_land_wnot, Hi, Hli by done. done. }
        exists q2', m. split_and!; [done | by apply list_elem_of_further | done].
Qed.

(** C1 (as amended): in [proc_safelock], [unlock_mask] is the set of all
    locks at or above the lowest lock that either process still needs, that
    lowest lock itself being in the mask only when [p1] still needs it;
    exactly the held locks inside the mask are unlocked (one
    [erts_proc_unlock] per process, none for an empty set) and added back
    to the needed locks of their process, and all of this happens before
    the locking loop makes its first lock call. *)
Theorem safelock_unlock_mask_spec (lock_check : bool) (procs : proc_ptr -> Process)
    (is_managed : bool)
    (a_proc : option proc_ptr) (a_have_locks a_need_locks : ErtsProcLocks)
    (b_proc : proc_ptr) (b_have_locks b_need_locks : ErtsProcLocks) :
  let v0 := safelock_order procs a_proc a_have_locks a_need_locks
              b_proc b_have_locks b_need_locks in
  let need1 := Z.land (need_locks1 v0) (wnot (have_locks1 v0)) in
  let need2 := Z.land (need_locks2 v0) (wnot (have_locks2 v0)) in
  is_locks a_have_locks -> is_locks a_need_locks ->
  is_locks b_have_locks -> is_locks b_need_locks ->
  (lock_check = true ->
   subset_locks (have_locks1 v0) (need_locks1 v0) /\
   subset_locks (have_locks2 v0) (need_locks2 v0)) ->
  exists v1 lock_no refc1 refc2 unlock_mask calls,
    safelock_unlock_phase lock_check procs is_managed
      a_proc a_have_locks a_need_locks (Some b_proc) b_have_locks b_need_locks
    = Ok (v1, lock_no, refc1, refc2, unlock_mask, calls) /\
    (* lock_no is the lowest lock that either process still needs *)
    (lock_no <= S ERTS_PROC_LOCK_MAX_BIT)%nat /\
    (forall i, (i < lock_no)%nat -> bit need1 i = false /\ bit need2 i = false) /\
    ((lock_no <= ERTS_PROC_LOCK_MAX_BIT)%nat ->
     bit need1 lock_no = true \/ bit need2 lock_no = true) /\
    (* the mask: the locks above it, and the lock itself if p1 needs it *)
    (forall i, bit unlock_mask i = true <->
       (i <= ERTS_PROC_LOCK_MAX_BIT)%nat /\
       (lock_no < i \/ (i = lock_no /\ bit need1 i = true))%nat) /\
    (* exactly the held locks inside the mask are unlocked and needed again *)
    unlock_calls calls =
      unlock_call_for (p1 v0) (Z.land unlock_mask (have_locks1 v0))
      ++ unlock_call_for (p2 v0) (Z.land unlock_mask (have_locks2 v0)) /\
    have_locks1 v1 = Z.ldiff (have_locks1 v0) unlock_mask /\
    have_locks2 v1 = Z.ldiff (have_locks2 v0) unlock_mask /\
    need_locks1 v1 = Z.lor need1 (Z.land unlock_mask (have_locks1 v0)) /\
    need_locks2 v1 = Z.lor need2 (Z.land unlock_mask (have_locks2 v0)) /\
    (* before the locking loop *)
    lock_calls calls = [].
Proof.
  intros v0 need1 need2 Hah Han Hbh Hbn Hlc.
  destruct (safelock_order_facts procs a_proc a_have_locks a_need_locks
              b_proc b_have_locks b_need_locks Hah Han Hbh Hbn)
    as (q1 & Hp1 & Hp2 & Hnone & Hn1 & Hh1 & Hn2 & Hh2).
  fold v0 in Hp1, Hp2, Hnone, Hn1, Hh1, Hn2, Hh2.
  pose proof (is_locks_word _ Hh1) as Hwh1. pose proof (is_locks_word _ Hh2) as Hwh2.
  destruct (safelock_unlock_phase_spec lock_check procs is_managed
              a_proc a_have_locks a_need_locks b_proc b_have_locks b_need_locks
              Hwh1 Hwh2 ltac:(intros; by apply Hnone) Hlc)
    as (mask & k & Hrange & Hphase).
  fold v0 need1 need2 in Hrange, Hphase. cbn zeta in Hphase.
  destruct (unlock_range_spec (S ERTS_PROC_LOCK_MAX_BIT) safelock_fuel 0 need1 need2
              ERTS_PROC_LOCKS_ALL ltac:(lia) ltac:(unfold safelock_fuel; lia)
              locks_all_word)
    as (mask' & k' & Hrange' & Hk & Hlow & Hhit & Hmw & Hmbits).
  rewrite Hrange in Hrange'. injection Hrange' as <- <-.
  assert (forall h, is_word h ->
            Z.land h (wnot (Z.land mask h)) = Z.ldiff h mask) as Hdiff.
  { intros h Hh. rewrite land_wnot by done. apply Z.bits_inj'. intros i _.
    rewrite !Z.ldiff_spec, Z.land_spec.
    destruct (Z.testbit h i), (Z.testbit mask i); done. }
  eexists _, k, _, _, mask, _. split; [exact Hphase |]. vars_simpl.
  split_and!; try done.
  - lia.
  - intros i Hi. apply Hlow. lia.
  - intros i. rewrite Hmbits, bit_locks_all.
    destruct (bit need1 i) eqn:Hb; nat_bools; cbn [andb orb]; split;
      try done; try lia; try (intros [_ [? | [? ?]]]; (done || lia)).
    all: intros _; split; [done |]; lia.
  - rewrite !unlock_calls_app, !unlock_calls_lc_chk, !unlock_calls_unlock_phase.
    by rewrite app_nil_r.
  - by apply Hdiff.
  - by apply Hdiff.
  - rewrite !lock_calls_app, !lock_calls_lc_chk, !lock_calls_unlock_phase. done.
Qed.

(** C1 as first stated does not hold.  With locks 0 and 2 held and locks
    0, 1 and 2 needed on a single process, only lock 1 is still needed; the
    mask of the locks strictly below it is {0}, but the code computes
    {1,2,3,4}: it keeps lock 0 and releases lock 2. *)
Lemma unlock_mask_not_below_lowest_needed :
  safelock_unlock_phase false example_procs true None 0 0 (Some 3%nat) 5 7
    = Ok (mk_vars (Some 3%nat) 3 6 1 None 0 0 0, 1%nat, false, false, 30,
          [Call_unlock 3%nat 4]) /\
  spec_unlock_mask (Z.land 7 (wnot 5)) 0 = 1 /\
  30 <> spec_unlock_mask (Z.land 7 (wnot 5)) 0.
Proof. split; [reflexivity |]. split; [reflexivity | discriminate]. Qed.

Lemma safelock_unlock_mask_spec_witness :
  exists v1 lock_no refc1 refc2 unlock_mask calls,
    safelock_unlock_phase true example_procs false
      (Some 7%nat) 0 3 (Some 3%nat) 4 5
    = Ok (v1, lock_no, refc1, refc2, unlock_mask, calls) /\
    lock_no = 0%nat /\ unlock_mask = 31 /\
    unlock_calls calls = [(3%nat, 4)] /\ need_locks1 v1 = 5.
Proof.
  destruct (safelock_unlock_mask_spec true example_procs false
              (Some 7%nat) 0 3 3%nat 4 5
              eq_refl eq_refl eq_refl eq_refl (fun _ => conj eq_refl eq_refl))
    as (v1 & lock_no & refc1 & refc2 & unlock_mask & calls & Hphase & _ & _ & _ & _
        & Hunlock & _ & _ & Hneed & _).
  exists v1, lock_no, refc1, refc2, unlock_mask, calls.
  split; [exact Hphase |].
  vm_compute in Hphase. injection Hphase as <- <- <- <- <- <-.
  repeat split.
Defined.

Lemma proc_safelock_correct_witness :
  exists v calls,
    proc_safelock true example_procs false
      (Some 7%nat) 0 3 (Some 3%nat) 4 5 = Ok (v, calls) /\
    bound_in_order example_procs (Some 7%nat) 3%nat v /\
    have_locks1 v = 5 /\ have_locks2 v = 3 /\
    lock_calls calls = [(3%nat, 1); (7%nat, 3); (3%nat, 4)] /\
    strictly_ascending (acquisitions (p1 v) (lock_calls calls)) = true /\
    alternating (lock_calls calls) = true.
Proof.
  destruct (proc_safelock_correct true example_procs false
              (Some 7%nat) 0 3 3%nat 4 5 eq_refl eq_refl eq_refl eq_refl)
    as (v & calls & Hsafe & Hbound & _ & _ & _ & _ & Hasc & Halt).
  { intros a [= <-]. vm_compute. discriminate. }
  exists v, calls. split; [exact Hsafe |]. split; [exact Hbound |].
  vm_compute in Hsafe. injection Hsafe as <- <-.
  repeat split.
Defined.

(** ** proc_safelock: the caller contract *)

(** C10: [proc_safelock] takes it as a contract of the caller that what is
    held is part of what is needed: in a lock-check build a call that
    breaks the contract is stopped by [erts_lc_fail], naming the process
    concerned.  Within the contract, and in other builds whatever the
    masks, the call returns and no lock is lost: every lock it unlocks is
    locked again on the same process by a later call (all unlock calls
    come before all lock calls), and in the end the caller holds what it
    held together with what it needed. *)
Theorem proc_safelock_contract (lock_check : bool) (procs : proc_ptr -> Process)
    (is_managed : bool)
    (a_proc : option proc_ptr) (a_have_locks a_need_locks : ErtsProcLocks)
    (b_proc : proc_ptr) (b_have_locks b_need_locks : ErtsProcLocks) :
  let v0 := safelock_order procs a_proc a_have_locks a_need_locks
              b_proc b_have_locks b_need_locks in
  is_locks a_have_locks -> is_locks a_need_locks ->
  is_locks b_have_locks -> is_locks b_need_locks ->
  (~ subset_locks (have_locks1 v0) (need_locks1 v0) ->
   proc_safelock true procs is_managed
     a_proc a_have_locks a_need_locks (Some b_proc) b_have_locks b_need_locks
   = LcFail (pid1 v0)) /\
  (subset_locks (have_locks1 v0) (need_locks1 v0) ->
   ~ subset_locks (have_locks2 v0) (need_locks2 v0) ->
   proc_safelock true procs is_managed
     a_proc a_have_locks a_need_locks (Some b_proc) b_have_locks b_need_locks
   = LcFail (pid2 v0)) /\
  ((lock_check = true ->
    subset_locks (have_locks1 v0) (need_locks1 v0) /\
    subset_locks (have_locks2 v0) (need_locks2 v0)) ->
   exists v calls,
     proc_safelock lock_check procs is_managed
       a_proc a_have_locks a_need_locks (Some b_proc) b_have_locks b_need_locks
     = Ok (v, calls) /\
     have_locks1 v = Z.lor (have_locks1 v0) (need_locks1 v0) /\
     have_locks2 v = Z.lor (have_locks2 v0) (need_locks2 v0) /\
     (forall p u i, (p, u) ∈ unlock_calls calls -> bit u i = true ->
        exists m, (p, m) ∈ lock_calls calls /\ bit m i = true) /\
     (exists pre post,
        calls = pre ++ post /\ lock_calls pre = [] /\ unlock_calls post = []) /\
     (forall h, holds h v0 -> forall i p,
        bit (h p) i = true -> bit (replay calls h p) i = true)).
Proof.
  intros v0 Hah Han Hbh Hbn.
  split_and!.
  - intros Hns. unfold proc_safelock, safelock_unlock_phase.
    cbn [deref mbind result_bind]. fold v0.
    destruct (Z.eqb_spec (Z.land (need_locks1 v0) (have_locks1 v0)) (have_locks1 v0));
      done.
  - intros Hs Hns. unfold proc_safelock, safelock_unlock_phase.
    cbn [deref mbind result_bind]. fold v0.
    destruct (Z.eqb_spec (Z.land (need_locks1 v0) (have_locks1 v0)) (have_locks1 v0));
      [| done].
    destruct (Z.eqb_spec (Z.land (need_locks2 v0) (have_locks2 v0)) (have_locks2 v0));
      done.
  - intros Hlc.
    destruct (safelock_order_facts procs a_proc a_have_locks a_need_locks
                b_proc b_have_locks b_need_locks Hah Han Hbh Hbn)
      as (q1' & Hp1' & Hp2 & Hnone & Hn1 & Hh1 & Hn2 & Hh2).
    fold v0 in Hp1', Hp2, Hnone, Hn1, Hh1, Hn2, Hh2.
    pose proof (is_locks_word _ Hh1) as Hwh1. pose proof (is_locks_word _ Hh2) as Hwh2.
    pose proof (is_locks_word _ Hn1) as Hwn1. pose proof (is_locks_word _ Hn2) as Hwn2.
    destruct (proc_safelock_general lock_check procs is_managed
                a_proc a_have_locks a_need_locks b_proc b_have_locks b_need_locks
                Hah Han Hbh Hbn Hlc)
      as (q1 & mask & k & new & Hp1 & Hrange & Hk & Hlow & Hhit & Hmbits & Hruns & Hsafe).
    fold v0 in Hp1, Hrange, Hlow, Hhit, Hruns, Hsafe. cbn zeta in Hruns, Hsafe.
    assert (q1' = q1) as -> by congruence.
    assert (forall i, bit mask i = true -> (k <= i)%nat) as Hmlow.
    { intros i. rewrite Hmbits.
      intros [_ Hb]%andb_true_iff. revert Hb. nat_bools; try done; lia. }
    set (need1 := Z.land (need_locks1 v0) (wnot (have_locks1 v0))) in *.
    set (need2 := Z.land (need_locks2 v0) (wnot (have_locks2 v0))) in *.
    set (u1 := Z.land mask (have_locks1 v0)) in *.
    set (u2 := Z.land mask (have_locks2 v0)) in *.
    assert (is_locks (Z.lor need1 u1)) as Hl1'.
    { apply is_locks_lor; [by apply is_locks_land |].
      unfold u1. rewrite Z.land_comm. by apply is_locks_land. }
    assert (is_locks (Z.lor need2 u2)) as Hl2'.
    { apply is_locks_lor; [by apply is_locks_land |].
      unfold u2. rewrite Z.land_comm. by apply is_locks_land. }
    assert (forall i, (i < k)%nat ->
              bit (Z.lor need1 u1) i = false /\ bit (Z.lor need2 u2) i = false) as Hlow'.
    { intros i Hi. rewrite !bit_lor. unfold u1, u2. rewrite !bit_land.
      destruct (Hlow i Hi) as [-> ->].
      destruct (bit mask i) eqn:Hm; [| done]. apply Hmlow in Hm. lia. }
    destruct (runs_complete _ _ _ _ _ _ Hruns Hl1' Hl2' Hlow') as [Hc1 Hc2].
    assert (forall h, holds h v0 ->
              lock_calls (safelock_calls lock_check is_managed v0 mask new) = new)
      as Hlocks.
    { intros h Hh.
      by destruct (safelock_calls_effect lock_check is_managed v0 mask k new q1 h)
        as (_ & _ & _ & _ & ->). }
    assert (holds (fun p => if decide (p = q1) then have_locks1 v0 else have_locks2 v0)
                  v0) as Hh0.
    { split; intros q Hq.
      - rewrite decide_True; [done | congruence].
      - rewrite decide_False; [done | congruence]. }
    eexists _, _. split; [exact Hsafe |]. vars_simpl. split_and!; try done.
    + (* every unlocked lock is locked again *)
      intros p u i Hin Hui. rewrite (Hlocks _ Hh0).
      unfold safelock_calls in Hin.
      rewrite !unlock_calls_app, !unlock_calls_lc_chk, !unlock_calls_unlock_phase,
        unlock_calls_of_map, !unlock_calls_dec_refc in Hin.
      cbn [app] in Hin. rewrite !app_nil_r in Hin.
      apply elem_of_app in Hin as [Hin | Hin]; unfold unlock_call_for in Hin.
      * rewrite Hp1 in Hin. fold u1 in Hin.
        destruct (truthy u1); [| by apply elem_of_nil in Hin].
        apply list_elem_of_singleton in Hin as [= -> ->].
        apply Hc1. rewrite bit_lor, Hui. apply orb_true_r.
      * destruct (p2 v0) as [q2 |] eqn:Hp2v; [| by apply elem_of_nil in Hin].
        fold u2 in Hin.
        destruct (truthy u2); [| by apply elem_of_nil in Hin].
        apply list_elem_of_singleton in Hin as [= -> ->].
        destruct (Hc2 i) as (q2' & m & [= <-] & Hm & Hmi).
        { rewrite bit_lor, Hui. apply orb_true_r. }
        by exists m.
    + (* unlock calls come first *)
      eexists _, _. split; [unfold safelock_calls; reflexivity |]. split.
      * rewrite !lock_calls_app, !lock_calls_lc_chk, !lock_calls_unlock_phase. done.
      * rewrite !unlock_calls_app, !unlock_calls_lc_chk, unlock_calls_of_map,
          !unlock_calls_dec_refc. done.
    + (* no lock is lost *)
      intros h Hh i p Hb.
      destruct (safelock_calls_effect lock_check is_managed v0 mask k new q1 h)
        as (_ & Hr1 & Hr2 & Hro & _); try done.
      destruct Hh as [Hhold1 Hhold2].
      destruct (decide (p = q1)) as [-> | Hpq1].
      { rewrite Hr1, bit_lor, <- (Hhold1 q1 Hp1), Hb. done. }
      destruct (decide (p2 v0 = Some p)) as [Hp2p | Hp2p].
      { rewrite (Hr2 p Hp2p), bit_lor, <- (Hhold2 p Hp2p), Hb. done. }
      rewrite Hro by done. done.
Qed.

Lemma proc_safelock_contract_witness :
  proc_safelock true example_procs true
    (Some 7%nat) 0 3 (Some 3%nat) 4 1 = LcFail 3 /\
  exists v calls,
    proc_safelock false example_procs true
      (Some 7%nat) 0 3 (Some 3%nat) 4 1 = Ok (v, calls) /\
    have_locks1 v = 5 /\ have_locks2 v = 3 /\
    unlock_calls calls = [(3%nat, 4)] /\
    lock_calls calls = [(3%nat, 1); (7%nat, 3); (3%nat, 4)].
Proof.
  destruct (proc_safelock_contract false example_procs true
              (Some 7%nat) 0 3 3%nat 4 1 eq_refl eq_refl eq_refl eq_refl)
    as (Hfail1 & _ & Hok).
  split.
  - apply Hfail1. intros H. vm_compute in H. discriminate.
  - destruct Hok as (v & calls & Hsafe & _); [intros [=] |].
    exists v, calls. split; [exact Hsafe |].
    vm_compute in Hsafe. injection Hsafe as <- <-. repeat split.
Defined.

(** ** Wait queues: the pointer structure *)

Lemma upd_next_same w n t :
  upd_next w n t w = mk_tse (uflgs (t w)) (uaflgs (t w)) n (prev (t w)).
Proof. apply fn_lookup_insert. Qed.

Lemma upd_next_other w n t z : z <> w -> upd_next w n t z = t z.
Proof. intros Hz. by apply fn_lookup_insert_ne. Qed.

Lemma upd_prev_same w p t :
  upd_prev w p t w = mk_tse (uflgs (t w)) (uaflgs (t w)) (next (t w)) p.
Proof. apply fn_lookup_insert. Qed.

Lemma upd_prev_other w p t z : z <> w -> upd_prev w p t z = t z.
Proof. intros Hz. by apply fn_lookup_insert_ne. Qed.

Lemma next_upd_next w n t z :
  next (upd_next w n t z) = if decide (z = w) then n else next (t z).
Proof.
  destruct (decide (z = w)) as [-> | Hz].
  - by rewrite upd_next_same.
  - by rewrite upd_next_other.
Qed.

Lemma prev_upd_next w n t z : prev (upd_next w n t z) = prev (t z).
Proof.
  destruct (decide (z = w)) as [-> | Hz].
  - by rewrite upd_next_same.
  - by rewrite upd_next_other.
Qed.

Lemma next_upd_prev w p t z : next (upd_prev w p t z) = next (t z).
Proof.
  destruct (decide (z = w)) as [-> | Hz].
  - by rewrite upd_prev_same.
  - by rewrite upd_prev_other.
Qed.

Lemma prev_upd_prev w p t z :
  prev (upd_prev w p t z) = if decide (z = w) then p else prev (t z).
Proof.
  destruct (decide (z = w)) as [-> | Hz].
  - by rewrite upd_prev_same.
  - by rewrite upd_prev_other.
Qed.

Lemma uflgs_upd_next w n t z : uflgs (upd_next w n t z) = uflgs (t z).
Proof.
  destruct (decide (z = w)) as [-> | Hz].
  - by rewrite upd_next_same.
  - by rewrite upd_next_other.
Qed.

Lemma uflgs_upd_prev w p t z : uflgs (upd_prev w p t z) = uflgs (t z).
Proof.
  destruct (decide (z = w)) as [-> | Hz].
  - by rewrite upd_prev_same.
  - by rewrite upd_prev_other.
Qed.

Lemma uaflgs_upd_next w n t z : uaflgs (upd_next w n t z) = uaflgs (t z).
Proof.
  destruct (decide (z = w)) as [-> | Hz].
  - by rewrite upd_next_same.
  - by rewrite upd_next_other.
Qed.

Lemma uaflgs_upd_prev w p t z : uaflgs (upd_prev w p t z) = uaflgs (t z).
Proof.
  destruct (decide (z = w)) as [-> | Hz].
  - by rewrite upd_prev_same.
  - by rewrite upd_prev_other.
Qed.

(** A path depends on the [next] of all its waiters but the last, and on
    the [prev] of all but the first. *)
Lemma path_frame t t' x l :
  path t x l ->
  (forall z, z ∈ removelast (x :: l) -> next (t' z) = next (t z)) ->
  (forall z, z ∈ l -> prev (t' z) = prev (t z)) ->
  path t' x l.
Proof.
  revert x. induction l as [| y l IH]; intros x Hp Hn Hpr; [done |].
  destruct Hp as [[Hxy Hyx] Hp]. split.
  - split.
    + rewrite Hn; [done |]. cbn [removelast]. apply list_elem_of_here.
    + rewrite Hpr; [done |]. apply list_elem_of_here.
  - apply IH; [done | |].
    + intros z Hz. apply Hn. change (removelast (x :: y :: l)) with (x :: removelast (y :: l)).
      by apply list_elem_of_further.
    + intros z Hz. apply Hpr. by apply list_elem_of_further.
Qed.

Lemma last_cons_default {A} (l : list A) (d y : A) :
  List.last (y :: l) d = List.last l y.
Proof.
  revert d y. induction l as [| z l IH]; intros d y; [done |].
  change (List.last (y :: z :: l) d) with (List.last (z :: l) d).
  change (List.last (z :: l) y) with (List.last (z :: l) y).
  rewrite !IH. done.
Qed.

Lemma path_app t x l w :
  path t x (l ++ [w]) <-> path t x l /\ link t (List.last l x) w.
Proof.
  revert x. induction l as [| y l IH]; intros x; cbn [app path].
  - cbn [List.last]. tauto.
  - rewrite IH, last_cons_default. tauto.
Qed.

Lemma last_in {A} (l : list A) (d : A) : List.last l d ∈ d :: l.
Proof.
  revert d. induction l as [| y l IH]; intros d; [apply list_elem_of_here |].
  rewrite last_cons_default. apply list_elem_of_further, IH.
Qed.

Lemma last_not_in_removelast {A} (l : list A) (d : A) :
  NoDup (d :: l) -> List.last l d ∉ removelast (d :: l).
Proof.
  intros Hnd Hin.
  assert (d :: l <> []) as Hne by done.
  pose proof (app_removelast_last d Hne) as Heq.
  rewrite last_cons_default in Heq. rewrite Heq in Hnd.
  apply NoDup_app in Hnd as (_ & Hdis & _).
  apply (Hdis _ Hin). apply list_elem_of_here.
Qed.

Lemma ring_frame t t' head l :
  ring t head l ->
  (forall z, z ∈ l -> next (t' z) = next (t z) /\ prev (t' z) = prev (t z)) ->
  ring t' head l.
Proof.
  destruct l as [| x l]; [done |]. intros (Hhead & Hpath & [Hln Hlp]) Hsame.
  split; [done |]. split.
  - eapply path_frame; [done | |].
    + intros z Hz. apply Hsame.
      assert (x :: l <> []) as Hne by done.
      rewrite (app_removelast_last x Hne). apply elem_of_app. by left.
    + intros z Hz. apply Hsame. by apply list_elem_of_further.
  - split.
    + destruct (Hsame (List.last l x) (last_in l x)) as [-> _]. done.
    + destruct (Hsame x (list_elem_of_here _ _)) as [_ ->]. done.
Qed.

Lemma ring_enqueue_empty t wtr :
  ring (upd_prev wtr (Some wtr) (upd_next wtr (Some wtr) t)) (Some wtr) [wtr].
Proof.
  cbn [ring path List.last]. split_and!; try done. split.
  - rewrite next_upd_prev, next_upd_next, decide_True; done.
  - rewrite prev_upd_prev, decide_True; done.
Qed.

Lemma ring_enqueue t h l wtr :
  ring t (Some h) (h :: l) -> NoDup (h :: l) -> wtr ∉ h :: l ->
  ring (upd_prev h (Some wtr)
          (upd_next (List.last l h) (Some wtr)
             (upd_prev wtr (Some (List.last l h))
                (upd_next wtr (Some h) t))))
       (Some h) (h :: l ++ [wtr]).
Proof.
  intros (_ & Hpath & [Hln Hlp]) Hnd Hw.
  set (tl := List.last l h) in *.
  assert (tl ∈ h :: l) as Htl by apply last_in.
  assert (tl <> wtr) as Htlw by (intros ->; done).
  assert (h <> wtr) as Hhw by (intros ->; apply Hw, list_elem_of_here).
  cbn [ring]. split; [done |]. rewrite last_last. split.
  - apply path_app. split.
    + eapply path_frame; [exact Hpath | |].
      * intros z Hz.
        assert (z <> tl) as Hztl.
        { intros ->. by apply (last_not_in_removelast l h). }
        assert (z <> wtr) as Hzw.
        { intros ->. apply Hw.
          assert (h :: l <> []) as Hne by done.
          rewrite (app_removelast_last h Hne). apply elem_of_app. by left. }
        rewrite next_upd_prev, next_upd_next, decide_False by done.
        rewrite next_upd_prev, next_upd_next, decide_False by done. done.
      * intros z Hz.
        assert (z <> h) as Hzh.
        { intros ->. apply NoDup_cons in Hnd as [Hnd _]. done. }
        assert (z <> wtr) as Hzw.
        { intros ->. apply Hw. by apply list_elem_of_further. }
        rewrite prev_upd_prev, decide_False by done.
        rewrite prev_upd_next, prev_upd_prev, decide_False by done.
        rewrite prev_upd_next. done.
    + split.
      * rewrite next_upd_prev, next_upd_next, decide_True; done.
      * rewrite prev_upd_prev, decide_False by done.
        rewrite prev_upd_next, prev_upd_prev, decide_True; done.
  - split.
    + rewrite next_upd_prev, next_upd_next, decide_False by done.
      rewrite next_upd_prev, next_upd_next, decide_True; done.
    + rewrite prev_upd_prev, decide_True; done.
Qed.

Lemma ring_dequeue t w n rest :
  ring t (Some w) (w :: n :: rest) -> NoDup (w :: n :: rest) ->
  ring (upd_next (List.last rest n) (Some n) (upd_prev n (Some (List.last rest n)) t))
       (Some n) (n :: rest).
Proof.
  intros (_ & [[Hwn Hnw] Hpath] & [Hln Hlp]) Hnd.
  rewrite last_cons_default in Hln, Hlp.
  set (tl := List.last rest n) in *.
  apply NoDup_cons in Hnd as [Hw Hnd].
  cbn [ring]. split; [done |]. split.
  - eapply path_frame; [exact Hpath | |].
    + intros z Hz.
      assert (z <> tl) as Hztl.
      { intros ->. by apply (last_not_in_removelast rest n). }
      rewrite next_upd_next, decide_False by done. rewrite next_upd_prev. done.
    + intros z Hz.
      assert (z <> n) as Hzn.
      { intros ->. apply NoDup_cons in Hnd as [Hnd _]. done. }
      rewrite prev_upd_next, prev_upd_prev, decide_False by done. done.
  - split.
    + rewrite next_upd_next, decide_True; done.
    + rewrite prev_upd_next, prev_upd_prev, decide_True; done.
Qed.

(** *** The queue operations on a lock state *)

Lemma enqueue_waiter_empty s ix wtr :
  queue (lck s) ix = None ->
  enqueue_waiter ix wtr s =
  Ok (tt, mk_lstate (mk_lock (flags (lck s)) (<[ix := Some wtr]> (queue (lck s))))
            (upd_prev wtr (Some wtr) (upd_next wtr (Some wtr) (tse s)))
            (events s)).
Proof. intros Hq. unfold enqueue_waiter, mbind, M_bind, get_queue. rewrite Hq. done. Qed.

Lemma set_next_eq w n s :
  set_next w n s = Ok (tt, mk_lstate (lck s) (upd_next w n (tse s)) (events s)).
Proof. done. Qed.

Lemma set_prev_eq w p s :
  set_prev w p s = Ok (tt, mk_lstate (lck s) (upd_prev w p (tse s)) (events s)).
Proof. done. Qed.

Lemma set_queue_eq ix q s :
  set_queue ix q s =
  Ok (tt, mk_lstate (mk_lock (flags (lck s)) (<[ix := q]> (queue (lck s))))
            (tse s) (events s)).
Proof. done. Qed.

Lemma enqueue_waiter_nonempty s ix wtr h tl :
  queue (lck s) ix = Some h -> prev (tse s h) = Some tl -> wtr <> h ->
  enqueue_waiter ix wtr s =
  Ok (tt, mk_lstate (lck s)
            (upd_prev h (Some wtr)
               (upd_next tl (Some wtr)
                  (upd_prev wtr (Some tl) (upd_next wtr (Some h) (tse s)))))
            (events s)).
Proof.
  intros Hq Hprev Hne. unfold enqueue_waiter, mbind, M_bind, get_queue. rewrite Hq.
  rewrite set_next_eq. cbn [get_tse tse lck events].
  rewrite upd_next_other by done. rewrite Hprev, set_prev_eq. cbn [tse lck events].
  rewrite upd_prev_same. cbn [prev deref_M mret M_ret].
  rewrite set_next_eq. cbn [tse lck events]. rewrite set_prev_eq. done.
Qed.

Lemma dequeue_waiter_single s ix w :
  queue (lck s) ix = Some w -> next (tse s w) = Some w ->
  dequeue_waiter ix s =
  Ok (w, mk_lstate (mk_lock (flags (lck s)) (<[ix := None]> (queue (lck s))))
           (tse s) (events s)).
Proof.
  intros Hq Hnext. unfold dequeue_waiter, mbind, M_bind, get_queue. rewrite Hq.
  cbn [deref_M mret M_ret get_tse]. rewrite Hnext, bool_decide_eq_true_2 by done.
  rewrite set_queue_eq. done.
Qed.

Lemma dequeue_waiter_more s ix w n tl :
  queue (lck s) ix = Some w -> next (tse s w) = Some n -> n <> w ->
  prev (tse s w) = Some tl -> tl <> w ->
  dequeue_waiter ix s =
  Ok (w, mk_lstate (mk_lock (flags (lck s)) (<[ix := Some n]> (queue (lck s))))
           (upd_next tl (Some n) (upd_prev n (Some tl) (tse s)))
           (events s)).
Proof.
  intros Hq Hnext Hn Hprev Htl. unfold dequeue_waiter, mbind, M_bind, get_queue.
  rewrite Hq. cbn [deref_M mret M_ret get_tse]. rewrite Hnext.
  rewrite bool_decide_eq_false_2 by congruence.
  cbn [deref_M mret M_ret]. rewrite Hprev, set_prev_eq. cbn [tse lck events].
  rewrite upd_prev_other by done. rewrite Hprev. cbn [deref_M mret M_ret].
  rewrite Hnext, set_next_eq. cbn [tse lck events].
  rewrite upd_next_other, upd_prev_other by done. rewrite Hnext, set_queue_eq. done.
Qed.

Lemma dequeue_waiter_null s ix :
  queue (lck s) ix = None -> dequeue_waiter ix s = Undefined.
Proof. intros Hq. unfold dequeue_waiter, mbind, M_bind, get_queue. rewrite Hq. done. Qed.

(** ** Wait queues: the source refines the list view *)

Lemma disjoint_enqueue qs ix wtr :
  disjoint_queues qs -> ~ queued qs wtr -> (ix <= ERTS_PROC_LOCK_MAX_BIT)%nat ->
  disjoint_queues (<[ix := qs ix ++ [wtr]]> qs).
Proof.
  intros [Hnd Hdis] Hw Hix. split.
  - intros i Hi. destruct (decide (i = ix)) as [-> | Hne].
    + rewrite fn_lookup_insert. apply NoDup_app. split_and!.
      * by apply Hnd.
      * intros x Hx ->%list_elem_of_singleton. apply Hw. by exists ix.
      * apply NoDup_singleton.
    + rewrite fn_lookup_insert_ne by done. by apply Hnd.
  - intros i j w Hi Hj Hij.
    destruct (decide (i = ix)) as [-> | Hnei], (decide (j = ix)) as [-> | Hnej];
      rewrite ?fn_lookup_insert, ?fn_lookup_insert_ne by done; try done.
    + intros [Hin | ->%list_elem_of_singleton]%elem_of_app.
      * by apply (Hdis ix j w).
      * intros Hin. apply Hw. by exists j.
    + intros Hin [Hin' | ->%list_elem_of_singleton]%elem_of_app.
      * by apply (Hdis i ix w).
      * apply Hw. by exists i.
    + by apply Hdis.
Qed.

Lemma disjoint_dequeue qs ix w rest :
  disjoint_queues qs -> (ix <= ERTS_PROC_LOCK_MAX_BIT)%nat -> qs ix = w :: rest ->
  disjoint_queues (<[ix := rest]> qs) /\ ~ queued (<[ix := rest]> qs) w.
Proof.
  intros [Hnd Hdis] Hix Hq. split; [split |].
  - intros i Hi. destruct (decide (i = ix)) as [-> | Hne].
    + rewrite fn_lookup_insert. specialize (Hnd ix Hix). rewrite Hq in Hnd.
      by apply NoDup_cons in Hnd as [_ ?].
    + rewrite fn_lookup_insert_ne by done. by apply Hnd.
  - intros i j x Hi Hj Hij.
    destruct (decide (i = ix)) as [-> | Hnei], (decide (j = ix)) as [-> | Hnej];
      rewrite ?fn_lookup_insert, ?fn_lookup_insert_ne by done; try done.
    + intros Hin. apply (Hdis ix j x); try done. rewrite Hq.
      by apply list_elem_of_further.
    + intros Hin Hin'. apply (Hdis i ix x); try done. rewrite Hq.
      by apply list_elem_of_further.
    + by apply Hdis.
  - intros (i & Hi & Hin). destruct (decide (i = ix)) as [-> | Hne].
    + rewrite fn_lookup_insert in Hin. specialize (Hnd ix Hix). rewrite Hq in Hnd.
      by apply NoDup_cons in Hnd as [? _].
    + rewrite fn_lookup_insert_ne in Hin by done.
      apply (Hdis ix i w); try done. rewrite Hq. apply list_elem_of_here.
Qed.

Lemma ring_head_empty t head : ring t head [] -> head = None.
Proof. done. Qed.

Lemma enqueue_refines s a ix wtr :
  refines s a -> (ix <= ERTS_PROC_LOCK_MAX_BIT)%nat -> ~ queued (a_queue a) wtr ->
  exists s',
    enqueue_waiter ix wtr s = Ok (tt, s') /\
    refines s' (a_enqueue ix wtr a) /\
    (forall z, ~ queued (a_queue a) z -> z <> wtr -> tse s' z = tse s z).
Proof.
  intros (Hf & He & Hu & Hua & [Hring Hdis]) Hix Hw.
  pose proof (Hring ix Hix) as Hr.
  destruct (a_queue a ix) as [| h l] eqn:Hq.
  - (* the queue is empty *)
    cbn [ring] in Hr. rewrite (enqueue_waiter_empty _ _ _ Hr).
    eexists. split; [done |]. split.
    + unfold refines, a_enqueue. cbn [lck tse events flags queue a_flags a_queue
        a_uflgs a_uaflgs a_events]. split_and!; try done.
      * intros w. by rewrite uflgs_upd_prev, uflgs_upd_next.
      * intros w. by rewrite uaflgs_upd_prev, uaflgs_upd_next.
      * split; [| by apply disjoint_enqueue].
        intros i Hi. cbn [lck tse queue flags]. destruct (decide (i = ix)) as [-> | Hne].
        -- rewrite !fn_lookup_insert, Hq. apply ring_enqueue_empty.
        -- rewrite !fn_lookup_insert_ne by done.
           eapply ring_frame; [by apply Hring |].
           intros z Hz. assert (z <> wtr) by (intros ->; apply Hw; by exists i).
           rewrite next_upd_prev, next_upd_next, decide_False by done.
           rewrite prev_upd_prev, decide_False, prev_upd_next by done. done.
    + intros z _ Hz. cbn [tse]. by rewrite upd_prev_other, upd_next_other.
  - (* the queue has waiters *)
    destruct Hr as (Hhead & Hpath & [Hln Hlp]).
    assert (wtr ∉ h :: l) as Hwl by (intros Hin; apply Hw; exists ix; by rewrite Hq).
    assert (wtr <> h) as Hwh by (intros ->; apply Hwl, list_elem_of_here).
    pose proof (proj1 Hdis ix Hix) as Hnd. rewrite Hq in Hnd.
    rewrite (enqueue_waiter_nonempty _ _ _ _ _ Hhead Hlp Hwh).
    eexists. split; [done |]. split.
    + unfold refines, a_enqueue. cbn [lck tse events flags queue a_flags a_queue
        a_uflgs a_uaflgs a_events]. split_and!; try done.
      * intros w. by rewrite uflgs_upd_prev, uflgs_upd_next, uflgs_upd_prev, uflgs_upd_next.
      * intros w.
        by rewrite uaflgs_upd_prev, uaflgs_upd_next, uaflgs_upd_prev, uaflgs_upd_next.
      * split; [| by apply disjoint_enqueue].
        intros i Hi. cbn [lck tse queue flags]. destruct (decide (i = ix)) as [-> | Hne].
        -- rewrite fn_lookup_insert, Hq. rewrite Hhead. by apply ring_enqueue.
        -- rewrite fn_lookup_insert_ne by done.
           eapply ring_frame; [by apply Hring |].
           intros z Hz.
           assert (z <> wtr) by (intros ->; apply Hw; by exists i).
           assert (z ∉ h :: l) as Hzl.
           { rewrite <- Hq. by apply (proj2 Hdis i ix z). }
           assert (z <> h) by (intros ->; apply Hzl, list_elem_of_here).
           assert (z <> List.last l h) by (intros ->; apply Hzl, last_in).
           rewrite next_upd_prev, next_upd_next, decide_False by done.
           rewrite next_upd_prev, next_upd_next, decide_False by done.
           rewrite prev_upd_prev, decide_False, prev_upd_next by done.
           rewrite prev_upd_prev, decide_False, prev_upd_next by done. done.
    + intros z Hz Hzw. cbn [tse].
      assert (z ∉ h :: l) as Hzl by (intros Hin; apply Hz; exists ix; by rewrite Hq).
      assert (z <> h) by (intros ->; apply Hzl, list_elem_of_here).
      assert (z <> List.last l h) by (intros ->; apply Hzl, last_in).
      by rewrite upd_prev_other, upd_next_other, upd_prev_other, upd_next_other.
Qed.

Lemma dequeue_refines s a ix w rest :
  refines s a -> (ix <= ERTS_PROC_LOCK_MAX_BIT)%nat -> a_queue a ix = w :: rest ->
  exists s',
    dequeue_waiter ix s = Ok (w, s') /\
    refines s' (a_set_queue ix rest a) /\
    (forall z, ~ queued (a_queue a) z -> tse s' z = tse s z) /\
    tse s' w = tse s w.
Proof.
  intros (Hf & He & Hu & Hua & [Hring Hdis]) Hix Hq.
  pose proof (Hring ix Hix) as Hr. rewrite Hq in Hr.
  pose proof (proj1 Hdis ix Hix) as Hnd. rewrite Hq in Hnd.
  destruct (disjoint_dequeue _ _ _ _ Hdis Hix Hq) as [Hdis' Hnq].
  destruct rest as [| n rest].
  - (* the only waiter *)
    destruct Hr as (Hhead & _ & [Hln Hlp]). cbn [List.last] in Hln, Hlp.
    rewrite (dequeue_waiter_single _ _ _ Hhead Hln).
    eexists. split; [done |]. split; [| done].
    unfold refines, a_set_queue. cbn [lck tse events flags queue a_flags a_queue
      a_uflgs a_uaflgs a_events]. split_and!; try done.
    split; [| done].
    intros i Hi. cbn [lck tse queue flags]. destruct (decide (i = ix)) as [-> | Hne].
    + rewrite !fn_lookup_insert. done.
    + rewrite !fn_lookup_insert_ne by done. by apply Hring.
  - (* more waiters behind it *)
    pose proof Hr as (Hhead & [[Hwn Hnw] Hpath] & [Hln Hlp]).
    rewrite last_cons_default in Hln, Hlp.
    assert (n <> w) as Hnw'.
    { intros ->. apply NoDup_cons in Hnd as [Hnd _]. apply Hnd, list_elem_of_here. }
    assert (List.last rest n <> w) as Htlw.
    { intros Heq. apply NoDup_cons in Hnd as [Hnd _]. apply Hnd.
      rewrite <- Heq. apply last_in. }
    rewrite (dequeue_waiter_more _ _ _ _ _ Hhead Hwn Hnw' Hlp Htlw).
    eexists. split; [done |]. split; [| split].
    + unfold refines, a_set_queue. cbn [lck tse events flags queue a_flags a_queue
        a_uflgs a_uaflgs a_events]. split_and!; try done.
      * intros z. by rewrite uflgs_upd_next, uflgs_upd_prev.
      * intros z. by rewrite uaflgs_upd_next, uaflgs_upd_prev.
      * split; [| done].
        intros i Hi. cbn [lck tse queue flags]. destruct (decide (i = ix)) as [-> | Hne].
        -- rewrite !fn_lookup_insert. rewrite Hhead in Hr. by apply (ring_dequeue _ w).
        -- rewrite !fn_lookup_insert_ne by done.
           eapply ring_frame; [by apply Hring |].
           intros z Hz.
           assert (z ∉ w :: n :: rest) as Hzl.
           { rewrite <- Hq. by apply (proj2 Hdis i ix z). }
           assert (z <> n).
           { intros ->. apply Hzl, list_elem_of_further, list_elem_of_here. }
           assert (z <> List.last rest n).
           { intros ->. apply Hzl, list_elem_of_further, last_in. }
           rewrite next_upd_next, decide_False, next_upd_prev by done.
           rewrite prev_upd_next, prev_upd_prev, decide_False by done. done.
    + intros z Hz. cbn [tse].
      assert (z ∉ w :: n :: rest) as Hzl by (intros Hin; apply Hz; exists ix; by rewrite Hq).
      assert (z <> n).
      { intros ->. apply Hzl, list_elem_of_further, list_elem_of_here. }
      assert (z <> List.last rest n).
      { intros ->. apply Hzl, list_elem_of_further, last_in. }
      by rewrite upd_next_other, upd_prev_other.
    + cbn [tse]. by rewrite upd_next_other, upd_prev_other.
Qed.

Lemma dequeue_refines_empty s a ix :
  refines s a -> (ix <= ERTS_PROC_LOCK_MAX_BIT)%nat -> a_queue a ix = [] ->
  dequeue_waiter ix s = Undefined.
Proof.
  intros (_ & _ & _ & _ & [Hring _]) Hix Hq.
  pose proof (Hring ix Hix) as Hr. rewrite Hq in Hr.
  by apply dequeue_waiter_null.
Qed.

Lemma represents_same_links s s' qs :
  represents s qs ->
  queue (lck s') = queue (lck s) ->
  (forall z, next (tse s' z) = next (tse s z) /\ prev (tse s' z) = prev (tse s z)) ->
  represents s' qs.
Proof.
  intros [Hring Hdis] Hq Hsame. split; [| done].
  intros ix Hix. rewrite Hq. eapply ring_frame; [by apply Hring |].
  intros z _. apply Hsame.
Qed.

Lemma flgs_bor_refines s a mask :
  refines s a ->
  exists s',
    flgs_bor mask s = Ok (a_flags a, s') /\ refines s' (a_bor mask a) /\
    tse s' = tse s.
Proof.
  intros (Hf & He & Hu & Hua & Hrep).
  eexists. split; [| split].
  - unfold flgs_bor, mbind, M_bind, flgs_read, flgs_write, emit, mret, M_ret.
    cbn [lck tse events flags queue]. rewrite Hf. done.
  - unfold refines, a_bor, a_set_flags.
    cbn [lck tse events flags queue a_flags a_queue a_uflgs a_uaflgs a_events].
    rewrite He. split_and!; try done; by eapply represents_same_links.
  - done.
Qed.

Lemma flgs_band_refines s a mask :
  refines s a ->
  exists s',
    flgs_band mask s = Ok (a_flags a, s') /\ refines s' (a_band mask a) /\
    tse s' = tse s.
Proof.
  intros (Hf & He & Hu & Hua & Hrep).
  eexists. split; [| split].
  - unfold flgs_band, mbind, M_bind, flgs_read, flgs_write, emit, mret, M_ret.
    cbn [lck tse events flags queue]. rewrite Hf. done.
  - unfold refines, a_band, a_set_flags.
    cbn [lck tse events flags queue a_flags a_queue a_uflgs a_uaflgs a_events].
    rewrite He. split_and!; try done; by eapply represents_same_links.
  - done.
Qed.

Lemma set_uflgs_refines s a w f :
  refines s a ->
  exists s',
    set_uflgs w f s = Ok (tt, s') /\ refines s' (a_set_uflgs w f a) /\
    (forall z, next (tse s' z) = next (tse s z)).
Proof.
  intros (Hf & He & Hu & Hua & Hrep).
  assert (forall z,
    next ((<[w := mk_tse f (uaflgs (tse s w)) (next (tse s w)) (prev (tse s w))]>
             (tse s)) z) = next (tse s z) /\
    prev ((<[w := mk_tse f (uaflgs (tse s w)) (next (tse s w)) (prev (tse s w))]>
             (tse s)) z) = prev (tse s z)) as Hsame.
  { intros z. destruct (decide (z = w)) as [-> | Hz].
    - by rewrite fn_lookup_insert.
    - by rewrite fn_lookup_insert_ne. }
  eexists. split; [done |]. split.
  - unfold refines, a_set_uflgs.
    cbn [lck tse events flags queue a_flags a_queue a_uflgs a_uaflgs a_events].
    split_and!; try done.
    + intros z. destruct (decide (z = w)) as [-> | Hz].
      * by rewrite !fn_lookup_insert.
      * rewrite !fn_lookup_insert_ne by done. apply Hu.
    + intros z. destruct (decide (z = w)) as [-> | Hz].
      * rewrite !fn_lookup_insert. apply Hua.
      * rewrite !fn_lookup_insert_ne by done. apply Hua.
    + by eapply represents_same_links.
  - intros z. apply Hsame.
Qed.

Lemma set_uaflgs_refines s a w f :
  refines s a ->
  exists s',
    set_uaflgs w f s = Ok (tt, s') /\ refines s' (a_set_uaflgs w f a) /\
    (forall z, next (tse s' z) = next (tse s z)).
Proof.
  intros (Hf & He & Hu & Hua & Hrep).
  assert (forall z,
    next ((<[w := mk_tse (uflgs (tse s w)) f (next (tse s w)) (prev (tse s w))]>
             (tse s)) z) = next (tse s z) /\
    prev ((<[w := mk_tse (uflgs (tse s w)) f (next (tse s w)) (prev (tse s w))]>
             (tse s)) z) = prev (tse s z)) as Hsame.
  { intros z. destruct (decide (z = w)) as [-> | Hz].
    - by rewrite fn_lookup_insert.
    - by rewrite fn_lookup_insert_ne. }
  eexists. split; [done |]. split.
  - unfold refines, a_set_uaflgs.
    cbn [lck tse events flags queue a_flags a_queue a_uflgs a_uaflgs a_events].
    split_and!; try done.
    + intros z. destruct (decide (z = w)) as [-> | Hz].
      * rewrite !fn_lookup_insert. apply Hu.
      * rewrite !fn_lookup_insert_ne by done. apply Hu.
    + intros z. destruct (decide (z = w)) as [-> | Hz].
      * by rewrite !fn_lookup_insert.
      * rewrite !fn_lookup_insert_ne by done. apply Hua.
    + by eapply represents_same_links.
  - intros z. apply Hsame.
Qed.

Lemma emit_refines s a e :
  refines s a ->
  exists s', emit e s = Ok (tt, s') /\ refines s' (a_emit e a) /\ tse s' = tse s.
Proof.
  intros (Hf & He & Hu & Hua & Hrep).
  eexists. split; [done |]. split; [| done].
  unfold refines, a_emit.
  cbn [lck tse events flags queue a_flags a_queue a_uflgs a_uaflgs a_events].
  rewrite He. split_and!; try done; by eapply represents_same_links.
Qed.

Lemma get_queue_refines s a ix :
  refines s a -> (ix <= ERTS_PROC_LOCK_MAX_BIT)%nat ->
  match queue (lck s) ix with
  | Some _ => a_queue a ix <> []
  | None => a_queue a ix = []
  end.
Proof.
  intros (_ & _ & _ & _ & [Hring _]) Hix. specialize (Hring ix Hix).
  destruct (a_queue a ix) as [| h l]; cbn [ring] in Hring.
  - by rewrite Hring.
  - destruct Hring as [-> _]. done.
Qed.

Lemma try_aquire_loop_refines (wtr : tse_ptr) (locks : ErtsProcLocks)
    (lock_nos : list nat) :
  Forall (fun i => i <= ERTS_PROC_LOCK_MAX_BIT)%nat lock_nos ->
  forall s a got,
  refines s a -> ~ queued (a_queue a) wtr ->
  exists s',
    try_aquire_loop lock_nos wtr locks got s
      = Ok (fst (a_try_aquire_loop lock_nos wtr locks got a), s') /\
    refines s' (snd (a_try_aquire_loop lock_nos wtr locks got a)) /\
    (forall z, ~ queued (a_queue a) z -> z <> wtr -> tse s' z = tse s z).
Proof.
  induction 1 as [| lock_no lock_nos Hle Hall IH]; intros s a got Href Hw.
  - exists s. done.
  - cbn [try_aquire_loop a_try_aquire_loop].
    destruct (truthy (Z.land locks (wshl 1 (Z.of_nat lock_no)))); [| by apply IH].
    unfold mbind at 1, M_bind at 1. unfold get_queue at 1.
    pose proof (get_queue_refines s a lock_no Href Hle) as Hq.
    destruct (queue (lck s) lock_no) as [h |] eqn:Hhead.
    + (* others already waiting *)
      destruct (a_queue a lock_no) as [| h' l'] eqn:Haq; [done |].
      destruct (enqueue_refines s a lock_no wtr Href Hle Hw) as (s' & Henq & Href' & Hfr).
      exists s'. unfold mbind, M_bind. rewrite Henq. done.
    + rewrite Hq.
      destruct (flgs_bor_refines s a
                  (Z.lor (wshl (wshl 1 (Z.of_nat lock_no)) ERTS_PROC_LOCK_WAITER_SHIFT)
                         (wshl 1 (Z.of_nat lock_no))) Href)
        as (s1 & Hbor & Href1 & Ht1).
      unfold mbind at 1, M_bind at 1. rewrite Hbor.
      destruct (truthy (Z.land (a_flags a) (wshl 1 (Z.of_nat lock_no)))).
      * (* didn't get the lock *)
        destruct (enqueue_refines s1 _ lock_no wtr Href1 Hle Hw)
          as (s' & Henq & Href' & Hfr).
        exists s'. unfold mbind, M_bind. rewrite Henq. split_and!; try done.
        intros z Hz Hzw. rewrite Hfr by done. by rewrite Ht1.
      * (* got the lock *)
        destruct (flgs_band_refines s1 _
                    (wnot (wshl (wshl 1 (Z.of_nat lock_no)) ERTS_PROC_LOCK_WAITER_SHIFT))
                    Href1)
          as (s2 & Hband & Href2 & Ht2).
        unfold mbind at 1, M_bind at 1. rewrite Hband.
        destruct (Z.lor got (wshl 1 (Z.of_nat lock_no)) =? locks).
        -- exists s2. split_and!; try done.
           intros z _ _. by rewrite Ht2, Ht1.
        -- destruct (IH s2 _ (Z.lor got (wshl 1 (Z.of_nat lock_no))) Href2 Hw)
             as (s' & Hloop & Href' & Hfr).
           exists s'. split_and!; try done.
           intros z Hz Hzw. rewrite Hfr by done. by rewrite Ht2, Ht1.
Qed.

Lemma all_lock_nos_le : Forall (fun i => i <= ERTS_PROC_LOCK_MAX_BIT)%nat all_lock_nos.
Proof.
  apply Forall_forall. intros i Hi%elem_of_seq. lia.
Qed.

Lemma try_aquire_refines s a wtr :
  refines s a -> ~ queued (a_queue a) wtr ->
  exists s',
    try_aquire wtr s = Ok (tt, s') /\
    refines s' (a_try_aquire wtr a) /\
    (forall z, ~ queued (a_queue a) z -> z <> wtr ->
       next (tse s' z) = next (tse s z)).
Proof.
  intros Href Hw. unfold try_aquire, a_try_aquire.
  unfold mbind at 1, M_bind at 1. unfold get_tse at 1.
  pose proof Href as (_ & _ & Hu & _). rewrite Hu.
  destruct (try_aquire_loop_refines wtr (a_uflgs a wtr) all_lock_nos all_lock_nos_le
              s a 0 Href Hw) as (s1 & Hloop & Href1 & Hfr1).
  unfold mbind at 1, M_bind at 1. rewrite Hloop.
  destruct (a_try_aquire_loop all_lock_nos wtr (a_uflgs a wtr) 0 a) as [got a1].
  cbn [fst snd] in *.
  unfold mbind at 1, M_bind at 1. unfold get_tse at 1.
  pose proof Href1 as (_ & _ & Hu1 & _). rewrite Hu1.
  destruct (set_uflgs_refines s1 a1 wtr (Z.land (a_uflgs a1 wtr) (wnot got)) Href1)
    as (s2 & Hset & Href2 & Hn2).
  exists s2. split_and!; try done.
  intros z Hz Hzw. rewrite Hn2, Hfr1 by done. done.
Qed.

(** ** enqueue_waiter and dequeue_waiter on well-formed queues *)

Lemma refines_abs_of s qs : represents s qs -> refines s (abs_of s qs).
Proof. intros Hrep. unfold refines, abs_of. by cbn [a_flags a_queue a_uflgs a_uaflgs a_events]. Qed.

Lemma represents_idle : represents idle_lstate no_waiters.
Proof.
  split.
  - intros ix _. done.
  - split.
    + intros ix _. apply NoDup_nil_2.
    + intros i j w _ _ _ Hw. by apply elem_of_nil in Hw.
Qed.

Lemma not_queued_no_waiters w : ~ queued no_waiters w.
Proof. intros (ix & _ & Hw). by apply elem_of_nil in Hw. Qed.

(** X1: on well-formed queues, [enqueue_waiter] puts a waiter that is on
    no queue at the tail of queue [ix]: the queues are well formed again,
    queue [ix] is the old queue followed by the waiter, and neither the
    flag word, nor the events, nor the needed locks of any waiter
    change. *)
Theorem enqueue_waiter_appends (s : lstate) (qs : nat -> list tse_ptr)
    (ix : nat) (wtr : tse_ptr) :
  represents s qs -> (ix <= ERTS_PROC_LOCK_MAX_BIT)%nat -> ~ queued qs wtr ->
  exists s',
    enqueue_waiter ix wtr s = Ok (tt, s') /\
    represents s' (<[ix := qs ix ++ [wtr]]> qs) /\
    flags (lck s') = flags (lck s) /\
    events s' = events s /\
    (forall z, uflgs (tse s' z) = uflgs (tse s z) /\
               uaflgs (tse s' z) = uaflgs (tse s z)) /\
    (forall z, ~ queued qs z -> z <> wtr -> tse s' z = tse s z).
Proof.
  intros Hrep Hix Hw.
  destruct (enqueue_refines s (abs_of s qs) ix wtr (refines_abs_of s qs Hrep) Hix Hw)
    as (s' & Henq & (Hf & He & Hu & Hua & Hrep') & Hfr).
  exists s'. split_and!; try done; intros z; (split; [apply Hu | apply Hua]).
Qed.

Lemma enqueue_waiter_appends_witness :
  exists s',
    enqueue_waiter 2 7%nat idle_lstate = Ok (tt, s') /\
    represents s' (<[2%nat := [7%nat]]> no_waiters) /\
    queue (lck s') 2%nat = Some 7%nat.
Proof.
  assert (2 <= ERTS_PROC_LOCK_MAX_BIT)%nat as Hix by (vm_compute; lia).
  destruct (enqueue_waiter_appends idle_lstate no_waiters 2 7%nat represents_idle Hix
              (not_queued_no_waiters 7%nat))
    as (s' & Henq & Hrep & _).
  exists s'. split; [exact Henq |]. split; [exact Hrep |].
  vm_compute in Henq. injection Henq as <-. reflexivity.
Defined.

(** X2: on well-formed queues, [dequeue_waiter] on a queue with waiters
    returns the first waiter of the queue and leaves the rest of the queue,
    in order, well formed; the waiter returned is on no queue any more, and
    its own fields are as they were. *)
Theorem dequeue_waiter_takes_head (s : lstate) (qs : nat -> list tse_ptr)
    (ix : nat) (w : tse_ptr) (rest : list tse_ptr) :
  represents s qs -> (ix <= ERTS_PROC_LOCK_MAX_BIT)%nat -> qs ix = w :: rest ->
  exists s',
    dequeue_waiter ix s = Ok (w, s') /\
    represents s' (<[ix := rest]> qs) /\
    ~ queued (<[ix := rest]> qs) w /\
    tse s' w = tse s w /\
    flags (lck s') = flags (lck s) /\
    events s' = events s /\
    (forall z, uflgs (tse s' z) = uflgs (tse s z) /\
               uaflgs (tse s' z) = uaflgs (tse s z)).
Proof.
  intros Hrep Hix Hq.
  destruct (dequeue_refines s (abs_of s qs) ix w rest (refines_abs_of s qs Hrep) Hix Hq)
    as (s' & Hdeq & (Hf & He & Hu & Hua & Hrep') & Hfr & Hw).
  pose proof (disjoint_dequeue qs ix w rest (proj2 Hrep) Hix Hq) as [_ Hnq].
  exists s'. split_and!; try done; intros z; (split; [apply Hu | apply Hua]).
Qed.

Lemma dequeue_waiter_takes_head_witness :
  exists s1 s2,
    enqueue_waiter 2 7%nat idle_lstate = Ok (tt, s1) /\
    dequeue_waiter 2 s1 = Ok (7%nat, s2) /\
    represents s2 (<[2%nat := []]> (<[2%nat := [7%nat]]> no_waiters)) /\
    queue (lck s2) 2%nat = None.
Proof.
  assert (2 <= ERTS_PROC_LOCK_MAX_BIT)%nat as Hix by (vm_compute; lia).
  destruct (enqueue_refines idle_lstate (abs_of idle_lstate no_waiters) 2 7%nat
              (refines_abs_of _ _ represents_idle) Hix (not_queued_no_waiters 7%nat))
    as (s1 & Henq & (_ & _ & _ & _ & Hrep1) & _).
  destruct (dequeue_waiter_takes_head s1 (<[2%nat := [7%nat]]> no_waiters) 2 7%nat []
              Hrep1 Hix eq_refl)
    as (s2 & Hdeq & Hrep2 & _).
  exists s1, s2. split; [exact Henq |]. split; [exact Hdeq |]. split; [exact Hrep2 |].
  vm_compute in Henq. injection Henq as <-.
  vm_compute in Hdeq. injection Hdeq as <-. reflexivity.
Defined.

Lemma represents_ext s qs qs' :
  (forall i, qs i = qs' i) -> represents s qs -> represents s qs'.
Proof.
  intros Heq [Hring [Hnd Hdis]]. split; [| split].
  - intros ix Hix. rewrite <- Heq. by apply Hring.
  - intros ix Hix. rewrite <- Heq. by apply Hnd.
  - intros i j w Hi Hj Hij. rewrite <- !Heq. by apply Hdis.
Qed.

(** [dequeue_waiter] called once for every waiter of queue [ix] returns
    the waiters in queue order and leaves the queue empty. *)
Lemma dequeue_n_drains (ix : nat) (l : list tse_ptr) :
  (ix <= ERTS_PROC_LOCK_MAX_BIT)%nat ->
  forall s qs, represents s qs -> qs ix = l ->
  exists s',
    dequeue_n ix (length l) s = Ok (l, s') /\
    represents s' (<[ix := []]> qs) /\
    flags (lck s') = flags (lck s) /\
    events s' = events s.
Proof.
  intros Hix. induction l as [| w rest IH]; intros s qs Hrep Hq.
  - exists s. split_and!; try done.
    eapply represents_ext; [| exact Hrep].
    intros i. destruct (decide (i = ix)) as [-> | Hne].
    + by rewrite fn_lookup_insert.
    + by rewrite fn_lookup_insert_ne.
  - destruct (dequeue_refines s (abs_of s qs) ix w rest (refines_abs_of s qs Hrep) Hix Hq)
      as (s1 & Hdeq & (Hf & He & _ & _ & Hrep1) & _).
    cbn [a_set_queue a_queue abs_of a_flags a_events] in Hrep1, Hf, He.
    destruct (IH s1 (<[ix := rest]> qs) Hrep1) as (s' & Hn & Hrep' & Hf' & He').
    { by rewrite fn_lookup_insert. }
    exists s'. split_and!.
    + cbn [length dequeue_n]. unfold mbind at 1, M_bind at 1. rewrite Hdeq.
      unfold mbind, M_bind. rewrite Hn. done.
    + eapply represents_ext; [| exact Hrep'].
      intros i. destruct (decide (i = ix)) as [-> | Hne].
      * by rewrite !fn_lookup_insert.
      * by rewrite !fn_lookup_insert_ne.
    + by rewrite Hf'.
    + by rewrite He'.
Qed.

(** X3: the wait queues are first in, first out.  After [enqueue_waiter]
    has added a waiter to a well-formed queue, calling [dequeue_waiter]
    once per waiter returns the waiters that were queued before, in their
    order, and the new waiter last; the queue is then empty ([NULL]), and
    [dequeue_waiter] on the empty queue dereferences [NULL]. *)
Theorem wait_queue_fifo (s : lstate) (qs : nat -> list tse_ptr)
    (ix : nat) (wtr : tse_ptr) :
  represents s qs -> (ix <= ERTS_PROC_LOCK_MAX_BIT)%nat -> ~ queued qs wtr ->
  exists s',
    (_ ← enqueue_waiter ix wtr; dequeue_n ix (S (length (qs ix)))) s
      = Ok (qs ix ++ [wtr], s') /\
    queue (lck s') ix = None /\
    represents s' (<[ix := []]> qs) /\
    dequeue_waiter ix s' = Undefined.
Proof.
  intros Hrep Hix Hw.
  destruct (enqueue_refines s (abs_of s qs) ix wtr (refines_abs_of s qs Hrep) Hix Hw)
    as (s1 & Henq & (_ & _ & _ & _ & Hrep1) & _).
  cbn [a_enqueue a_queue abs_of] in Hrep1.
  destruct (dequeue_n_drains ix (qs ix ++ [wtr]) Hix s1 _ Hrep1) as (s' & Hn & Hrep' & _).
  { by rewrite fn_lookup_insert. }
  assert (represents s' (<[ix := []]> qs)) as Hrep2.
  { eapply represents_ext; [| exact Hrep'].
    intros i. destruct (decide (i = ix)) as [-> | Hne].
    - by rewrite !fn_lookup_insert.
    - by rewrite !fn_lookup_insert_ne. }
  assert (queue (lck s') ix = None) as Hnull.
  { pose proof (proj1 Hrep2 ix Hix) as Hr. rewrite fn_lookup_insert in Hr. exact Hr. }
  exists s'. split_and!; try done.
  - unfold mbind at 1, M_bind at 1. rewrite Henq.
    rewrite length_app, Nat.add_1_r in Hn. exact Hn.
  - by apply dequeue_waiter_null.
Qed.

Lemma wait_queue_fifo_witness :
  exists s1 s',
    enqueue_waiter 2 7%nat idle_lstate = Ok (tt, s1) /\
    (_ ← enqueue_waiter 2 9%nat; dequeue_n 2 2) s1 = Ok ([7%nat; 9%nat], s') /\
    dequeue_waiter 2 s' = Undefined.
Proof.
  assert (2 <= ERTS_PROC_LOCK_MAX_BIT)%nat as Hix by (vm_compute; lia).
  destruct (enqueue_refines idle_lstate (abs_of idle_lstate no_waiters) 2 7%nat
              (refines_abs_of _ _ represents_idle) Hix (not_queued_no_waiters 7%nat))
    as (s1 & Henq & (_ & _ & _ & _ & Hrep1) & _).
  destruct (wait_queue_fifo s1 (<[2%nat := [7%nat]]> no_waiters) 2 9%nat Hrep1 Hix)
    as (s' & Hrun & _ & _ & Hundef).
  { intros (i & _ & Hin). destruct (decide (i = 2%nat)) as [-> | Hne].
    - vm_compute in Hin. inversion Hin as [| ? ? ? Hin']. inversion Hin'.
    - unfold insert, fn_insert in Hin. rewrite decide_False in Hin by done.
      by apply elem_of_nil in Hin. }
  exists s1, s'. split; [exact Henq |]. split; [exact Hrun | exact Hundef].
Defined.

(** ** try_aquire on the list view: bits and searches *)

Lemma wait_bit_bit (f : Z) (i : nat) :
  wait_bit f i = bit f (i + S ERTS_PROC_LOCK_MAX_BIT).
Proof.
  unfold wait_bit, bit. rewrite waiter_shift_eq. f_equal. lia.
Qed.

Lemma wflg_eq (n : nat) :
  (n <= ERTS_PROC_LOCK_MAX_BIT)%nat ->
  wshl (wshl 1 (Z.of_nat n)) ERTS_PROC_LOCK_WAITER_SHIFT
  = wshl 1 (Z.of_nat (n + S ERTS_PROC_LOCK_MAX_BIT)).
Proof.
  intros Hn. pose proof max_bit_small as Hs. rewrite waiter_shift_eq in *.
  rewrite !wshl_1 by lia. unfold wshl.
  rewrite Z.shiftl_mul_pow2, <- Z.pow_add_r by lia.
  rewrite wrap_small.
  - f_equal. lia.
  - split; [apply Z.pow_nonneg; lia | apply Z.pow_lt_mono_r; lia].
Qed.

Lemma ones_nonneg (k : nat) : 0 <= Z.ones (Z.of_nat k).
Proof.
  rewrite Z.ones_equiv. pose proof (Z.pow_pos_nonneg 2 (Z.of_nat k)). lia.
Qed.

Lemma bit_ones (k i : nat) : bit (Z.ones (Z.of_nat k)) i = bool_decide (i < k)%nat.
Proof.
  unfold bit. rewrite Z.testbit_ones_nonneg by lia.
  destruct (Z.ltb_spec (Z.of_nat i) (Z.of_nat k)).
  - by rewrite bool_decide_eq_true_2 by lia.
  - by rewrite bool_decide_eq_false_2 by lia.
Qed.

Lemma land_ones_nonneg (m : Z) (k : nat) : 0 <= Z.land m (Z.ones (Z.of_nat k)).
Proof. apply Z.land_nonneg. right. apply ones_nonneg. Qed.

Lemma lock_nonneg (j : nat) : 0 <= wshl 1 (Z.of_nat j).
Proof. unfold wshl, wrap. apply Z.mod_pos_bound. done. Qed.

Lemma land_ones_skip (locks : Z) (j : nat) :
  bit locks j = false ->
  Z.land locks (Z.ones (Z.of_nat (S j))) = Z.land locks (Z.ones (Z.of_nat j)).
Proof.
  intros Hb. apply bit_ext; [apply land_ones_nonneg .. |].
  intros i. rewrite !bit_land, !bit_ones.
  destruct (decide (i = j)) as [-> | Hne].
  - by rewrite Hb.
  - f_equal. repeat case_bool_decide; done || lia.
Qed.

Lemma land_ones_take (locks : Z) (j : nat) :
  (j <= ERTS_PROC_LOCK_MAX_BIT)%nat -> bit locks j = true ->
  Z.lor (Z.land locks (Z.ones (Z.of_nat j))) (wshl 1 (Z.of_nat j))
  = Z.land locks (Z.ones (Z.of_nat (S j))).
Proof.
  intros Hj Hb. apply bit_ext.
  - apply Z.lor_nonneg. split; [apply land_ones_nonneg | apply lock_nonneg].
  - apply land_ones_nonneg.
  - intros i. rewrite bit_lor, !bit_land, !bit_ones, bit_lock
      by (apply max_bit_word; lia).
    destruct (decide (i = j)) as [-> | Hne].
    + rewrite Hb. repeat case_bool_decide; done || lia.
    + destruct (bit locks i); repeat case_bool_decide; done || lia.
Qed.

Lemma find_ext_in {A} (f g : A -> bool) (l : list A) :
  (forall x, x ∈ l -> f x = g x) -> List.find f l = List.find g l.
Proof.
  induction l as [| x l IH]; intros H; [done |].
  cbn [List.find]. rewrite <- (H x) by apply list_elem_of_here.
  destruct (f x); [done |]. apply IH. intros y Hy. apply H. by apply list_elem_of_further.
Qed.

Lemma find_none_all {A} (f : A -> bool) (l : list A) :
  (forall x, x ∈ l -> f x = false) -> List.find f l = None.
Proof.
  induction l as [| x l IH]; intros H; [done |].
  cbn [List.find]. rewrite (H x) by apply list_elem_of_here.
  apply IH. intros y Hy. apply H. by apply list_elem_of_further.
Qed.

Lemma find_seq_some (f : nat -> bool) (n : nat) :
  forall j k, List.find f (seq j n) = Some k ->
  (j <= k < j + n)%nat /\ f k = true /\ forall i, (j <= i < k)%nat -> f i = false.
Proof.
  induction n as [| n IH]; intros j k H; [done |].
  cbn [seq List.find] in H. destruct (f j) eqn:Hf.
  - injection H as <-. split_and!; [lia | lia | done | intros i Hi; lia].
  - destruct (IH _ _ H) as (Hk & Hfk & Hlow). split_and!; [lia | lia | done |].
    intros i Hi. destruct (decide (i = j)) as [-> | Hne]; [done |]. apply Hlow. lia.
Qed.

Lemma find_seq_none (f : nat -> bool) (n : nat) :
  forall j, List.find f (seq j n) = None ->
  forall i, (j <= i < j + n)%nat -> f i = false.
Proof.
  induction n as [| n IH]; intros j H i Hi; [lia |].
  cbn [seq List.find] in H. destruct (f j) eqn:Hf; [done |].
  destruct (decide (i = j)) as [-> | Hne]; [done |]. apply (IH _ H). lia.
Qed.

Lemma needed_between_nil (locks : Z) (j k : nat) :
  (k <= j)%nat -> needed_between locks j k = [].
Proof. intros H. unfold needed_between. by replace (k - j)%nat with 0%nat by lia. Qed.

Lemma needed_between_cons (locks : Z) (j k : nat) :
  (j < k)%nat ->
  needed_between locks j k
  = (if bit locks j then [j] else []) ++ needed_between locks (S j) k.
Proof.
  intros H. unfold needed_between.
  replace (k - j)%nat with (S (k - S j)) by lia. cbn [seq].
  rewrite filter_cons. destruct (bit locks j) eqn:Hb.
  - by rewrite decide_True.
  - by rewrite decide_False by done.
Qed.

Lemma needed_between_elem (locks : Z) (j k b : nat) :
  b ∈ needed_between locks j k <-> bit locks b = true /\ (j <= b < k)%nat.
Proof.
  unfold needed_between. rewrite list_elem_of_filter, elem_of_seq.
  split; intros [? ?]; (split; [done | lia]).
Qed.

Lemma needed_between_none (locks : Z) (j k : nat) :
  (forall i, (j <= i < k)%nat -> bit locks i = false) -> needed_between locks j k = [].
Proof.
  intros H. destruct (needed_between locks j k) as [| b l] eqn:Heq; [done |].
  assert (b ∈ needed_between locks j k) as Hb by (rewrite Heq; apply list_elem_of_here).
  apply needed_between_elem in Hb as [Hb Hr]. by rewrite H in Hb.
Qed.

Lemma acquire_bit_flags_bit (b : nat) (a : astate) (i : nat) :
  (b <= ERTS_PROC_LOCK_MAX_BIT)%nat -> Z.of_nat i < word_bits ->
  bit (a_flags (acquire_bit b a)) i
  = (bit (a_flags a) i || bool_decide (i = b))
    && negb (bool_decide (i = b + S ERTS_PROC_LOCK_MAX_BIT)%nat).
Proof.
  intros Hb Hi. unfold acquire_bit, a_band, a_bor, a_set_flags. cbn [a_flags].
  pose proof max_bit_small as Hs. rewrite waiter_shift_eq in Hs.
  rewrite bit_land, !bit_lor, bit_wnot, wflg_eq, !bit_lock by lia.
  rewrite (bool_decide_eq_true_2 (Z.of_nat i < word_bits)) by done.
  destruct (bit (a_flags a) i); repeat case_bool_decide; done || lia.
Qed.

Lemma blocked_acquire_bit (a : astate) (locks : Z) (b b' : nat) :
  (b <= ERTS_PROC_LOCK_MAX_BIT)%nat -> (b' <= ERTS_PROC_LOCK_MAX_BIT)%nat -> b' <> b ->
  blocked (acquire_bit b a) locks b' = blocked a locks b'.
Proof.
  intros Hb Hb' Hne. unfold blocked.
  rewrite acquire_bit_flags_bit by (done || apply max_bit_word; lia).
  rewrite (bool_decide_eq_false_2 (b' = b)) by done.
  rewrite (bool_decide_eq_false_2 (b' = b + _)%nat) by lia.
  by rewrite orb_false_r, andb_true_r.
Qed.

(** ** try_aquire on the list view: the loop *)

Lemma acquire_bits_uflgs (l : list nat) (a : astate) :
  a_uflgs (acquire_bits l a) = a_uflgs a /\
  a_uaflgs (acquire_bits l a) = a_uaflgs a /\
  a_queue (acquire_bits l a) = a_queue a.
Proof.
  revert a. induction l as [| b l IH]; intros a; [done |].
  cbn [acquire_bits fold_left]. apply (IH (acquire_bit b a)).
Qed.

Lemma blocked_false_above (a : astate) (locks : Z) (j : nat) (l : list nat) :
  (forall i, (j <= i)%nat -> bit locks i = false) ->
  (forall x, x ∈ l -> (j <= x)%nat) ->
  List.find (blocked a locks) l = None.
Proof.
  intros Hb Hl. apply find_none_all. intros x Hx.
  unfold blocked. by rewrite (Hb x) by by apply Hl.
Qed.

(** The loop of [try_aquire], entered at lock [j] with all needed locks
    below [j] taken, stops at the first lock from [j] on that is needed and
    cannot be taken; up to there it takes every needed lock. *)
Lemma a_try_aquire_loop_spec (wtr : tse_ptr) (locks : ErtsProcLocks) (n : nat) :
  forall j a, (j + n = S ERTS_PROC_LOCK_MAX_BIT)%nat ->
  a_try_aquire_loop (seq j n) wtr locks (Z.land locks (Z.ones (Z.of_nat j))) a =
  match List.find (blocked a locks) (seq j n) with
  | Some k =>
      (Z.land locks (Z.ones (Z.of_nat k)),
       block_at k wtr (acquire_bits (needed_between locks j k) a))
  | None =>
      (Z.land locks (Z.ones (Z.of_nat (S ERTS_PROC_LOCK_MAX_BIT))),
       acquire_bits (needed_between locks j (S ERTS_PROC_LOCK_MAX_BIT)) a)
  end.
Proof.
  induction n as [| n IH]; intros j a Hjn.
  - cbn [seq a_try_aquire_loop List.find].
    rewrite needed_between_nil by lia. replace j with (S ERTS_PROC_LOCK_MAX_BIT) by lia.
    done.
  - cbn [seq a_try_aquire_loop List.find].
    assert (j <= ERTS_PROC_LOCK_MAX_BIT)%nat as Hj by lia.
    rewrite truthy_land_lock by (apply max_bit_word; lia).
    destruct (bit locks j) eqn:Hbj.
    + destruct (a_queue a j) as [| h t] eqn:Hq.
      * rewrite truthy_land_lock by (apply max_bit_word; lia).
        destruct (bit (a_flags a) j) eqn:Hheld.
        -- (* held: set the wait flag and queue up *)
           unfold blocked at 1. rewrite Hbj, Hheld, orb_true_r. cbn [andb].
           rewrite needed_between_nil by lia. unfold block_at, acquire_bits.
           cbn [fold_left]. by rewrite Hq.
        -- (* free: take it *)
           unfold blocked at 1. rewrite Hbj, Hheld, Hq.
           rewrite bool_decide_eq_true_2 by done. cbn [andb orb negb].
           rewrite land_ones_take by done.
           change (a_band (wnot (wshl (wshl 1 (Z.of_nat j)) ERTS_PROC_LOCK_WAITER_SHIFT))
                     (a_bor (Z.lor (wshl (wshl 1 (Z.of_nat j)) ERTS_PROC_LOCK_WAITER_SHIFT)
                                   (wshl 1 (Z.of_nat j))) a))
             with (acquire_bit j a).
           destruct (Z.eqb_spec (Z.land locks (Z.ones (Z.of_nat (S j)))) locks) as [Hall | Hmore].
           ++ (* that was the last needed lock *)
              assert (forall i, (S j <= i)%nat -> bit locks i = false) as Hnone.
              { intros i Hi. rewrite <- Hall, bit_land, bit_ones.
                rewrite bool_decide_eq_false_2 by lia. apply andb_false_r. }
              rewrite (blocked_false_above a locks (S j))
                by (done || intros x Hx%elem_of_seq; lia).
              rewrite (needed_between_cons locks j) by lia. rewrite Hbj.
              rewrite needed_between_none by (intros i Hi; apply Hnone; lia).
              f_equal. apply bit_ext.
              ** apply land_ones_nonneg.
              ** apply land_ones_nonneg.
              ** intros i. rewrite !bit_land, !bit_ones.
                 destruct (decide (i <= j)%nat) as [Hle | Hgt].
                 --- by rewrite !bool_decide_eq_true_2 by lia.
                 --- rewrite Hnone by lia. done.
           ++ rewrite IH by lia.
              rewrite (find_ext_in (blocked (acquire_bit j a) locks) (blocked a locks)).
              2:{ intros x Hx%elem_of_seq. apply blocked_acquire_bit; lia. }
              destruct (List.find (blocked a locks) (seq (S j) n)) as [k |] eqn:Hfind.
              ** apply find_seq_some in Hfind as (Hk & _).
                 rewrite (needed_between_cons locks j k) by lia. by rewrite Hbj.
              ** rewrite (needed_between_cons locks j (S ERTS_PROC_LOCK_MAX_BIT)) by lia.
                 by rewrite Hbj.
      * (* others already waiting *)
        unfold blocked at 1. rewrite Hbj, Hq.
        rewrite bool_decide_eq_false_2 by done. cbn [andb orb negb].
        rewrite needed_between_nil by lia. unfold block_at, acquire_bits.
        cbn [fold_left]. by rewrite Hq.
    + (* not needed *)
      unfold blocked at 1. rewrite Hbj. cbn [andb].
      rewrite <- (land_ones_skip locks j) by done. rewrite IH by lia.
      destruct (List.find (blocked a locks) (seq (S j) n)) as [k |] eqn:Hfind.
      * apply find_seq_some in Hfind as (Hk & _).
        rewrite (needed_between_cons locks j k) by lia. by rewrite Hbj.
      * rewrite (needed_between_cons locks j (S ERTS_PROC_LOCK_MAX_BIT)) by lia.
        by rewrite Hbj.
Qed.

Lemma block_at_uflgs (k : nat) (wtr : tse_ptr) (a : astate) :
  a_uflgs (block_at k wtr a) = a_uflgs a /\ a_uaflgs (block_at k wtr a) = a_uaflgs a.
Proof. unfold block_at. by destruct (a_queue a k). Qed.

(** [try_aquire] on the list view leaves the state that
    [try_aquire_result] describes. *)
Lemma a_try_aquire_eq (wtr : tse_ptr) (a : astate) :
  a_try_aquire wtr a = try_aquire_result wtr a.
Proof.
  unfold a_try_aquire, try_aquire_result, first_blocked, all_lock_nos.
  pose proof (a_try_aquire_loop_spec wtr (a_uflgs a wtr) (S ERTS_PROC_LOCK_MAX_BIT)
                0 a eq_refl) as Hloop.
  change (Z.land (a_uflgs a wtr) (Z.ones (Z.of_nat 0))) with (Z.land (a_uflgs a wtr) 0) in Hloop.
  rewrite Z.land_0_r in Hloop. rewrite Hloop.
  destruct (List.find (blocked a (a_uflgs a wtr)) (seq 0 (S ERTS_PROC_LOCK_MAX_BIT))) as [k |].
  - rewrite (proj1 (block_at_uflgs _ _ _)), (proj1 (acquire_bits_uflgs _ _)). done.
  - rewrite (proj1 (acquire_bits_uflgs _ _)). done.
Qed.

(** ** try_aquire on the list view: the state it leaves *)

Lemma acquire_bits_held (l : list nat) :
  forall a i, Forall (fun b => b <= ERTS_PROC_LOCK_MAX_BIT)%nat l ->
  (i <= ERTS_PROC_LOCK_MAX_BIT)%nat ->
  bit (a_flags (acquire_bits l a)) i = bit (a_flags a) i || bool_decide (i ∈ l).
Proof.
  induction l as [| b l IH]; intros a i Hl Hi.
  - cbn [acquire_bits fold_left]. rewrite bool_decide_eq_false_2 by apply not_elem_of_nil.
    by rewrite orb_false_r.
  - apply Forall_cons in Hl as [Hb Hl].
    change (acquire_bits (b :: l) a) with (acquire_bits l (acquire_bit b a)).
    rewrite IH by done. rewrite acquire_bit_flags_bit by (done || apply max_bit_word; lia).
    rewrite (bool_decide_eq_false_2 (i = b + _)%nat) by lia. rewrite andb_true_r.
    rewrite <- orb_assoc. f_equal.
    destruct (decide (i = b)) as [-> | Hne].
    + rewrite (bool_decide_eq_true_2 (b = b)) by done.
      rewrite (bool_decide_eq_true_2 (b ∈ b :: l)) by apply list_elem_of_here. done.
    + rewrite (bool_decide_eq_false_2 (i = b)) by done. cbn [orb].
      apply bool_decide_ext. rewrite elem_of_cons. split; [by right | by intros [? | ?]].
Qed.

Lemma acquire_bits_wait (l : list nat) :
  forall a i, Forall (fun b => b <= ERTS_PROC_LOCK_MAX_BIT)%nat l ->
  (i <= ERTS_PROC_LOCK_MAX_BIT)%nat ->
  wait_bit (a_flags (acquire_bits l a)) i
  = wait_bit (a_flags a) i && negb (bool_decide (i ∈ l)).
Proof.
  induction l as [| b l IH]; intros a i Hl Hi.
  - cbn [acquire_bits fold_left]. rewrite bool_decide_eq_false_2 by apply not_elem_of_nil.
    by rewrite andb_true_r.
  - apply Forall_cons in Hl as [Hb Hl].
    change (acquire_bits (b :: l) a) with (acquire_bits l (acquire_bit b a)).
    rewrite IH by done. rewrite !wait_bit_bit.
    pose proof max_bit_small as Hs. rewrite waiter_shift_eq in Hs.
    rewrite acquire_bit_flags_bit by (done || lia).
    rewrite (bool_decide_eq_false_2 (i + _ = b)%nat) by lia. rewrite orb_false_r.
    rewrite <- andb_assoc. f_equal.
    destruct (decide (i = b)) as [-> | Hne].
    + rewrite (bool_decide_eq_true_2 (b + _ = b + _)%nat) by done.
      rewrite (bool_decide_eq_true_2 (b ∈ b :: l)) by apply list_elem_of_here. done.
    + rewrite (bool_decide_eq_false_2 (i + _ = b + _)%nat) by lia. cbn [negb andb].
      f_equal. apply bool_decide_ext. rewrite elem_of_cons. split; [by right | by intros [? | ?]].
Qed.

Lemma needed_between_le (locks : Z) (j k : nat) :
  (k <= S ERTS_PROC_LOCK_MAX_BIT)%nat ->
  Forall (fun b => b <= ERTS_PROC_LOCK_MAX_BIT)%nat (needed_between locks j k).
Proof.
  intros Hk. apply Forall_forall. intros b [_ Hb]%needed_between_elem. lia.
Qed.

Lemma first_blocked_some (a : astate) (locks : Z) (k : nat) :
  first_blocked a locks = Some k ->
  (k <= ERTS_PROC_LOCK_MAX_BIT)%nat /\ blocked a locks k = true /\
  forall i, (i < k)%nat -> blocked a locks i = false.
Proof.
  intros H. apply find_seq_some in H as (Hk & Hb & Hlow).
  split_and!; [lia | done |]. intros i Hi. apply Hlow. lia.
Qed.

Lemma first_blocked_none (a : astate) (locks : Z) :
  first_blocked a locks = None ->
  forall i, (i <= ERTS_PROC_LOCK_MAX_BIT)%nat -> blocked a locks i = false.
Proof.
  intros H i Hi. apply (find_seq_none _ _ _ H). lia.
Qed.

Lemma bit_taken_locks (a : astate) (locks : Z) (i : nat) :
  bit (taken_locks a locks) i
  = bit locks i
    && bool_decide (i < default (S ERTS_PROC_LOCK_MAX_BIT) (first_blocked a locks))%nat.
Proof. unfold taken_locks. by rewrite bit_land, bit_ones. Qed.

Lemma taken_locks_needed_between (a : astate) (locks : Z) (i : nat) :
  bool_decide
    (i ∈ needed_between locks 0
           (default (S ERTS_PROC_LOCK_MAX_BIT) (first_blocked a locks)))
  = bit (taken_locks a locks) i.
Proof.
  rewrite bit_taken_locks. destruct (bit locks i) eqn:Hb.
  - cbn [andb]. apply bool_decide_ext. rewrite needed_between_elem. split.
    + intros [_ ?]. lia.
    + intros ?. split; [done | lia].
  - apply bool_decide_eq_false_2. rewrite needed_between_elem. intros [? _]. congruence.
Qed.

Lemma blocked_true (a : astate) (locks : Z) (b : nat) :
  blocked a locks b = true ->
  bit locks b = true /\ (a_queue a b <> [] \/ bit (a_flags a) b = true).
Proof.
  unfold blocked. intros [Hb Hor]%andb_true_iff. split; [done |].
  apply orb_true_iff in Hor as [Hq | Hh]; [left | by right].
  apply negb_true_iff in Hq. by apply bool_decide_eq_false in Hq.
Qed.

Lemma blocked_false (a : astate) (locks : Z) (b : nat) :
  blocked a locks b = false -> bit locks b = true ->
  a_queue a b = [] /\ bit (a_flags a) b = false.
Proof.
  unfold blocked. intros H Hb. rewrite Hb in H. cbn [andb] in H.
  apply orb_false_iff in H as [Hq Hh]. split; [| done].
  apply negb_false_iff in Hq. by apply bool_decide_eq_true in Hq.
Qed.

Lemma block_at_queue (k : nat) (wtr : tse_ptr) (a : astate) :
  a_queue (block_at k wtr a) = <[k := a_queue a k ++ [wtr]]> (a_queue a).
Proof.
  unfold block_at.
  destruct (a_queue a k) eqn:Hq; cbn [a_enqueue a_queue a_bor a_set_flags]; by rewrite Hq.
Qed.

Lemma try_aquire_result_queue (wtr : tse_ptr) (a : astate) :
  a_queue (try_aquire_result wtr a) =
  match first_blocked a (a_uflgs a wtr) with
  | Some k => <[k := a_queue a k ++ [wtr]]> (a_queue a)
  | None => a_queue a
  end.
Proof.
  unfold try_aquire_result. destruct (first_blocked a (a_uflgs a wtr)) as [k |].
  - cbn [a_set_uflgs a_queue]. rewrite block_at_queue.
    by rewrite (proj2 (proj2 (acquire_bits_uflgs _ _))).
  - cbn [a_set_uflgs a_queue]. by rewrite (proj2 (proj2 (acquire_bits_uflgs _ _))).
Qed.

Lemma try_aquire_result_uflgs (wtr : tse_ptr) (a : astate) :
  a_uflgs (try_aquire_result wtr a)
  = <[wtr := Z.land (a_uflgs a wtr) (wnot (taken_locks a (a_uflgs a wtr)))]> (a_uflgs a).
Proof.
  unfold try_aquire_result, taken_locks.
  destruct (first_blocked a (a_uflgs a wtr)) as [k |]; cbn [a_set_uflgs a_uflgs default].
  - by rewrite (proj1 (block_at_uflgs _ _ _)), (proj1 (acquire_bits_uflgs _ _)).
  - by rewrite (proj1 (acquire_bits_uflgs _ _)).
Qed.

Lemma try_aquire_result_uaflgs (wtr : tse_ptr) (a : astate) :
  a_uaflgs (try_aquire_result wtr a) = a_uaflgs a.
Proof.
  unfold try_aquire_result.
  destruct (first_blocked a (a_uflgs a wtr)) as [k |]; cbn [a_set_uflgs a_uaflgs].
  - by rewrite (proj2 (block_at_uflgs _ _ _)), (proj1 (proj2 (acquire_bits_uflgs _ _))).
  - by rewrite (proj1 (proj2 (acquire_bits_uflgs _ _))).
Qed.

Lemma try_aquire_result_held (wtr : tse_ptr) (a : astate) (i : nat) :
  (i <= ERTS_PROC_LOCK_MAX_BIT)%nat ->
  bit (a_flags (try_aquire_result wtr a)) i
  = bit (a_flags a) i || bit (taken_locks a (a_uflgs a wtr)) i.
Proof.
  intros Hi. rewrite <- taken_locks_needed_between. unfold try_aquire_result.
  destruct (first_blocked a (a_uflgs a wtr)) as [k |] eqn:Hk; cbn [a_set_uflgs a_flags default].
  - apply first_blocked_some in Hk as (Hkle & Hblk & Hlow).
    unfold block_at. rewrite (proj2 (proj2 (acquire_bits_uflgs _ _))).
    destruct (a_queue a k) as [| h t] eqn:Hq; cbn [a_enqueue a_flags a_bor a_set_flags].
    + rewrite bit_lor, acquire_bits_held by (done || apply needed_between_le; lia).
      pose proof max_bit_small as Hs. rewrite waiter_shift_eq in Hs.
      rewrite bit_lor, wflg_eq, !bit_lock by (done || lia).
      rewrite (bool_decide_eq_false_2 (k + _ = i)%nat) by lia. cbn [orb].
      destruct (decide (k = i)) as [<- | Hne].
      * apply blocked_true in Hblk as [_ [Hne | Hheld]]; [done |].
        rewrite Hheld. done.
      * rewrite (bool_decide_eq_false_2 (k = i)) by done. by rewrite orb_false_r.
    + by rewrite acquire_bits_held by (done || apply needed_between_le; lia).
  - by rewrite acquire_bits_held by (done || apply needed_between_le; lia).
Qed.

Lemma try_aquire_result_wait (wtr : tse_ptr) (a : astate) (i : nat) :
  (i <= ERTS_PROC_LOCK_MAX_BIT)%nat ->
  wait_bit (a_flags (try_aquire_result wtr a)) i
  = if bool_decide (first_blocked a (a_uflgs a wtr) = Some i /\ a_queue a i = [])
    then true
    else wait_bit (a_flags a) i && negb (bit (taken_locks a (a_uflgs a wtr)) i).
Proof.
  intros Hi. rewrite <- taken_locks_needed_between. unfold try_aquire_result.
  destruct (first_blocked a (a_uflgs a wtr)) as [k |] eqn:Hk; cbn [a_set_uflgs a_flags default].
  - apply first_blocked_some in Hk as (Hkle & Hblk & Hlow).
    unfold block_at. rewrite (proj2 (proj2 (acquire_bits_uflgs _ _))).
    destruct (a_queue a k) as [| h t] eqn:Hq; cbn [a_enqueue a_flags a_bor a_set_flags].
    + rewrite wait_bit_bit, bit_lor, <- wait_bit_bit.
      rewrite acquire_bits_wait by (done || apply needed_between_le; lia).
      pose proof max_bit_small as Hs. rewrite waiter_shift_eq in Hs.
      rewrite bit_lor, wflg_eq, !bit_lock by (done || lia).
      rewrite (bool_decide_eq_false_2 (k = i + _)%nat) by lia. rewrite orb_false_r.
      destruct (decide (k = i)) as [<- | Hne].
      * rewrite (bool_decide_eq_true_2 (k + _ = k + _)%nat) by done.
        rewrite orb_true_r. by rewrite bool_decide_eq_true_2.
      * rewrite (bool_decide_eq_false_2 (k + _ = i + _)%nat) by lia.
        rewrite orb_false_r. rewrite (bool_decide_eq_false_2 (Some k = Some i /\ _)); [done |].
        intros [[= ?] _]. done.
    + rewrite acquire_bits_wait by (done || apply needed_between_le; lia).
      rewrite (bool_decide_eq_false_2 (Some k = Some i /\ _)); [done |].
      intros [[= <-] Hq']. congruence.
  - rewrite acquire_bits_wait by (done || apply needed_between_le; lia).
    rewrite (bool_decide_eq_false_2 (None = Some i /\ _)); [done |]. by intros [? _].
Qed.

(** ** try_aquire *)

Lemma represents_no_waiters (s : lstate) :
  (forall ix, (ix <= ERTS_PROC_LOCK_MAX_BIT)%nat -> queue (lck s) ix = None) ->
  represents s no_waiters.
Proof.
  intros Hq. split.
  - intros ix Hix. by apply Hq.
  - split.
    + intros ix _. apply NoDup_nil_2.
    + intros i j w _ _ _ Hw. by apply elem_of_nil in Hw.
Qed.

(** X4: on well-formed queues, [try_aquire] for a waiter that is on no
    queue returns, having gone through the waiter's needed locks in
    ascending order up to the first one that has waiters queued or is held
    ([first_blocked]).  The needed locks below that one, all of them free
    with an empty queue, are taken: their held bits are set and their wait
    flags are clear.  The waiter is linked at the tail of the queue of the
    blocking lock, whose wait flag is set if the queue was empty, or on no
    queue if nothing blocked.  The waiter's needed locks are reduced by the
    locks taken; no other held bit, wait flag, queue or waiter changes. *)
Theorem try_aquire_spec (s : lstate) (qs : nat -> list tse_ptr) (wtr : tse_ptr) :
  let a := abs_of s qs in
  let locks := uflgs (tse s wtr) in
  let k := first_blocked a locks in
  let got := taken_locks a locks in
  represents s qs -> ~ queued qs wtr ->
  exists s',
    try_aquire wtr s = Ok (tt, s') /\
    match k with
    | Some b =>
        (b <= ERTS_PROC_LOCK_MAX_BIT)%nat /\ bit locks b = true /\
        (qs b <> [] \/ bit (flags (lck s)) b = true)
    | None => True
    end /\
    (forall i, bit got i = true <->
       bit locks i = true /\ (i < default (S ERTS_PROC_LOCK_MAX_BIT) k)%nat) /\
    (forall i, bit got i = true -> qs i = [] /\ bit (flags (lck s)) i = false) /\
    represents s' (match k with Some b => <[b := qs b ++ [wtr]]> qs | None => qs end) /\
    uflgs (tse s' wtr) = Z.land locks (wnot got) /\
    (forall z, z <> wtr -> uflgs (tse s' z) = uflgs (tse s z)) /\
    (forall z, uaflgs (tse s' z) = uaflgs (tse s z)) /\
    (forall i, (i <= ERTS_PROC_LOCK_MAX_BIT)%nat ->
       bit (flags (lck s')) i = bit (flags (lck s)) i || bit got i) /\
    (forall i, (i <= ERTS_PROC_LOCK_MAX_BIT)%nat ->
       wait_bit (flags (lck s')) i =
       if bool_decide (k = Some i /\ qs i = []) then true
       else wait_bit (flags (lck s)) i && negb (bit got i)).
Proof.
  intros a locks k got Hrep Hw.
  destruct (try_aquire_refines s a wtr (refines_abs_of s qs Hrep) Hw)
    as (s' & Htry & Href & _).
  rewrite a_try_aquire_eq in Href.
  destruct Href as (Hf & _ & Hu & Hua & Hrep').
  rewrite try_aquire_result_queue in Hrep'.
  exists s'. split_and!.
  - done.
  - destruct k as [b |] eqn:Hk; [| done].
    apply first_blocked_some in Hk as (Hb & Hblk & _).
    apply blocked_true in Hblk as [? ?]. done.
  - intros i. unfold got. rewrite bit_taken_locks, andb_true_iff, bool_decide_eq_true. done.
  - intros i Hgot. unfold got in Hgot.
    rewrite bit_taken_locks in Hgot. apply andb_true_iff in Hgot as [Hb Hlt].
    apply bool_decide_eq_true in Hlt.
    apply (blocked_false a locks i); [| done].
    fold k in Hlt. destruct k as [b |] eqn:Hk; cbn [default] in Hlt.
    + apply first_blocked_some in Hk as (_ & _ & Hlow). by apply Hlow.
    + apply (first_blocked_none _ _ Hk). lia.
  - done.
  - rewrite Hu, try_aquire_result_uflgs. by rewrite fn_lookup_insert.
  - intros z Hz. rewrite Hu, try_aquire_result_uflgs. by rewrite fn_lookup_insert_ne.
  - intros z. by rewrite Hua, try_aquire_result_uaflgs.
  - intros i Hi. rewrite Hf. by apply try_aquire_result_held.
  - intros i Hi. rewrite Hf. by apply try_aquire_result_wait.
Qed.

Lemma try_aquire_spec_witness :
  exists s',
    try_aquire 7%nat busy_lstate = Ok (tt, s') /\
    first_blocked (abs_of busy_lstate no_waiters) 5 = Some 2%nat /\
    taken_locks (abs_of busy_lstate no_waiters) 5 = 1 /\
    flags (lck s') = 133 /\
    uflgs (tse s' 7%nat) = 4 /\
    queue (lck s') 2%nat = Some 7%nat.
Proof.
  destruct (try_aquire_spec busy_lstate no_waiters 7%nat) as (s' & Htry & _).
  { by apply represents_no_waiters. }
  { apply not_queued_no_waiters. }
  exists s'. split; [exact Htry |].
  vm_compute in Htry. injection Htry as <-. repeat split.
Defined.

(** ** Queue/waiter parity *)

Lemma parity_refines (s : lstate) (a : astate) :
  refines s a -> (parity a <-> queue_waiter_parity (lck s)).
Proof.
  intros Href. pose proof Href as (Hf & _).
  unfold parity, parity_except, queue_waiter_parity.
  split; intros H b Hb.
  - pose proof (get_queue_refines s a b Href Hb) as Hq.
    rewrite Hf, (H b Hb (bit_0 b)).
    destruct (queue (lck s) b); [done |]. by rewrite Hq.
  - intros _. pose proof (get_queue_refines s a b Href Hb) as Hq.
    rewrite <- Hf, <- (H b Hb).
    destruct (queue (lck s) b); [done |]. by rewrite Hq.
Qed.

Lemma try_aquire_result_parity (except : Z) (wtr : tse_ptr) (a : astate) :
  parity_except except a -> parity_except except (try_aquire_result wtr a).
Proof.
  intros Hpar b Hb Hex. specialize (Hpar b Hb Hex).
  rewrite try_aquire_result_wait, try_aquire_result_queue by done.
  set (locks := a_uflgs a wtr).
  assert (bit (taken_locks a locks) b = true -> a_queue a b = []) as Hgot.
  { intros Hgot. rewrite bit_taken_locks in Hgot. apply andb_true_iff in Hgot as [Hbl Hlt].
    apply bool_decide_eq_true in Hlt.
    apply (blocked_false a locks b); [| done].
    destruct (first_blocked a locks) as [k |] eqn:Hk; cbn [default] in Hlt.
    - apply first_blocked_some in Hk as (_ & _ & Hlow). by apply Hlow.
    - by apply (first_blocked_none _ _ Hk). }
  destruct (first_blocked a locks) as [k |] eqn:Hk.
  - destruct (decide (k = b)) as [-> | Hne].
    + rewrite fn_lookup_insert.
      assert (bit (taken_locks a locks) b = false) as Hnot.
      { rewrite bit_taken_locks, Hk. cbn [default from_option id].
        rewrite bool_decide_eq_false_2 by (clear; lia). apply andb_false_r. }
      rewrite Hnot. cbn [negb]. rewrite andb_true_r.
      destruct (a_queue a b) as [| h t] eqn:Hq.
      * rewrite bool_decide_eq_true_2 by done. done.
      * rewrite bool_decide_eq_false_2 by (by intros [_ ?]).
        split; [done |]. intros _. by apply Hpar.
    + rewrite fn_lookup_insert_ne by done.
      rewrite bool_decide_eq_false_2 by (intros [[= ?] _]; done).
      destruct (bit (taken_locks a locks) b) eqn:Hg.
      * rewrite andb_false_r. rewrite Hgot by done. done.
      * by rewrite andb_true_r.
  - rewrite bool_decide_eq_false_2 by (by intros [? _]).
    destruct (bit (taken_locks a locks) b) eqn:Hg.
    + rewrite andb_false_r. rewrite Hgot by done. done.
    + by rewrite andb_true_r.
Qed.

(** X5: [try_aquire] keeps queue/waiter parity.  If, on well-formed
    queues, every queue is non-[NULL] exactly when the wait flag of its lock
    is set, then the same holds when [try_aquire] has returned: the wait
    flag it sets with the held bit is cleared again for every lock it
    takes, and stays only on the lock on which it queues the waiter. *)
Theorem try_aquire_keeps_parity (s : lstate) (qs : nat -> list tse_ptr) (wtr : tse_ptr) :
  represents s qs -> ~ queued qs wtr -> queue_waiter_parity (lck s) ->
  exists s', try_aquire wtr s = Ok (tt, s') /\ queue_waiter_parity (lck s').
Proof.
  intros Hrep Hw Hpar.
  pose proof (refines_abs_of s qs Hrep) as Href.
  destruct (try_aquire_refines s _ wtr Href Hw) as (s' & Htry & Href' & _).
  exists s'. split; [done |].
  apply (parity_refines s' _ Href'). rewrite a_try_aquire_eq.
  apply try_aquire_result_parity. by apply (parity_refines s _ Href).
Qed.

Lemma try_aquire_keeps_parity_witness :
  exists s',
    try_aquire 7%nat busy_lstate = Ok (tt, s') /\
    queue_waiter_parity (lck s') /\ queue_waiter_parityb (lck s') = true.
Proof.
  destruct (try_aquire_keeps_parity busy_lstate no_waiters 7%nat) as (s' & Htry & Hpar).
  { by apply represents_no_waiters. }
  { apply not_queued_no_waiters. }
  { intros b Hb. unfold ERTS_PROC_LOCK_MAX_BIT in Hb.
    do 5 (destruct b as [| b]; [by vm_compute |]). lia. }
  exists s'. split; [exact Htry |]. split; [exact Hpar |].
  vm_compute in Htry. injection Htry as <-. reflexivity.
Defined.

(** ** transfer_locks: the source refines the list view *)

Lemma wake_rep_frame t t' wk l :
  wake_rep t wk l -> (forall z, z ∈ l -> next (t' z) = next (t z)) -> wake_rep t' wk l.
Proof.
  revert wk. induction l as [| x l IH]; intros wk H Hfr; [done |].
  destruct H as [-> H]. split; [done |].
  rewrite Hfr by apply list_elem_of_here. apply IH; [done |].
  intros z Hz. apply Hfr. by apply list_elem_of_further.
Qed.

Lemma set_next_refines s a w n :
  refines s a -> ~ queued (a_queue a) w ->
  exists s',
    set_next w n s = Ok (tt, s') /\ refines s' a /\
    next (tse s' w) = n /\ (forall z, z <> w -> tse s' z = tse s z).
Proof.
  intros (Hf & He & Hu & Hua & [Hring Hdis]) Hw.
  eexists. split; [apply set_next_eq |]. cbn [lck tse events].
  split; [| split].
  - unfold refines. cbn [lck tse events]. split_and!; try done.
    + intros z. by rewrite uflgs_upd_next.
    + intros z. by rewrite uaflgs_upd_next.
    + split; [| done]. intros ix Hix. cbn [lck tse].
      eapply ring_frame; [by apply Hring |].
      intros z Hz. assert (z <> w) as Hne by (intros ->; apply Hw; by exists ix).
      by rewrite upd_next_other.
  - by rewrite next_upd_next, decide_True.
  - intros z Hz. by apply upd_next_other.
Qed.

Lemma queued_dequeue qs ix w rest z :
  qs ix = w :: rest -> queued (<[ix := rest]> qs) z -> queued qs z.
Proof.
  intros Hq (i & Hi & Hz). exists i. split; [done |].
  destruct (decide (i = ix)) as [-> | Hne].
  - rewrite fn_lookup_insert in Hz. rewrite Hq. by apply list_elem_of_further.
  - by rewrite fn_lookup_insert_ne in Hz.
Qed.

Lemma queued_try_aquire_result wtr a z :
  queued (a_queue (try_aquire_result wtr a)) z -> z = wtr \/ queued (a_queue a) z.
Proof.
  rewrite try_aquire_result_queue. intros (i & Hi & Hz).
  destruct (first_blocked a (a_uflgs a wtr)) as [k |]; [| right; by exists i].
  destruct (decide (i = k)) as [-> | Hne].
  - rewrite fn_lookup_insert in Hz. apply elem_of_app in Hz as [Hz | Hz].
    + right. by exists k.
    + left. by apply list_elem_of_singleton in Hz.
  - rewrite fn_lookup_insert_ne in Hz by done. right. by exists i.
Qed.

(** A waiter that [try_aquire] queues still needs the lock it is queued
    on. *)
Lemma try_aquire_result_blocked_needs wtr a k :
  first_blocked a (a_uflgs a wtr) = Some k ->
  bit (a_uflgs (try_aquire_result wtr a) wtr) k = true.
Proof.
  intros Hk. rewrite try_aquire_result_uflgs, fn_lookup_insert.
  rewrite bit_land, bit_wnot, bit_taken_locks, Hk. cbn [default from_option id].
  pose proof (first_blocked_some _ _ _ Hk) as (Hkle & Hblk & _).
  apply blocked_true in Hblk as [Hb _]. rewrite Hb.
  rewrite (bool_decide_eq_false_2 (k < k)%nat) by lia.
  rewrite bool_decide_eq_true_2 by (apply max_bit_word; lia). done.
Qed.

Lemma try_aquire_result_done wtr a :
  a_uflgs (try_aquire_result wtr a) wtr = 0 ->
  first_blocked a (a_uflgs a wtr) = None /\
  a_queue (try_aquire_result wtr a) = a_queue a.
Proof.
  intros H0. destruct (first_blocked a (a_uflgs a wtr)) as [k |] eqn:Hk.
  - pose proof (try_aquire_result_blocked_needs wtr a k Hk) as Hb.
    rewrite H0, bit_0 in Hb. done.
  - split; [done |]. by rewrite try_aquire_result_queue, Hk.
Qed.

Lemma transfer_loop_refines (lock_check : bool) (lock_nos : list nat) :
  Forall (fun i => i <= ERTS_PROC_LOCK_MAX_BIT)%nat lock_nos ->
  forall s v a av, transfer_inv s v a av ->
  match a_transfer_loop lock_check lock_nos av a with
  | Some (av', a') =>
      exists s' v', transfer_loop lock_check lock_nos v s = Ok (v', s') /\
                    transfer_inv s' v' a' av'
  | None => transfer_loop lock_check lock_nos v s = Undefined
  end.
Proof.
  induction 1 as [| lock_no lock_nos Hle Hall IH]; intros s v a av Hinv.
  - exists s, v. done.
  - pose proof Hinv as (Href & Htr & Hun & Htl & Hwake & Hnq).
    remember (transfer_loop lock_check (lock_no :: lock_nos) v s) as c eqn:Hc.
    cbn [a_transfer_loop]. cbn [transfer_loop] in Hc. rewrite Htl in Hc.
    destruct (truthy (a_tlocks av)); [| subst c; by exists s, v].
    destruct (truthy (Z.land (a_tlocks av) (wshl 1 (Z.of_nat lock_no))));
      [| subst c; by apply IH].
    destruct (a_queue a lock_no) as [| wtr rest] eqn:Hq.
    { subst c. unfold mbind, M_bind.
      by rewrite (dequeue_refines_empty s a lock_no Href Hle Hq). }
    destruct (dequeue_refines s a lock_no wtr rest Href Hle Hq)
      as (s1 & Hdeq & Href1 & Hfr1 & Hw1).
    unfold mbind at 1, M_bind at 1 in Hc. rewrite Hdeq in Hc.
    unfold mbind at 1, M_bind at 1 in Hc. unfold get_queue at 1 in Hc.
    pose proof (get_queue_refines s1 _ lock_no Href1 Hle) as Hq1.
    cbn [a_set_queue a_queue] in Hq1. rewrite fn_lookup_insert in Hq1.
    assert (match queue (lck s1) lock_no with
            | Some _ => unset_waiter v
            | None => Z.lor (unset_waiter v) (wshl 1 (Z.of_nat lock_no))
            end
            = match rest with
              | [] => Z.lor (a_unset_waiter av) (wshl 1 (Z.of_nat lock_no))
              | _ :: _ => a_unset_waiter av
              end) as Hunset.
    { rewrite Hun. destruct (queue (lck s1) lock_no), rest; done. }
    unfold mbind at 1, M_bind at 1 in Hc. unfold get_tse at 1 in Hc.
    pose proof Href1 as (_ & _ & Hu1 & _). rewrite Hu1 in Hc.
    destruct (set_uflgs_refines s1 _ wtr
                (Z.land (a_uflgs (a_set_queue lock_no rest a) wtr)
                        (wnot (wshl 1 (Z.of_nat lock_no)))) Href1)
      as (s2 & Hset & Href2 & Hn2).
    unfold mbind at 1, M_bind at 1 in Hc. rewrite Hset in Hc.
    set (a2 := a_set_uflgs wtr _ (a_set_queue lock_no rest a)) in *.
    unfold mbind at 1, M_bind at 1 in Hc. unfold get_tse at 1 in Hc.
    pose proof Href2 as (_ & _ & Hu2 & _). rewrite Hu2 in Hc.
    pose proof Href as (_ & _ & _ & _ & [_ Hdis]).
    assert (~ queued (a_queue a2) wtr) as Hw2
      by apply (disjoint_dequeue _ lock_no wtr rest Hdis Hle Hq).
    assert (exists s3,
      (if truthy (a_uflgs a2 wtr) then try_aquire wtr else mret tt) s2 = Ok (tt, s3) /\
      refines s3 (if truthy (a_uflgs a2 wtr) then a_try_aquire wtr a2 else a2) /\
      (forall z, ~ queued (a_queue a2) z -> z <> wtr ->
         next (tse s3 z) = next (tse s2 z))) as (s3 & Htry & Href3 & Hfr3).
    { destruct (truthy (a_uflgs a2 wtr)).
      - by apply try_aquire_refines.
      - exists s2. done. }
    unfold mbind at 1, M_bind at 1 in Hc. rewrite Htry in Hc.
    set (a3 := if truthy (a_uflgs a2 wtr) then a_try_aquire wtr a2 else a2) in *.
    unfold mbind at 1, M_bind at 1 in Hc. unfold get_tse at 1 in Hc.
    pose proof Href3 as (_ & _ & Hu3 & _). rewrite Hu3 in Hc.
    (* the waiters of the wake list are left alone *)
    assert (forall z, z ∈ a_wake av ->
              z <> wtr /\ ~ queued (a_queue a3) z /\ next (tse s3 z) = next (tse s z))
      as Hold.
    { intros z Hz. pose proof (Hnq z Hz) as Hzq.
      assert (z <> wtr) as Hzw.
      { intros ->. apply Hzq. exists lock_no. split; [done |].
        rewrite Hq. apply list_elem_of_here. }
      assert (~ queued (a_queue a2) z) as Hzq2.
      { intros Hqz. apply Hzq. by apply (queued_dequeue _ lock_no wtr rest). }
      split_and!; [done | |].
      - unfold a3. destruct (truthy (a_uflgs a2 wtr)); [| done].
        rewrite a_try_aquire_eq. intros [? | ?]%queued_try_aquire_result; done.
      - rewrite Hfr3, Hn2 by done. by rewrite Hfr1. }
    destruct (negb (truthy (a_uflgs a3 wtr))) eqn:Hzero.
    + (* the waiter has all its locks: onto the wake list *)
      assert (~ queued (a_queue a3) wtr) as Hw3.
      { apply negb_true_iff, truthy_false in Hzero. revert Hzero. unfold a3.
        destruct (truthy (a_uflgs a2 wtr)); [| done].
        rewrite a_try_aquire_eq. intros H0.
        by rewrite (proj2 (try_aquire_result_done wtr a2 H0)). }
      destruct (set_next_refines s3 a3 wtr (wake v) Href3 Hw3)
        as (s4 & Hnext & Href4 & Hn4 & Hfr4).
      unfold mbind at 1, M_bind at 1 in Hc. rewrite Hnext in Hc.
      rewrite Hunset, Htr in Hc. subst c. apply IH. unfold transfer_inv.
      cbn [transferred unset_waiter tlocks wake a_transferred a_unset_waiter a_tlocks a_wake].
      split_and!; try done.
      * split; [done |]. rewrite Hn4.
        eapply wake_rep_frame; [exact Hwake |].
        intros z Hz. destruct (Hold z Hz) as (Hzw & _ & Hzn).
        by rewrite Hfr4.
      * intros z [-> | Hz]%elem_of_cons; [done |]. by apply Hold.
    + rewrite Hunset, Htr in Hc. subst c. apply IH. unfold transfer_inv.
      cbn [transferred unset_waiter tlocks wake a_transferred a_unset_waiter a_tlocks a_wake].
      split_and!; try done.
      * eapply wake_rep_frame; [exact Hwake |].
        intros z Hz. by apply Hold.
      * intros z Hz. by apply Hold.
Qed.

Lemma wake_loop_refines (l : list tse_ptr) :
  forall fuel w s a,
  refines s a -> wake_rep (tse s) (Some w) (w :: l) -> (length l < fuel)%nat ->
  exists s', wake_loop fuel w s = Ok (tt, s') /\ refines s' (a_wake_all (w :: l) a).
Proof.
  induction l as [| x l IH]; intros fuel w s a Href [_ Hrep] Hfuel;
    (destruct fuel as [| fuel]; [cbn [length] in Hfuel; lia |]).
  - cbn [wake_loop a_wake_all]. cbn [wake_rep] in Hrep.
    unfold mbind at 1, M_bind at 1. unfold get_tse at 1. rewrite Hrep.
    destruct (set_uaflgs_refines s a w 0 Href) as (s1 & Hset & Href1 & _).
    unfold mbind at 1, M_bind at 1. rewrite Hset.
    destruct (emit_refines s1 _ (Ev_wake w) Href1) as (s2 & Hemit & Href2 & _).
    unfold mbind at 1, M_bind at 1. rewrite Hemit.
    exists s2. done.
  - cbn [wake_loop a_wake_all]. pose proof Hrep as [Hnext Hrest].
    unfold mbind at 1, M_bind at 1. unfold get_tse at 1. rewrite Hnext.
    destruct (set_uaflgs_refines s a w 0 Href) as (s1 & Hset & Href1 & Hn1).
    unfold mbind at 1, M_bind at 1. rewrite Hset.
    destruct (emit_refines s1 _ (Ev_wake w) Href1) as (s2 & Hemit & Href2 & Ht2).
    unfold mbind at 1, M_bind at 1. rewrite Hemit.
    apply (IH fuel x s2 _ Href2); [| cbn [length] in Hfuel; lia].
    split; [done |]. rewrite Ht2, Hn1. eapply wake_rep_frame; [exact Hrest |].
    intros z _. by rewrite Hn1.
Qed.

Lemma a_transfer_loop_wake_length (lock_check : bool) (lock_nos : list nat) :
  forall av a av' a',
  a_transfer_loop lock_check lock_nos av a = Some (av', a') ->
  (length (a_wake av') <= length (a_wake av) + length lock_nos)%nat.
Proof.
  induction lock_nos as [| lock_no lock_nos IH]; intros av a av' a' H.
  - injection H as <- <-. lia.
  - cbn [a_transfer_loop] in H. cbn [length].
    destruct (truthy (a_tlocks av)); [| injection H as <- <-; lia].
    destruct (truthy (Z.land (a_tlocks av) (wshl 1 (Z.of_nat lock_no)))).
    + destruct (a_queue a lock_no) as [| wtr rest]; [done |].
      match type of H with
      | (if ?c then _ else _) = _ => destruct c
      end; apply IH in H; cbn [a_wake length] in H; lia.
    + apply IH in H. lia.
Qed.

(** [transfer_locks] on the pointer structure does what the list view
    does; where the list view finds an empty queue to dequeue from, the
    source dereferences [NULL]. *)
Lemma transfer_locks_refines (lock_check : bool) (trnsfr_lcks : ErtsProcLocks)
    (unlock : bool) (s : lstate) (a : astate) :
  refines s a ->
  match a_transfer_locks lock_check trnsfr_lcks unlock a with
  | Some (n, wk, a') =>
      exists s', transfer_locks lock_check trnsfr_lcks unlock s = Ok (n, s') /\
                 refines s' a'
  | None => transfer_locks lock_check trnsfr_lcks unlock s = Undefined
  end.
Proof.
  intros Href. unfold a_transfer_locks.
  remember (transfer_locks lock_check trnsfr_lcks unlock s) as c eqn:Hc.
  unfold transfer_locks in Hc.
  pose proof (transfer_loop_refines lock_check all_lock_nos all_lock_nos_le
                s (mk_tvars 0 None 0 trnsfr_lcks) a (mk_atvars 0 [] 0 trnsfr_lcks)) as Hloop.
  pose proof (a_transfer_loop_wake_length lock_check all_lock_nos
                (mk_atvars 0 [] 0 trnsfr_lcks) a) as Hlen.
  destruct (a_transfer_loop lock_check all_lock_nos (mk_atvars 0 [] 0 trnsfr_lcks) a)
    as [[av a1] |].
  2:{ subst c. unfold mbind, M_bind. rewrite Hloop; [done |].
      unfold transfer_inv. cbn. split_and!; try done. intros z Hz. by apply elem_of_nil in Hz. }
  destruct Hloop as (s1 & v & Hrun & Href1 & Htr & Hun & Htl & Hwake & Hnq).
  { unfold transfer_inv. cbn. split_and!; try done. intros z Hz. by apply elem_of_nil in Hz. }
  specialize (Hlen av a1 eq_refl). cbn [a_wake length] in Hlen.
  unfold mbind at 1, M_bind at 1 in Hc. rewrite Hrun in Hc. rewrite Hun, Htr in Hc.
  (* clearing the wait flags of the drained queues *)
  assert (exists s2,
    (if truthy (a_unset_waiter av)
     then _ ← flgs_band (wnot (wshl (a_unset_waiter av) ERTS_PROC_LOCK_WAITER_SHIFT));
          mret tt
     else mret tt) s1 = Ok (tt, s2) /\
    refines s2 (if truthy (a_unset_waiter av)
                then a_band (wnot (wshl (a_unset_waiter av) ERTS_PROC_LOCK_WAITER_SHIFT)) a1
                else a1) /\
    tse s2 = tse s1) as (s2 & Hband & Href2 & Ht2).
  { destruct (truthy (a_unset_waiter av)).
    - destruct (flgs_band_refines s1 a1
                  (wnot (wshl (a_unset_waiter av) ERTS_PROC_LOCK_WAITER_SHIFT)) Href1)
        as (s2 & Hb & Href2 & Ht2).
      exists s2. unfold mbind, M_bind. rewrite Hb. done.
    - exists s1. done. }
  unfold mbind at 1, M_bind at 1 in Hc. rewrite Hband in Hc.
  set (a2 := if truthy (a_unset_waiter av) then _ else a1) in *.
  destruct (a_wake av) as [| w l] eqn:Hwk.
  - cbn [wake_rep] in Hwake. rewrite Hwake in Hc.
    destruct unlock.
    + destruct (emit_refines s2 a2 Ev_pix_unlock Href2) as (s3 & Hemit & Href3 & _).
      unfold mbind at 1, M_bind at 1 in Hc. rewrite Hemit in Hc.
      exists s3. subst c. done.
    + exists s2. subst c. done.
  - pose proof Hwake as [Hw _]. rewrite Hw in Hc.
    destruct (emit_refines s2 a2 Ev_pix_unlock Href2) as (s3 & Hemit & Href3 & Ht3).
    unfold mbind at 1, M_bind at 1 in Hc. unfold mbind at 1, M_bind at 1 in Hc.
    rewrite Hemit in Hc.
    destruct (wake_loop_refines l (S (S ERTS_PROC_LOCK_MAX_BIT)) w s3 _ Href3)
      as (s4 & Hwl & Href4).
    { rewrite Ht3, Ht2. rewrite <- Hw. exact Hwake. }
    { cbn [length] in Hlen. unfold all_lock_nos in Hlen. rewrite length_seq in Hlen. lia. }
    unfold mbind at 1, M_bind at 1 in Hc. rewrite Hwl in Hc.
    destruct unlock; cbn [negb] in *.
    + exists s4. subst c. done.
    + destruct (emit_refines s4 _ Ev_pix_lock Href4) as (s5 & Hemit5 & Href5 & _).
      rewrite Hemit5 in Hc. exists s5. subst c. done.
Qed.

(** ** transfer_locks on the list view: the rounds of the loop *)

Lemma a_transfer_loop_cons (lock_check : bool) (b : nat) (l : list nat)
    (v : a_transfer_vars) (a : astate) :
  (b <= ERTS_PROC_LOCK_MAX_BIT)%nat ->
  a_transfer_loop lock_check (b :: l) v a =
  if truthy (a_tlocks v) then
    if bit (a_tlocks v) b then
      match a_queue a b with
      | [] => None
      | wtr :: rest =>
          a_transfer_loop lock_check l
            (a_transfer_next lock_check b wtr rest v (a_handoff b wtr rest a))
            (a_handoff b wtr rest a)
      end
    else a_transfer_loop lock_check l v a
  else Some (v, a).
Proof.
  intros Hb. cbn [a_transfer_loop].
  rewrite truthy_land_lock by (apply max_bit_word; lia).
  destruct (truthy (a_tlocks v)); [| done].
  destruct (bit (a_tlocks v) b); [| done].
  destruct (a_queue a b) as [| wtr rest]; [done |].
  unfold a_transfer_next. fold (a_handoff b wtr rest a).
  by destruct (negb (truthy (a_uflgs (a_handoff b wtr rest a) wtr))).
Qed.

Lemma try_aquire_result_disjoint (wtr : tse_ptr) (a : astate) :
  disjoint_queues (a_queue a) -> ~ queued (a_queue a) wtr ->
  disjoint_queues (a_queue (try_aquire_result wtr a)).
Proof.
  intros Hdis Hw. rewrite try_aquire_result_queue.
  destruct (first_blocked a (a_uflgs a wtr)) as [k |] eqn:Hk; [| done].
  apply first_blocked_some in Hk as (Hkle & _). by apply disjoint_enqueue.
Qed.

Lemma try_aquire_result_waits (wtr : tse_ptr) (a : astate) :
  waits_on_lowest a -> is_locks (a_uflgs a wtr) -> ~ queued (a_queue a) wtr ->
  waits_on_lowest (try_aquire_result wtr a).
Proof.
  intros Hwl Hlocks Hnq b w Hb Hw.
  rewrite try_aquire_result_queue in Hw.
  destruct (decide (w = wtr)) as [-> | Hne].
  - destruct (first_blocked a (a_uflgs a wtr)) as [k |] eqn:Hk.
    2:{ exfalso. apply Hnq. by exists b. }
    destruct (decide (b = k)) as [-> | Hbk].
    2:{ rewrite fn_lookup_insert_ne in Hw by done. exfalso. apply Hnq. by exists b. }
    pose proof (try_aquire_result_blocked_needs wtr a k Hk) as Hneeds.
    rewrite try_aquire_result_uflgs, fn_lookup_insert in *.
    split_and!; [by apply is_locks_land | done |].
    intros j Hj. rewrite bit_land, bit_wnot, bit_taken_locks, Hk.
    cbn [default from_option id]. rewrite (bool_decide_eq_true_2 (j < k)%nat) by done.
    by destruct (bit (a_uflgs a wtr) j).
  - rewrite try_aquire_result_uflgs, fn_lookup_insert_ne by done.
    apply Hwl; [done |].
    destruct (first_blocked a (a_uflgs a wtr)) as [k |]; [| done].
    destruct (decide (b = k)) as [-> | Hbk].
    + rewrite fn_lookup_insert in Hw. apply elem_of_app in Hw as [Hw | Hw]; [done |].
      by apply list_elem_of_singleton in Hw.
    + by rewrite fn_lookup_insert_ne in Hw.
Qed.

(** Where [try_aquire] queues a waiter, the waiter needs that lock. *)
Lemma try_aquire_result_queue_grows (wtr : tse_ptr) (a : astate) (b : nat) :
  exists new,
    a_queue (try_aquire_result wtr a) b = a_queue a b ++ new /\
    (new = [] \/ new = [wtr] /\ bit (a_uflgs a wtr) b = true).
Proof.
  rewrite try_aquire_result_queue.
  destruct (first_blocked a (a_uflgs a wtr)) as [k |] eqn:Hk.
  - destruct (decide (b = k)) as [-> | Hbk].
    + exists [wtr]. rewrite fn_lookup_insert. split; [done |]. right. split; [done |].
      apply first_blocked_some in Hk as (_ & Hblk & _). by apply blocked_true in Hblk as [? _].
    + exists []. rewrite fn_lookup_insert_ne by done. rewrite app_nil_r. by split; [| left].
  - exists []. rewrite app_nil_r. by split; [| left].
Qed.

Lemma handoff_pre (j : nat) (wtr : tse_ptr) (rest : list tse_ptr)
    (tl unset : ErtsProcLocks) (a : astate) :
  transfer_wf j tl unset a -> (j <= ERTS_PROC_LOCK_MAX_BIT)%nat ->
  a_queue a j = wtr :: rest ->
  let a2 := a_set_uflgs wtr (Z.land (a_uflgs a wtr) (wnot (wshl 1 (Z.of_nat j))))
              (a_set_queue j rest a) in
  let unset' := match rest with
                | [] => Z.lor unset (wshl 1 (Z.of_nat j))
                | _ :: _ => unset
                end in
  ~ queued (a_queue a2) wtr /\
  is_locks (a_uflgs a2 wtr) /\
  (forall i, (i <= j)%nat -> bit (a_uflgs a2 wtr) i = false) /\
  transfer_wf (S j) tl unset' a2.
Proof.
  intros (Hdis & Hwl & Hpar & Hun & Hne) Hj Hq a2 unset'.
  assert (a_queue a2 = <[j := rest]> (a_queue a)) as Hq2 by done.
  assert (a_uflgs a2 wtr = Z.land (a_uflgs a wtr) (wnot (wshl 1 (Z.of_nat j)))) as Hu2.
  { unfold a2. cbn [a_set_uflgs a_uflgs a_set_queue]. by rewrite fn_lookup_insert. }
  destruct (disjoint_dequeue _ j wtr rest Hdis Hj Hq) as [Hdis2 Hw2].
  destruct (Hwl j wtr Hj) as (Hlocks & Hbj & Hlow).
  { rewrite Hq. apply list_elem_of_here. }
  assert (forall b, bit unset' b = bit unset b || (bool_decide (rest = []) && bool_decide (j = b)))
    as Hunset'.
  { intros b. unfold unset'. destruct rest.
    - rewrite bit_lor, bit_lock by (apply max_bit_word; lia).
      by rewrite (bool_decide_eq_true_2 (@nil tse_ptr = [])) by done.
    - rewrite (bool_decide_eq_false_2 (_ :: _ = [])) by done. by rewrite orb_false_r. }
  split_and!.
  - by rewrite Hq2.
  - rewrite Hu2. by apply is_locks_land.
  - intros i Hi. rewrite Hu2, bit_land, bit_wnot, bit_lock by (apply max_bit_word; lia).
    destruct (decide (i = j)) as [-> | Hij].
    + rewrite (bool_decide_eq_true_2 (j = j)) by done. cbn [negb andb]. apply andb_false_r.
    + rewrite Hlow by lia. done.
  - unfold transfer_wf. rewrite Hq2. split_and!.
    + done.
    + intros b w Hb Hw. rewrite Hq2 in Hw.
      assert (w <> wtr) as Hww by (intros ->; apply Hw2; by exists b).
      unfold a2. cbn [a_set_uflgs a_uflgs a_set_queue]. rewrite fn_lookup_insert_ne by done.
      apply Hwl; [done |].
      destruct (decide (b = j)) as [-> | Hbj'].
      * rewrite fn_lookup_insert in Hw. rewrite Hq. by apply list_elem_of_further.
      * by rewrite fn_lookup_insert_ne in Hw.
    + intros b Hb Hex. rewrite Hunset' in Hex.
      apply orb_false_iff in Hex as [Hex Hex'].
      change (a_flags a2) with (a_flags a). rewrite Hq2.
      destruct (decide (b = j)) as [-> | Hbj'].
      * rewrite fn_lookup_insert.
        rewrite (bool_decide_eq_true_2 (j = j)), andb_true_r in Hex' by done.
        apply bool_decide_eq_false in Hex'.
        split; [done |]. intros _. apply (Hpar j Hj Hex). by rewrite Hq.
      * rewrite fn_lookup_insert_ne by done. by apply Hpar.
    + intros b Hb. rewrite Hunset' in Hb. apply orb_true_iff in Hb as [Hb | Hb].
      * destruct (Hun b Hb) as [Hlt Hempty]. split; [lia |].
        rewrite fn_lookup_insert_ne by lia. done.
      * apply andb_true_iff in Hb as [Hr Hb]. apply bool_decide_eq_true in Hr, Hb.
        subst b. split; [lia |]. by rewrite fn_lookup_insert.
    + intros b Hb Hbit. rewrite fn_lookup_insert_ne by lia. apply Hne; [lia | done].
Qed.

Lemma transfer_wf_tlocks (j : nat) (tl tl' unset : ErtsProcLocks) (a : astate) :
  (forall b, bit tl' b = true -> bit tl b = true) ->
  transfer_wf j tl unset a -> transfer_wf j tl' unset a.
Proof.
  intros Hsub (Hdis & Hwl & Hpar & Hun & Hne). split_and!; try done.
  intros b Hb Hbit. apply Hne; [done |]. by apply Hsub.
Qed.

Lemma transfer_wf_skip (j : nat) (tl unset : ErtsProcLocks) (a : astate) :
  transfer_wf j tl unset a -> transfer_wf (S j) tl unset a.
Proof.
  intros (Hdis & Hwl & Hpar & Hun & Hne). split_and!; try done.
  - intros b Hb. destruct (Hun b Hb). split; [lia | done].
  - intros b Hb Hbit. apply Hne; [lia | done].
Qed.

Lemma handoff_wf (lock_check : bool) (j : nat) (wtr : tse_ptr) (rest : list tse_ptr)
    (v : a_transfer_vars) (a : astate) :
  transfer_wf j (a_tlocks v) (a_unset_waiter v) a ->
  (j <= ERTS_PROC_LOCK_MAX_BIT)%nat -> a_queue a j = wtr :: rest ->
  let a' := a_handoff j wtr rest a in
  let v' := a_transfer_next lock_check j wtr rest v a' in
  transfer_wf (S j) (a_tlocks v') (a_unset_waiter v') a'.
Proof.
  intros Hwf Hj Hq a' v'.
  destruct (handoff_pre j wtr rest _ _ a Hwf Hj Hq) as (Hw2 & Hlocks & Hlow & Hwf2).
  apply (transfer_wf_tlocks _ (a_tlocks v)).
  { unfold v', a_transfer_next. cbn [a_tlocks]. destruct lock_check; [| done].
    intros b. rewrite bit_land. by intros [? _]%andb_true_iff. }
  unfold v', a_transfer_next. cbn [a_unset_waiter].
  unfold a', a_handoff.
  set (a2 := a_set_uflgs wtr _ (a_set_queue j rest a)) in *.
  destruct (truthy (a_uflgs a2 wtr)); [| done].
  rewrite a_try_aquire_eq.
  destruct Hwf2 as (Hdis & Hwl & Hpar & Hun & Hne).
  assert (forall b, a_queue (try_aquire_result wtr a2) b <> a_queue a2 b ->
            bit (a_uflgs a2 wtr) b = true) as Hgrow.
  { intros b Hb. destruct (try_aquire_result_queue_grows wtr a2 b) as (new & Hnew & [-> | [-> ?]]).
    - by rewrite Hnew, app_nil_r in Hb.
    - done. }
  split_and!.
  - by apply try_aquire_result_disjoint.
  - by apply try_aquire_result_waits.
  - by apply try_aquire_result_parity.
  - intros b Hb. destruct (Hun b Hb) as [Hlt Hempty]. split; [done |].
    destruct (decide (a_queue (try_aquire_result wtr a2) b = a_queue a2 b)) as [-> | Hch];
      [done |].
    apply Hgrow in Hch. rewrite Hlow in Hch by lia. done.
  - intros b Hb Hbit.
    destruct (try_aquire_result_queue_grows wtr a2 b) as (new & -> & _).
    intros [Hempty _]%app_eq_nil. by apply (Hne b Hb Hbit).
Qed.

(** The transfer loop goes through: every lock to transfer has a waiter
    to take it, and what held of the state before holds after. *)
Lemma a_transfer_loop_wf (lock_check : bool) (n : nat) :
  forall j v a, (j + n = S ERTS_PROC_LOCK_MAX_BIT)%nat ->
  transfer_wf j (a_tlocks v) (a_unset_waiter v) a ->
  exists v' a' j',
    a_transfer_loop lock_check (seq j n) v a = Some (v', a') /\
    transfer_wf j' (a_tlocks v') (a_unset_waiter v') a'.
Proof.
  induction n as [| n IH]; intros j v a Hjn Hwf.
  - by exists v, a, j.
  - cbn [seq]. rewrite a_transfer_loop_cons by lia.
    destruct (truthy (a_tlocks v)); [| by exists v, a, j].
    destruct (bit (a_tlocks v) j) eqn:Hbit.
    + destruct (a_queue a j) as [| wtr rest] eqn:Hq.
      { exfalso. destruct Hwf as (_ & _ & _ & _ & Hne). apply (Hne j); [lia | done | done]. }
      apply IH; [lia |]. apply handoff_wf; [done | lia | done].
    + apply IH; [lia |]. by apply transfer_wf_skip.
Qed.

Lemma bit_shift_wait (u : Z) (b : nat) :
  (b <= ERTS_PROC_LOCK_MAX_BIT)%nat ->
  wait_bit (wshl u ERTS_PROC_LOCK_WAITER_SHIFT) b = bit u b.
Proof.
  intros Hb. unfold wait_bit, bit, wshl. pose proof max_bit_small as Hs.
  rewrite testbit_wrap, Z.shiftl_spec by (rewrite waiter_shift_eq; lia).
  rewrite waiter_shift_eq in *.
  replace (Z.of_nat b + Z.of_nat (S ERTS_PROC_LOCK_MAX_BIT)
           - Z.of_nat (S ERTS_PROC_LOCK_MAX_BIT)) with (Z.of_nat b) by lia.
  destruct (Z.ltb_spec (Z.of_nat b + Z.of_nat (S ERTS_PROC_LOCK_MAX_BIT)) word_bits);
    [by rewrite andb_true_r | lia].
Qed.

Lemma bit_shift_low (u : Z) (i : nat) :
  (i <= ERTS_PROC_LOCK_MAX_BIT)%nat ->
  bit (wshl u ERTS_PROC_LOCK_WAITER_SHIFT) i = false.
Proof.
  intros Hi. unfold bit, wshl. rewrite testbit_wrap, waiter_shift_eq.
  rewrite Z.shiftl_spec_low by lia. done.
Qed.

Lemma wait_bit_wnot (m : Z) (b : nat) :
  (b <= ERTS_PROC_LOCK_MAX_BIT)%nat -> wait_bit (wnot m) b = negb (wait_bit m b).
Proof.
  intros Hb. rewrite !wait_bit_bit, bit_wnot. pose proof max_bit_small as Hs.
  rewrite waiter_shift_eq in Hs. rewrite bool_decide_eq_true_2 by lia. apply andb_true_r.
Qed.

Lemma wait_bit_land (a b : Z) (i : nat) :
  wait_bit (Z.land a b) i = wait_bit a i && wait_bit b i.
Proof. unfold wait_bit. apply Z.land_spec. Qed.

(** Clearing the wait flags of the drained queues restores parity. *)
Lemma unset_waiter_parity (unset : ErtsProcLocks) (a : astate) :
  parity_except unset a ->
  (forall b, bit unset b = true -> a_queue a b = []) ->
  parity (if truthy unset
          then a_band (wnot (wshl unset ERTS_PROC_LOCK_WAITER_SHIFT)) a
          else a).
Proof.
  intros Hpar Hempty. destruct (truthy unset) eqn:Ht.
  - intros b Hb _. unfold a_band, a_set_flags. cbn [a_flags a_queue].
    rewrite wait_bit_land, wait_bit_wnot, bit_shift_wait by done.
    destruct (bit unset b) eqn:Hu.
    + rewrite andb_false_r, (Hempty b Hu). done.
    + rewrite andb_true_r. by apply Hpar.
  - apply truthy_false in Ht. by subst unset.
Qed.

Lemma a_wake_all_fields (l : list tse_ptr) (a : astate) :
  a_flags (a_wake_all l a) = a_flags a /\
  a_queue (a_wake_all l a) = a_queue a /\
  a_uflgs (a_wake_all l a) = a_uflgs a.
Proof.
  revert a. induction l as [| w l IH]; intros a; [done |].
  cbn [a_wake_all]. destruct (IH (a_emit (Ev_wake w) (a_set_uaflgs w 0 a))) as (-> & -> & ->).
  done.
Qed.

Lemma same_fields_invariants (a a' : astate) :
  a_flags a' = a_flags a -> a_queue a' = a_queue a -> a_uflgs a' = a_uflgs a ->
  parity a -> waits_on_lowest a -> disjoint_queues (a_queue a) ->
  parity a' /\ waits_on_lowest a' /\ disjoint_queues (a_queue a').
Proof.
  intros Hf Hq Hu Hpar Hwl Hdis. split_and!.
  - intros b Hb Hex. rewrite Hf, Hq. by apply Hpar.
  - intros b w Hb Hw. rewrite Hu. apply Hwl; [done |]. by rewrite <- Hq.
  - by rewrite Hq.
Qed.

(** On a well-formed state in which every lock to transfer has its wait
    flag set, the transfer goes through and leaves a well-formed state. *)
Lemma a_transfer_locks_wf (lock_check : bool) (trnsfr_lcks : ErtsProcLocks)
    (unlock : bool) (a : astate) :
  disjoint_queues (a_queue a) -> waits_on_lowest a -> parity a ->
  (forall b, (b <= ERTS_PROC_LOCK_MAX_BIT)%nat -> bit trnsfr_lcks b = true ->
     wait_bit (a_flags a) b = true) ->
  exists n wk a',
    a_transfer_locks lock_check trnsfr_lcks unlock a = Some (n, wk, a') /\
    parity a' /\ waits_on_lowest a' /\ disjoint_queues (a_queue a').
Proof.
  intros Hdis Hwl Hpar Hwait. unfold a_transfer_locks.
  destruct (a_transfer_loop_wf lock_check (S ERTS_PROC_LOCK_MAX_BIT) 0
              (mk_atvars 0 [] 0 trnsfr_lcks) a eq_refl)
    as (v & a1 & j & Hloop & Hdis1 & Hwl1 & Hpar1 & Hun1 & _).
  { cbn [a_tlocks a_unset_waiter]. split_and!; try done.
    - intros b Hb. by rewrite bit_0 in Hb.
    - intros b Hb Hbit. apply (Hpar b); [lia | apply bit_0 |]. apply Hwait; [lia | done]. }
  unfold all_lock_nos. rewrite Hloop.
  eexists _, _, _. split; [done |].
  pose proof (unset_waiter_parity _ a1 Hpar1 (fun b Hb => proj2 (Hun1 b Hb))) as Hpar2.
  set (a2 := if truthy (a_unset_waiter v) then _ else a1) in *.
  assert (a_queue a2 = a_queue a1 /\ a_uflgs a2 = a_uflgs a1) as [Hq2 Hu2].
  { unfold a2. by destruct (truthy (a_unset_waiter v)). }
  assert (waits_on_lowest a2) as Hwl2.
  { intros b w Hb Hw. rewrite Hu2. apply Hwl1; [done |]. by rewrite <- Hq2. }
  assert (disjoint_queues (a_queue a2)) as Hdis2 by by rewrite Hq2.
  apply (same_fields_invariants a2); try done.
  - destruct (a_wake v); [by destruct unlock |].
    destruct unlock; cbn [negb a_emit a_flags]; by rewrite (proj1 (a_wake_all_fields _ _)).
  - destruct (a_wake v); [by destruct unlock |].
    destruct unlock; cbn [negb a_emit a_queue];
      by rewrite (proj1 (proj2 (a_wake_all_fields _ _))).
  - destruct (a_wake v); [by destruct unlock |].
    destruct unlock; cbn [negb a_emit a_uflgs];
      by rewrite (proj2 (proj2 (a_wake_all_fields _ _))).
Qed.

(** ** transfer_locks *)

Lemma waiting_queues_elem (b : nat) (w : tse_ptr) :
  w ∈ waiting_queues b -> b = 2%nat /\ w = 7%nat.
Proof.
  unfold waiting_queues, insert, fn_insert. case_decide as Hb.
  - intros Hw%list_elem_of_singleton. done.
  - intros Hw. by apply elem_of_nil in Hw.
Qed.

Lemma represents_waiting : represents waiting_lstate waiting_queues.
Proof.
  split; [| split].
  - intros ix _. unfold waiting_queues, waiting_lstate, insert, fn_insert. cbn [lck queue tse].
    case_decide as Hix; [| done]. subst ix. vm_compute. done.
  - intros ix _. unfold waiting_queues, insert, fn_insert.
    case_decide; [apply NoDup_singleton | apply NoDup_nil_2].
  - intros i j w _ _ Hij [-> ->]%waiting_queues_elem Hj.
    apply waiting_queues_elem in Hj as [-> _]. done.
Qed.

Lemma waiting_invariants :
  queue_waiter_parity (lck waiting_lstate) /\
  waits_on_lowest (abs_of waiting_lstate waiting_queues) /\
  (forall b, (b <= ERTS_PROC_LOCK_MAX_BIT)%nat -> bit 4 b = true ->
     wait_bit (flags (lck waiting_lstate)) b = true).
Proof.
  split_and!.
  - intros b Hb. unfold ERTS_PROC_LOCK_MAX_BIT in Hb.
    do 5 (destruct b as [| b]; [by vm_compute |]). lia.
  - intros b w Hb [-> ->]%waiting_queues_elem. split_and!; [done | done |].
    intros j Hj. do 2 (destruct j as [| j]; [done |]). lia.
  - intros b Hb. unfold ERTS_PROC_LOCK_MAX_BIT in Hb.
    do 5 (destruct b as [| b]; [by vm_compute |]). lia.
Qed.

Lemma waits_on_lowest_refines (s : lstate) (a : astate) :
  refines s a -> waits_on_lowest a -> waits_on_lowest (abs_of s (a_queue a)).
Proof.
  intros (_ & _ & Hu & _) Hwl b w Hb Hw. cbn [abs_of a_uflgs a_queue] in *.
  rewrite Hu. by apply Hwl.
Qed.

(** X6: [transfer_locks] keeps the lock state well formed.  On
    well-formed queues with queue/waiter parity, on which every queued
    waiter waits on the lowest lock it needs, and with the wait flag set
    for every lock to transfer (the assertion the source makes), the call
    returns, and afterwards the queues are well formed again, every queue
    is non-[NULL] exactly when its wait flag is set (the wait flags of the
    queues it drained are cleared), and every queued waiter still waits on
    the lowest lock it needs. *)
Theorem transfer_locks_keeps_parity (lock_check : bool) (trnsfr_lcks : ErtsProcLocks)
    (unlock : bool) (s : lstate) (qs : nat -> list tse_ptr) :
  represents s qs ->
  queue_waiter_parity (lck s) ->
  waits_on_lowest (abs_of s qs) ->
  (forall b, (b <= ERTS_PROC_LOCK_MAX_BIT)%nat -> bit trnsfr_lcks b = true ->
     wait_bit (flags (lck s)) b = true) ->
  exists n s' qs',
    transfer_locks lock_check trnsfr_lcks unlock s = Ok (n, s') /\
    represents s' qs' /\
    queue_waiter_parity (lck s') /\
    waits_on_lowest (abs_of s' qs').
Proof.
  intros Hrep Hpar Hwl Hwait.
  pose proof (refines_abs_of s qs Hrep) as Href.
  destruct (a_transfer_locks_wf lock_check trnsfr_lcks unlock (abs_of s qs))
    as (n & wk & a' & Hrun & Hpar' & Hwl' & Hdis'); try done.
  { apply Hrep. }
  { by apply (parity_refines s _ Href). }
  pose proof (transfer_locks_refines lock_check trnsfr_lcks unlock s _ Href) as Hconc.
  rewrite Hrun in Hconc. destruct Hconc as (s' & Hok & Href').
  exists n, s', (a_queue a'). split_and!.
  - done.
  - apply Href'.
  - by apply (parity_refines s' a' Href').
  - by apply waits_on_lowest_refines.
Qed.

Lemma transfer_locks_keeps_parity_witness :
  exists s',
    transfer_locks false 4 true waiting_lstate = Ok (1, s') /\
    queue_waiter_parity (lck s') /\
    flags (lck s') = 5 /\ queue (lck s') 2%nat = None /\
    uflgs (tse s' 7%nat) = 0.
Proof.
  destruct waiting_invariants as (Hpar & Hwl & Hwait).
  destruct (transfer_locks_keeps_parity false 4 true waiting_lstate waiting_queues
              represents_waiting Hpar Hwl Hwait)
    as (n & s' & qs' & Hrun & _ & Hpar' & _).
  exists s'. vm_compute in Hrun. injection Hrun as <- <-.
  split; [reflexivity |]. split; [exact Hpar' |]. repeat split.
Defined.

(** ** The flag word along the events of try_aquire and transfer_locks *)

Lemma flags_step_refl (a : astate) : flags_step a a.
Proof. exists []. by rewrite app_nil_r. Qed.

Lemma run_events_app (evs1 evs2 : list event) :
  forall f, run_events f (evs1 ++ evs2) = f' ← run_events f evs1; run_events f' evs2.
Proof.
  induction evs1 as [| e evs1 IH]; intros f; [done |].
  destruct e as [m old | m old | | | w]; cbn [app run_events]; try apply IH.
  - destruct (old =? f); [apply IH | done].
  - destruct (old =? f); [apply IH | done].
Qed.

Lemma flags_step_trans (a b c : astate) :
  flags_step a b -> flags_step b c -> flags_step a c.
Proof.
  intros (e1 & He1 & Ho1 & Hk1 & Hr1) (e2 & He2 & Ho2 & Hk2 & Hr2).
  exists (e1 ++ e2). split_and!.
  - by rewrite He2, He1, app_assoc.
  - by rewrite forallb_app, Ho1, Ho2.
  - by rewrite forallb_app, Hk1, Hk2.
  - rewrite run_events_app, Hr1. done.
Qed.

Lemma flags_step_same (a a' : astate) :
  a_events a' = a_events a -> a_flags a' = a_flags a -> flags_step a a'.
Proof. intros He Hf. exists []. rewrite He, Hf, app_nil_r. done. Qed.

Lemma flags_step_bor (mask : Z) (a : astate) : flags_step a (a_bor mask a).
Proof.
  exists [Ev_bor mask (a_flags a)]. split_and!; [done | done | done |].
  cbn [run_events]. by rewrite Z.eqb_refl.
Qed.

Lemma flags_step_band (mask : Z) (a : astate) :
  Z.land mask ERTS_PROC_LOCKS_ALL = ERTS_PROC_LOCKS_ALL ->
  flags_step a (a_band mask a).
Proof.
  intros Hm. exists [Ev_band mask (a_flags a)]. split_and!; [done | done | |].
  - cbn [forallb keeps_locks]. rewrite Hm, Z.eqb_refl. done.
  - cbn [run_events]. by rewrite Z.eqb_refl.
Qed.

(** The mask that clears wait flags has all lock bits. *)
Lemma unset_mask_keeps_locks (u : Z) :
  Z.land (wnot (wshl u ERTS_PROC_LOCK_WAITER_SHIFT)) ERTS_PROC_LOCKS_ALL
  = ERTS_PROC_LOCKS_ALL.
Proof.
  apply bit_ext.
  - apply Z.land_nonneg. right. apply locks_all_word.
  - apply locks_all_word.
  - intros i. rewrite bit_land, bit_locks_all, bit_wnot.
    destruct (decide (i <= ERTS_PROC_LOCK_MAX_BIT)%nat) as [Hi | Hi].
    + rewrite bit_shift_low by done.
      rewrite (bool_decide_eq_true_2 (Z.of_nat i < word_bits))
        by (apply max_bit_word; lia).
      done.
    + rewrite (bool_decide_eq_false_2 (i <= _)%nat) by done. apply andb_false_r.
Qed.

Lemma a_try_aquire_loop_flags_step (wtr : tse_ptr) (locks : ErtsProcLocks)
    (lock_nos : list nat) :
  forall got a, flags_step a (snd (a_try_aquire_loop lock_nos wtr locks got a)).
Proof.
  induction lock_nos as [| b l IH]; intros got a; [apply flags_step_refl |].
  cbn [a_try_aquire_loop].
  destruct (truthy (Z.land locks (wshl 1 (Z.of_nat b)))); [| apply IH].
  destruct (a_queue a b).
  - destruct (truthy (Z.land (a_flags a) (wshl 1 (Z.of_nat b)))).
    + cbn [snd]. eapply flags_step_trans; [apply flags_step_bor |].
      by apply flags_step_same.
    + assert (flags_step a
                (a_band (wnot (wshl (wshl 1 (Z.of_nat b)) ERTS_PROC_LOCK_WAITER_SHIFT))
                   (a_bor (Z.lor (wshl (wshl 1 (Z.of_nat b)) ERTS_PROC_LOCK_WAITER_SHIFT)
                                 (wshl 1 (Z.of_nat b))) a))) as Hstep.
      { eapply flags_step_trans; [apply flags_step_bor |].
        apply flags_step_band, unset_mask_keeps_locks. }
      destruct (Z.lor got (wshl 1 (Z.of_nat b)) =? locks); [done |].
      eapply flags_step_trans; [exact Hstep | apply IH].
  - cbn [snd]. by apply flags_step_same.
Qed.

Lemma a_try_aquire_flags_step (wtr : tse_ptr) (a : astate) :
  flags_step a (a_try_aquire wtr a).
Proof.
  unfold a_try_aquire.
  pose proof (a_try_aquire_loop_flags_step wtr (a_uflgs a wtr) all_lock_nos 0 a) as H.
  destruct (a_try_aquire_loop all_lock_nos wtr (a_uflgs a wtr) 0 a) as [got a1].
  eapply flags_step_trans; [exact H |]. by apply flags_step_same.
Qed.

Lemma a_handoff_flags_step (b : nat) (wtr : tse_ptr) (rest : list tse_ptr) (a : astate) :
  flags_step a (a_handoff b wtr rest a).
Proof.
  unfold a_handoff.
  set (a2 := a_set_uflgs wtr _ (a_set_queue b rest a)).
  assert (flags_step a a2) as H2 by by apply flags_step_same.
  destruct (truthy (a_uflgs a2 wtr)); [| done].
  eapply flags_step_trans; [exact H2 | apply a_try_aquire_flags_step].
Qed.

Lemma a_transfer_loop_flags_step (lock_check : bool) (lock_nos : list nat) :
  Forall (fun i => i <= ERTS_PROC_LOCK_MAX_BIT)%nat lock_nos ->
  forall v a v' a',
  a_transfer_loop lock_check lock_nos v a = Some (v', a') -> flags_step a a'.
Proof.
  induction 1 as [| b l Hb Hl IH]; intros v a v' a' H.
  - injection H as <- <-. apply flags_step_refl.
  - rewrite a_transfer_loop_cons in H by done.
    destruct (truthy (a_tlocks v)); [| injection H as <- <-; apply flags_step_refl].
    destruct (bit (a_tlocks v) b); [| by eapply IH].
    destruct (a_queue a b) as [| wtr rest]; [done |].
    eapply flags_step_trans; [apply a_handoff_flags_step | by eapply IH].
Qed.

Lemma a_wake_all_events (l : list tse_ptr) (a : astate) :
  a_events (a_wake_all l a) = a_events a ++ (Ev_wake <$> l).
Proof.
  revert a. induction l as [| w l IH]; intros a.
  - by rewrite app_nil_r.
  - cbn [a_wake_all fmap list_fmap]. rewrite IH. cbn [a_emit a_set_uaflgs a_events].
    by rewrite <- app_assoc.
Qed.

(** The events of [transfer_locks]: operations on the flag word none of
    which can clear a lock bit, then the pix lock and wake-up events. *)
Lemma a_transfer_locks_events (lock_check : bool) (trnsfr_lcks : ErtsProcLocks)
    (unlock : bool) (a : astate) n wk a' :
  a_transfer_locks lock_check trnsfr_lcks unlock a = Some (n, wk, a') ->
  exists evs,
    a_events a' = a_events a ++ evs ++ pix_part unlock wk /\
    forallb is_flag_op evs = true /\
    forallb keeps_locks evs = true /\
    run_events (a_flags a) evs = Some (a_flags a').
Proof.
  unfold a_transfer_locks.
  destruct (a_transfer_loop lock_check all_lock_nos (mk_atvars 0 [] 0 trnsfr_lcks) a)
    as [[v a1] |] eqn:Hloop; [| done].
  intros [= <- <- <-].
  apply (a_transfer_loop_flags_step _ _ all_lock_nos_le) in Hloop.
  set (a2 := if truthy (a_unset_waiter v) then _ else a1).
  assert (flags_step a1 a2) as H2.
  { unfold a2. destruct (truthy (a_unset_waiter v)); [| apply flags_step_refl].
    apply flags_step_band, unset_mask_keeps_locks. }
  destruct (flags_step_trans _ _ _ Hloop H2) as (evs & Hev & Hop & Hkeep & Hr).
  exists evs. unfold pix_part.
  destruct (a_wake v) as [| w l].
  - destruct unlock; cbn [a_emit a_events a_flags]; rewrite Hev.
    + by rewrite app_assoc.
    + by rewrite !app_nil_r.
  - destruct unlock; cbn [negb a_emit a_events a_flags];
      rewrite ?(proj1 (a_wake_all_fields _ _)), a_wake_all_events;
      cbn [a_emit a_events a_flags]; rewrite Hev.
    + split_and!; try done. rewrite app_nil_r, <- !app_assoc. done.
    + split_and!; try done. rewrite <- !app_assoc. done.
Qed.

Lemma pix_part_no_flag_op (unlock : bool) (wk : list tse_ptr) :
  forallb keeps_locks (pix_part unlock wk) = true /\
  forall f, run_events f (pix_part unlock wk) = Some f.
Proof.
  assert (forall l : list tse_ptr,
            forallb keeps_locks (Ev_wake <$> l) = true /\
            forall f, run_events f (Ev_wake <$> l) = Some f) as Hwake.
  { induction l as [| w l [IH1 IH2]]; [done |]. split; [done |]. intros f. apply IH2. }
  unfold pix_part. destruct wk as [| w l]; [by destruct unlock |].
  destruct (Hwake (w :: l)) as [Hk Hr].
  split.
  - cbn [forallb keeps_locks]. rewrite forallb_app, Hk. by destruct unlock.
  - intros f. cbn [run_events]. rewrite run_events_app, Hr. by destruct unlock.
Qed.

(** Along operations that cannot clear a lock bit, no lock bit is ever
    clear that was set at the start. *)
Lemma run_events_keeps_locks (evs : list event) :
  forall f f', forallb keeps_locks evs = true -> run_events f evs = Some f' ->
  forall i, (i <= ERTS_PROC_LOCK_MAX_BIT)%nat -> bit f i = true -> bit f' i = true.
Proof.
  induction evs as [| e evs IH]; intros f f' Hk Hr i Hi Hb.
  - by injection Hr as <-.
  - cbn [forallb] in Hk. apply andb_true_iff in Hk as [He Hk].
    destruct e as [m old | m old | | | w]; cbn [run_events] in Hr; try by eapply IH.
    + destruct (old =? f); [| done]. eapply IH; [done | done | done |].
      by rewrite bit_lor, Hb.
    + destruct (old =? f); [| done]. eapply IH; [done | done | done |].
      cbn [keeps_locks] in He. apply Z.eqb_eq in He.
      rewrite bit_land, Hb. cbn [andb].
      assert (bit (Z.land m ERTS_PROC_LOCKS_ALL) i = true) as Hm.
      { rewrite He, bit_locks_all. by apply bool_decide_eq_true_2. }
      rewrite bit_land in Hm. by apply andb_true_iff in Hm as [? _].
Qed.

(** X7: [transfer_locks] never clears a held bit.  On a well-formed lock
    state (as for X6) the call returns, and the atomic operations it has
    made on the flag word, [try_aquire] included, are ors and ands whose
    masks have all lock bits set: the only bits it clears are wait flags.
    Run without interference, each operation finds what its predecessor
    left, and at every point on the way every lock bit that was set at the
    start is set. *)
Theorem transfer_locks_never_clears_held (lock_check : bool)
    (trnsfr_lcks : ErtsProcLocks) (unlock : bool)
    (s : lstate) (qs : nat -> list tse_ptr) :
  represents s qs ->
  queue_waiter_parity (lck s) ->
  waits_on_lowest (abs_of s qs) ->
  (forall b, (b <= ERTS_PROC_LOCK_MAX_BIT)%nat -> bit trnsfr_lcks b = true ->
     wait_bit (flags (lck s)) b = true) ->
  exists n s' evs,
    transfer_locks lock_check trnsfr_lcks unlock s = Ok (n, s') /\
    events s' = events s ++ evs /\
    forallb keeps_locks evs = true /\
    run_events (flags (lck s)) evs = Some (flags (lck s')) /\
    (forall pre post, evs = pre ++ post ->
       exists f, run_events (flags (lck s)) pre = Some f /\
         forall i, (i <= ERTS_PROC_LOCK_MAX_BIT)%nat ->
           bit (flags (lck s)) i = true -> bit f i = true).
Proof.
  intros Hrep Hpar Hwl Hwait.
  pose proof (refines_abs_of s qs Hrep) as Href.
  destruct (a_transfer_locks_wf lock_check trnsfr_lcks unlock (abs_of s qs))
    as (n & wk & a' & Hrun & _); try done.
  { apply Hrep. }
  { by apply (parity_refines s _ Href). }
  pose proof (transfer_locks_refines lock_check trnsfr_lcks unlock s _ Href) as Hconc.
  rewrite Hrun in Hconc. destruct Hconc as (s' & Hok & (Hf' & He' & _)).
  destruct (a_transfer_locks_events _ _ _ _ _ _ _ Hrun) as (evs0 & Hev & _ & Hkeep0 & Hr0).
  cbn [abs_of a_events a_flags] in Hev, Hr0.
  destruct (pix_part_no_flag_op unlock wk) as [Hkpix Hrpix].
  assert (forallb keeps_locks (evs0 ++ pix_part unlock wk) = true) as Hkeep
    by by rewrite forallb_app, Hkeep0, Hkpix.
  assert (run_events (flags (lck s)) (evs0 ++ pix_part unlock wk) = Some (a_flags a')) as Hr.
  { rewrite run_events_app, Hr0. apply Hrpix. }
  exists n, s', (evs0 ++ pix_part unlock wk). rewrite He', Hf'. split_and!; try done.
  intros pre post Heq. rewrite Heq in Hkeep, Hr. rewrite run_events_app in Hr.
  destruct (run_events (flags (lck s)) pre) as [f |] eqn:Hpre; [| done].
  exists f. split; [done |].
  rewrite forallb_app in Hkeep. apply andb_true_iff in Hkeep as [Hkpre _].
  by apply (run_events_keeps_locks pre).
Qed.

Lemma transfer_locks_never_clears_held_witness :
  exists s',
    transfer_locks false 4 true waiting_lstate = Ok (1, s') /\
    events s' = [Ev_band 4294967167 133; Ev_pix_unlock; Ev_wake 7%nat] /\
    flags (lck s') = 5.
Proof.
  destruct waiting_invariants as (Hpar & Hwl & Hwait).
  destruct (transfer_locks_never_clears_held false 4 true waiting_lstate waiting_queues
              represents_waiting Hpar Hwl Hwait)
    as (n & s' & evs & Hrun & _).
  exists s'. vm_compute in Hrun. injection Hrun as <- <-. repeat split.
Defined.

(** ** transfer_locks on the list view: who is woken *)

Lemma try_aquire_result_all (wtr : tse_ptr) (a : astate) :
  is_locks (a_uflgs a wtr) -> first_blocked a (a_uflgs a wtr) = None ->
  a_uflgs (try_aquire_result wtr a) wtr = 0.
Proof.
  intros Hlocks Hk. rewrite try_aquire_result_uflgs, fn_lookup_insert.
  unfold taken_locks. rewrite Hk. cbn [default from_option id].
  rewrite <- locks_all_ones, Hlocks.
  rewrite land_wnot by by apply is_locks_word. apply Z.ldiff_diag.
Qed.

Lemma handoff_waiters (j : nat) (wtr : tse_ptr) (rest : list tse_ptr)
    (tl unset : ErtsProcLocks) (a : astate) :
  transfer_wf j tl unset a -> (j <= ERTS_PROC_LOCK_MAX_BIT)%nat ->
  a_queue a j = wtr :: rest ->
  let a' := a_handoff j wtr rest a in
  (forall w, w <> wtr -> a_uflgs a' w = a_uflgs a w) /\
  (forall w, queued (a_queue a') w -> w = wtr \/ queued (a_queue a) w) /\
  (forall w, w <> wtr -> queued (a_queue a) w -> queued (a_queue a') w) /\
  (a_uflgs a' wtr = 0 -> ~ queued (a_queue a') wtr) /\
  (a_uflgs a' wtr <> 0 -> queued (a_queue a') wtr).
Proof.
  intros Hwf Hj Hq a'.
  destruct (handoff_pre j wtr rest _ _ a Hwf Hj Hq) as (Hw2 & Hlocks & Hlow & Hwf2).
  unfold a', a_handoff.
  set (a2 := a_set_uflgs wtr _ (a_set_queue j rest a)) in *.
  assert (forall w, w <> wtr -> a_uflgs a2 w = a_uflgs a w) as Hu2.
  { intros w Hw. unfold a2. cbn [a_set_uflgs a_uflgs a_set_queue].
    by rewrite fn_lookup_insert_ne. }
  assert (forall w, queued (a_queue a2) w -> queued (a_queue a) w) as Hq2
    by (intros w; apply (queued_dequeue _ j wtr rest w Hq)).
  assert (forall w, w <> wtr -> queued (a_queue a) w -> queued (a_queue a2) w) as Hq2'.
  { intros w Hw (i & Hi & Hin). exists i. split; [done |].
    change (a_queue a2) with (<[j := rest]> (a_queue a)).
    destruct (decide (i = j)) as [-> | Hij].
    - rewrite fn_lookup_insert. rewrite Hq in Hin.
      apply elem_of_cons in Hin as [? | ?]; done.
    - by rewrite fn_lookup_insert_ne. }
  destruct (truthy (a_uflgs a2 wtr)) eqn:Ht.
  - rewrite a_try_aquire_eq. split_and!.
    + intros w Hw. rewrite try_aquire_result_uflgs, fn_lookup_insert_ne by done.
      by apply Hu2.
    + intros w [-> | Hw]%queued_try_aquire_result; [by left | right; by apply Hq2].
    + intros w Hw Hin. apply (Hq2' w Hw) in Hin as (i & Hi & Hin).
      exists i. split; [done |].
      destruct (try_aquire_result_queue_grows wtr a2 i) as (new & -> & _).
      apply elem_of_app. by left.
    + intros H0. by rewrite (proj2 (try_aquire_result_done wtr a2 H0)).
    + intros Hne.
      destruct (first_blocked a2 (a_uflgs a2 wtr)) as [k |] eqn:Hk.
      * pose proof (first_blocked_some _ _ _ Hk) as (Hkle & _).
        exists k. split; [done |]. rewrite try_aquire_result_queue, Hk, fn_lookup_insert.
        apply elem_of_app. right. apply list_elem_of_here.
      * exfalso. apply Hne. by apply try_aquire_result_all.
  - apply truthy_false in Ht. split_and!; try done.
    intros w Hw. right. by apply Hq2.
Qed.

Lemma handoff_acct (lock_check : bool) (qs0 : nat -> list tse_ptr) (j : nat)
    (wtr : tse_ptr) (rest : list tse_ptr) (v : a_transfer_vars) (a : astate) :
  transfer_wf j (a_tlocks v) (a_unset_waiter v) a ->
  (j <= ERTS_PROC_LOCK_MAX_BIT)%nat -> a_queue a j = wtr :: rest ->
  transfer_acct qs0 v a ->
  transfer_acct qs0 (a_transfer_next lock_check j wtr rest v (a_handoff j wtr rest a))
    (a_handoff j wtr rest a).
Proof.
  intros Hwf Hj Hq (Hwk & Hall & Horig).
  destruct (handoff_waiters j wtr rest _ _ a Hwf Hj Hq) as (Hu & Hsub & Hkeep & Hzero & Hnz).
  set (a' := a_handoff j wtr rest a) in *.
  assert (queued (a_queue a) wtr) as Hwq.
  { exists j. split; [done |]. rewrite Hq. apply list_elem_of_here. }
  assert (forall w, w ∈ a_wake v -> w <> wtr) as Hwne.
  { intros w Hw ->. by apply (proj1 (proj2 (Hwk wtr Hw))). }
  unfold a_transfer_next, transfer_acct. cbn [a_wake].
  destruct (negb (truthy (a_uflgs a' wtr))) eqn:Hz.
  - apply negb_true_iff, truthy_false in Hz. split_and!.
    + intros w [-> | Hw]%elem_of_cons.
      * split_and!; [done | by apply Hzero | by apply Horig].
      * destruct (Hwk w Hw) as (Hw0 & Hwnq & Hwo). split_and!; [| | done].
        -- rewrite Hu by by apply Hwne. done.
        -- intros [-> | Hc]%Hsub; [by apply (Hwne wtr Hw) | done].
    + intros w Hw. destruct (decide (w = wtr)) as [-> | Hne].
      * right. apply list_elem_of_here.
      * destruct (Hall w Hw) as [Hin | Hin].
        -- left. by apply Hkeep.
        -- right. by apply list_elem_of_further.
    + intros w [-> | Hw]%Hsub; by apply Horig.
  - apply negb_false_iff, truthy_true in Hz. split_and!.
    + intros w Hw. destruct (Hwk w Hw) as (Hw0 & Hwnq & Hwo). split_and!; [| | done].
      * rewrite Hu by by apply Hwne. done.
      * intros [-> | Hc]%Hsub; [by apply (Hwne wtr Hw) | done].
    + intros w Hw. destruct (decide (w = wtr)) as [-> | Hne].
      * left. by apply Hnz.
      * destruct (Hall w Hw) as [Hin | Hin]; [left; by apply Hkeep | by right].
    + intros w [-> | Hw]%Hsub; by apply Horig.
Qed.

Lemma needed_between_ext (l1 l2 : Z) (k : nat) (n : nat) :
  forall j, (j + n = k)%nat ->
  (forall b, (j <= b < k)%nat -> bit l1 b = bit l2 b) ->
  needed_between l1 j k = needed_between l2 j k.
Proof.
  induction n as [| n IH]; intros j Hjn Hext.
  - by rewrite !needed_between_nil by lia.
  - rewrite !(needed_between_cons _ j k) by lia. rewrite (Hext j) by lia.
    f_equal. apply IH; [lia |]. intros b Hb. apply Hext. lia.
Qed.

(** The loop in full: success, well-formedness, accounting and the count
    of the locks transferred. *)
Lemma a_transfer_loop_full (lock_check : bool) (qs0 : nat -> list tse_ptr) (n : nat) :
  forall j v a, (j + n = S ERTS_PROC_LOCK_MAX_BIT)%nat ->
  transfer_wf j (a_tlocks v) (a_unset_waiter v) a ->
  transfer_acct qs0 v a ->
  exists v' a' j',
    a_transfer_loop lock_check (seq j n) v a = Some (v', a') /\
    transfer_wf j' (a_tlocks v') (a_unset_waiter v') a' /\
    transfer_acct qs0 v' a' /\
    a_transferred v'
    = a_transferred v
      + Z.of_nat (length (needed_between (a_tlocks v) j (S ERTS_PROC_LOCK_MAX_BIT))).
Proof.
  induction n as [| n IH]; intros j v a Hjn Hwf Hacct.
  - exists v, a, j. rewrite needed_between_nil by lia. cbn [length].
    split_and!; try done. lia.
  - cbn [seq]. rewrite a_transfer_loop_cons by lia.
    destruct (truthy (a_tlocks v)) eqn:Ht.
    2:{ apply truthy_false in Ht. exists v, a, j. rewrite Ht.
        rewrite needed_between_none by (intros; apply bit_0). cbn [length].
        rewrite Ht in Hwf. split_and!; try done. lia. }
    rewrite (needed_between_cons _ j) by lia.
    destruct (bit (a_tlocks v) j) eqn:Hbit.
    + destruct (a_queue a j) as [| wtr rest] eqn:Hq.
      { exfalso. destruct Hwf as (_ & _ & _ & _ & Hne). apply (Hne j); [lia | done | done]. }
      destruct (IH (S j) _ _ ltac:(lia)
                  (handoff_wf lock_check j wtr rest v a Hwf ltac:(lia) Hq)
                  (handoff_acct lock_check qs0 j wtr rest v a Hwf ltac:(lia) Hq Hacct))
        as (v' & a' & j' & Hloop & Hwf' & Hacct' & Hcount).
      exists v', a', j'. split_and!; try done.
      rewrite Hcount. unfold a_transfer_next at 1 2. cbn [a_transferred a_tlocks app length].
      rewrite (needed_between_ext _ (a_tlocks v) _ n (S j)); [lia | lia |].
      intros b Hb. destruct lock_check; [| done].
      rewrite bit_land, bit_wnot, bit_lock by (apply max_bit_word; lia).
      rewrite (bool_decide_eq_false_2 (j = b)) by lia.
      rewrite bool_decide_eq_true_2 by (apply max_bit_word; lia).
      by rewrite !andb_true_r.
    + destruct (IH (S j) v a ltac:(lia) (transfer_wf_skip _ _ _ _ Hwf) Hacct)
        as (v' & a' & j' & Hloop & Hwf' & Hacct' & Hcount).
      exists v', a', j'. split_and!; try done.
Qed.

Lemma a_wake_all_uaflgs (l : list tse_ptr) (a : astate) (w : tse_ptr) :
  a_uaflgs (a_wake_all l a) w = if bool_decide (w ∈ l) then 0 else a_uaflgs a w.
Proof.
  revert a. induction l as [| x l IH]; intros a.
  - by rewrite bool_decide_eq_false_2 by apply not_elem_of_nil.
  - cbn [a_wake_all]. rewrite IH. cbn [a_emit a_set_uaflgs a_uaflgs].
    destruct (decide (w ∈ l)) as [Hin | Hnin].
    + rewrite !bool_decide_eq_true_2; [done | by apply list_elem_of_further | done].
    + rewrite (bool_decide_eq_false_2 (w ∈ l)) by done.
      destruct (decide (w = x)) as [-> | Hne].
      * rewrite fn_lookup_insert.
        by rewrite bool_decide_eq_true_2 by apply list_elem_of_here.
      * rewrite fn_lookup_insert_ne by done.
        rewrite bool_decide_eq_false_2; [done |].
        by intros [? | ?]%elem_of_cons.
Qed.

Lemma a_handoff_uaflgs (j : nat) (wtr : tse_ptr) (rest : list tse_ptr) (a : astate) :
  a_uaflgs (a_handoff j wtr rest a) = a_uaflgs a.
Proof.
  unfold a_handoff.
  destruct (truthy _); [| done]. by rewrite a_try_aquire_eq, try_aquire_result_uaflgs.
Qed.

Lemma a_transfer_loop_uaflgs (lock_check : bool) (lock_nos : list nat) :
  Forall (fun i => i <= ERTS_PROC_LOCK_MAX_BIT)%nat lock_nos ->
  forall v a v' a',
  a_transfer_loop lock_check lock_nos v a = Some (v', a') -> a_uaflgs a' = a_uaflgs a.
Proof.
  induction 1 as [| b l Hb Hl IH]; intros v a v' a' H.
  - by injection H as <- <-.
  - rewrite a_transfer_loop_cons in H by done.
    destruct (truthy (a_tlocks v)); [| by injection H as <- <-].
    destruct (bit (a_tlocks v) b); [| by eapply IH].
    destruct (a_queue a b) as [| wtr rest]; [done |].
    apply IH in H. by rewrite H, a_handoff_uaflgs.
Qed.

(** [transfer_locks] on the list view of a well-formed state, in full. *)
Lemma a_transfer_locks_full (lock_check : bool) (trnsfr_lcks : ErtsProcLocks)
    (unlock : bool) (a : astate) :
  disjoint_queues (a_queue a) -> waits_on_lowest a -> parity a ->
  (forall b, (b <= ERTS_PROC_LOCK_MAX_BIT)%nat -> bit trnsfr_lcks b = true ->
     wait_bit (a_flags a) b = true) ->
  exists wk a' evs,
    a_transfer_locks lock_check trnsfr_lcks unlock a
      = Some (Z.of_nat (length (mask_bits trnsfr_lcks)), wk, a') /\
    a_events a' = a_events a ++ evs ++ pix_part unlock wk /\
    forallb is_flag_op evs = true /\
    (forall w, w ∈ wk ->
       queued (a_queue a) w /\ ~ queued (a_queue a') w /\
       a_uflgs a' w = 0 /\ a_uaflgs a' w = 0) /\
    (forall w, queued (a_queue a) w -> queued (a_queue a') w \/ w ∈ wk) /\
    (forall w, queued (a_queue a') w -> queued (a_queue a) w /\ a_uflgs a' w <> 0) /\
    (forall w, w ∉ wk -> a_uaflgs a' w = a_uaflgs a w).
Proof.
  intros Hdis Hwl Hpar Hwait.
  destruct (a_transfer_loop_full lock_check (a_queue a) (S ERTS_PROC_LOCK_MAX_BIT) 0
              (mk_atvars 0 [] 0 trnsfr_lcks) a eq_refl)
    as (v & a1 & j & Hloop & (_ & Hwl1 & _) & (Hwk & Hall & Horig) & Hcount).
  { cbn [a_tlocks a_unset_waiter]. split_and!; try done.
    - intros b Hb. by rewrite bit_0 in Hb.
    - intros b Hb Hbit. apply (Hpar b); [lia | apply bit_0 |]. apply Hwait; [lia | done]. }
  { split_and!; [| by left | done]. intros w Hw. by apply elem_of_nil in Hw. }
  cbn [a_transferred a_tlocks] in Hcount.
  change (needed_between trnsfr_lcks 0 (S ERTS_PROC_LOCK_MAX_BIT))
    with (mask_bits trnsfr_lcks) in Hcount.
  assert (a_transfer_locks lock_check trnsfr_lcks unlock a
          = Some (a_transferred v, a_wake v,
                  snd (default (0, [], a)
                         (a_transfer_locks lock_check trnsfr_lcks unlock a)))) as Hrun.
  { unfold a_transfer_locks, all_lock_nos. rewrite Hloop. done. }
  set (a' := snd (default (0, [], a) (a_transfer_locks lock_check trnsfr_lcks unlock a)))
    in *.
  destruct (a_transfer_locks_events _ _ _ _ _ _ _ Hrun) as (evs & Hev & Hop & _).
  pose proof (a_transfer_loop_uaflgs _ _ all_lock_nos_le _ _ _ _ Hloop) as Hua1.
  (* the fields of the final state *)
  assert (a_queue a' = a_queue a1 /\ a_uflgs a' = a_uflgs a1 /\
          forall w, a_uaflgs a' w
                    = if bool_decide (w ∈ a_wake v) then 0 else a_uaflgs a w)
    as (Hq' & Hu' & Hua').
  { unfold a', a_transfer_locks, all_lock_nos. rewrite Hloop. cbn [default from_option id snd].
    set (a2 := if truthy (a_unset_waiter v) then _ else a1).
    assert (a_queue a2 = a_queue a1 /\ a_uflgs a2 = a_uflgs a1 /\ a_uaflgs a2 = a_uaflgs a)
      as (Hq2 & Hu2 & Hua2).
    { unfold a2. destruct (truthy (a_unset_waiter v)); by rewrite <- Hua1. }
    destruct (a_wake v) as [| w0 l0].
    - split_and!; [by destruct unlock | by destruct unlock |].
      intros w. rewrite bool_decide_eq_false_2 by apply not_elem_of_nil.
      destruct unlock; cbn [a_emit a_uaflgs]; by rewrite Hua2.
    - destruct unlock; cbn [negb a_emit a_queue a_uflgs a_uaflgs];
        rewrite (proj1 (proj2 (a_wake_all_fields _ _))),
                (proj2 (proj2 (a_wake_all_fields _ _)));
        (split_and!; [done | done |]);
        intros w; rewrite a_wake_all_uaflgs; cbn [a_emit a_uaflgs]; by rewrite Hua2. }
  exists (a_wake v), a', evs. rewrite Hrun, Hcount, Hq', Hu'.
  split_and!; try done.
  - intros w Hw. destruct (Hwk w Hw) as (Hw0 & Hwnq & Hwo).
    split_and!; try done. by rewrite Hua', bool_decide_eq_true_2.
  - intros w Hw. split; [by apply Horig |].
    destruct Hw as (b & Hb & Hin). destruct (Hwl1 b w Hb Hin) as (_ & Hbit & _).
    by apply (bit_true_nonzero _ b).
  - intros w Hw. by rewrite Hua', bool_decide_eq_false_2.
Qed.

(** X8: whom [transfer_locks] wakes.  On a well-formed lock state (as for
    X6) the call returns the number of locks in [trnsfr_lcks].  Its events
    are operations on the flag word, followed by the release of the pix
    lock (if there is a waiter to wake or the caller asked for it), the
    wake-ups, and the pix lock taken again if the caller keeps it.  The
    waiters woken were queued, now need no lock, are on no queue and have
    their [uaflgs] reset; every other waiter that was queued is still
    queued and still needs a lock, and its [uaflgs] is untouched: no waiter
    is lost, and none is woken early. *)
Theorem transfer_locks_wakes (lock_check : bool) (trnsfr_lcks : ErtsProcLocks)
    (unlock : bool) (s : lstate) (qs : nat -> list tse_ptr) :
  represents s qs ->
  queue_waiter_parity (lck s) ->
  waits_on_lowest (abs_of s qs) ->
  (forall b, (b <= ERTS_PROC_LOCK_MAX_BIT)%nat -> bit trnsfr_lcks b = true ->
     wait_bit (flags (lck s)) b = true) ->
  exists s' qs' wk evs,
    transfer_locks lock_check trnsfr_lcks unlock s
      = Ok (Z.of_nat (length (mask_bits trnsfr_lcks)), s') /\
    represents s' qs' /\
    events s' = events s ++ evs ++ pix_part unlock wk /\
    forallb is_flag_op evs = true /\
    (forall w, w ∈ wk ->
       queued qs w /\ ~ queued qs' w /\
       uflgs (tse s' w) = 0 /\ uaflgs (tse s' w) = 0) /\
    (forall w, queued qs w -> queued qs' w \/ w ∈ wk) /\
    (forall w, queued qs' w -> queued qs w /\ uflgs (tse s' w) <> 0) /\
    (forall w, w ∉ wk -> uaflgs (tse s' w) = uaflgs (tse s w)).
Proof.
  intros Hrep Hpar Hwl Hwait.
  pose proof (refines_abs_of s qs Hrep) as Href.
  destruct (a_transfer_locks_full lock_check trnsfr_lcks unlock (abs_of s qs))
    as (wk & a' & evs & Hrun & Hev & Hop & Hwk & Hall & Hq & Hua); try done.
  { apply Hrep. }
  { by apply (parity_refines s _ Href). }
  pose proof (transfer_locks_refines lock_check trnsfr_lcks unlock s _ Href) as Hconc.
  rewrite Hrun in Hconc. destruct Hconc as (s' & Hok & (_ & He' & Hu' & Hua' & Hrep')).
  cbn [abs_of a_events a_queue a_uaflgs] in Hev, Hwk, Hall, Hq, Hua.
  exists s', (a_queue a'), wk, evs. split_and!; try done.
  - by rewrite He'.
  - intros w Hw. rewrite Hu', Hua'. by apply Hwk.
  - intros w Hw. rewrite Hu'. by apply Hq.
  - intros w Hw. rewrite Hua'. by apply Hua.
Qed.

Lemma transfer_locks_wakes_witness :
  exists s',
    transfer_locks false 4 true waiting_lstate = Ok (1, s') /\
    events s' = [Ev_band 4294967167 133] ++ pix_part true [7%nat] /\
    uflgs (tse s' 7%nat) = 0 /\ uaflgs (tse s' 7%nat) = 0 /\
    queue (lck s') 2%nat = None.
Proof.
  destruct waiting_invariants as (Hpar & Hwl & Hwait).
  destruct (transfer_locks_wakes false 4 true waiting_lstate waiting_queues
              represents_waiting Hpar Hwl Hwait)
    as (s' & qs' & wk & evs & Hrun & _).
  exists s'. vm_compute in Hrun. injection Hrun as <-. repeat split.
Defined.
